(** * Schematic core of kicad-mcp: data model, DSL emitter and Librarian

    A shallow embedding of

      - [kicad_mcp/schematic_core/models.py]      ([Pin], [Component], [Net]),
      - [kicad_mcp/schematic_core/dsl_emitter.py] (the text emitter),
      - [kicad_mcp/schematic_core/interfaces.py]  (the provider contract),
      - [kicad_mcp/schematic_core/librarian.py]   (the caching navigation layer),

    followed by the properties the specification states about them.

    Modelling conventions.

      - A Python [str] is a [string].  Reference designators, pin
        designators, page names and net names are taken to be ASCII text; on
        such text the Unicode-aware primitives of Python ([str.isalpha],
        [str.isdigit], [str.upper], the regex class [\d] and the regex flag
        [IGNORECASE]) are the usual letter and digit tests and the usual case
        folding, which is how they are defined here.  Characters outside
        ASCII are outside the model: here they count as neither letters nor
        digits and have no case, and a property that rests on one of these
        primitives is stated for ASCII text ([Str.isascii]).  String order is
        the lexicographic order on characters, which is Python's order.
      - A Python [int] is an [N] or a [nat] (only lengths and digit runs
        occur); [str(n)] inside an f-string is the decimal rendering.  The
        builtin [int] refuses a text of more than [int_max_str_digits]
        digits; the sort key with this failure is [Checked._natural_sort_key],
        and [_natural_sort_key] is its value where it has one.
      - A [set] of strings is a [gset string], a [dict] keyed by strings is a
        [gmap string _], a [list] is a [list].
      - [sorted] and [list.sort] are stable sorts; they are modelled by a
        stable insertion sort, which returns the same list as any other
        stable sort for a total preorder.
      - The Librarian is an object with mutable fields driving a provider
        object; its methods are computations in a state-and-exception monad
        over the Librarian record. *)

From stdpp Require Import base tactics option list strings gmap sets pretty sorting.
From Stdlib Require Import Ascii NArith Permutation Sorted Lia.

Local Open Scope string_scope.
Local Open Scope list_scope.

(** * Characters and strings *)

Module Chars.

Definition code (c : ascii) : N := N_of_ascii c.

Definition in_range (lo hi : N) (c : ascii) : bool :=
  (lo <=? code c)%N && (code c <=? hi)%N.

(** [ch.isupper()], [ch.islower()], [ch.isalpha()], [ch.isdigit()] on the
    characters of ASCII text. *)
Definition is_upper (c : ascii) : bool := in_range 65 90 c.
Definition is_lower (c : ascii) : bool := in_range 97 122 c.
Definition isalpha (c : ascii) : bool := is_upper c || is_lower c.
Definition isdigit (c : ascii) : bool := in_range 48 57 c.

(** [ch.upper()] on the characters of ASCII text. *)
Definition upper (c : ascii) : ascii :=
  if is_lower c then ascii_of_N (code c - 32) else c.

(** The line feed, written ["\n"] in the source. *)
Definition LF : ascii := ascii_of_N 10.

(** Value of a decimal digit. *)
Definition digit_value (c : ascii) : N := (code c - 48)%N.

(** [ch.isascii()] *)
Definition isascii (c : ascii) : bool := (code c <? 128)%N.

End Chars.

Module Str.

(** [s.upper()] for ASCII text *)
Fixpoint upper (s : string) : string :=
  match s with
  | EmptyString => EmptyString
  | String c s' => String (Chars.upper c) (upper s')
  end.

(** ["\n"] *)
Definition nl : string := String Chars.LF EmptyString.

(** [sep.join(parts)] *)
Fixpoint join (sep : string) (parts : list string) : string :=
  match parts with
  | [] => ""
  | [p] => p
  | p :: rest => p +:+ sep +:+ join sep rest
  end.

(** [s.isdigit()] for ASCII text: every character is a digit and there is
    at least one. *)
Fixpoint all_digits (s : string) : bool :=
  match s with
  | EmptyString => true
  | String c s' => Chars.isdigit c && all_digits s'
  end.

Definition isdigit (s : string) : bool :=
  match s with
  | EmptyString => false
  | _ => all_digits s
  end.

(** [int(s)] on a run of decimal digits. *)
Fixpoint int_acc (acc : N) (s : string) : N :=
  match s with
  | EmptyString => acc
  | String c s' => int_acc (10 * acc + Chars.digit_value c)%N s'
  end.

Definition int (s : string) : N := int_acc 0 s.

(** [all(p(c) for c in s)] *)
Fixpoint forallb (p : ascii → bool) (s : string) : bool :=
  match s with
  | EmptyString => true
  | String c s' => p c && forallb p s'
  end.

(** [s.isascii()] *)
Definition isascii (s : string) : bool := forallb Chars.isascii s.

(** Truth value of a string: [if s:]. *)
Definition truthy (s : string) : bool :=
  match s with
  | EmptyString => false
  | _ => true
  end.

End Str.

(** * Stable sorting by a boolean order *)

Section StableSort.

Context {A : Type} (le : A → A → bool).

(** [x] goes in front of the first element it is not greater than, hence in
    front of the elements equal to it: elements are inserted from the right
    end of the input, so equal elements keep their input order. *)
Fixpoint insert_sorted (x : A) (l : list A) : list A :=
  match l with
  | [] => [x]
  | y :: l' => if le x y then x :: y :: l' else y :: insert_sorted x l'
  end.

Fixpoint stable_sort (l : list A) : list A :=
  match l with
  | [] => []
  | x :: l' => insert_sorted x (stable_sort l')
  end.

End StableSort.

(** [sorted(xs, key=f)] for a string-valued key. *)
Definition sorted_by_str {A : Type} (key : A → string) (xs : list A) : list A :=
  stable_sort (λ a b, String.leb (key a) (key b)) xs.

(** [sorted(xs)] on strings. *)
Definition sorted_str (xs : list string) : list string :=
  stable_sort String.leb xs.

(** * Regular expressions, as far as [Net.is_global] uses them *)

Module Re.

(** One-character patterns under [re.IGNORECASE]. *)
Inductive atom : Type :=
| Lit (c : ascii)      (* a literal character, compared without case *)
| Digit                (* \d *)
| Any.                 (* .  (no DOTALL: not a line feed) *)

(** Patterns.  Repetition is applied to one-character patterns only, which
    is all the pattern of [Net.is_global] needs. *)
Inductive t : Type :=
| Eps                  (* the empty pattern *)
| Bol                  (* ^ *)
| Eol                  (* $ *)
| Atom (a : atom)
| Star (a : atom)      (* a* *)
| Opt (r : t)          (* r? *)
| Cat (r1 r2 : t)
| Alt (r1 r2 : t).

Definition Plus (a : atom) : t := Cat (Atom a) (Star a).

(** The literal string [s]. *)
Fixpoint Word (s : string) : t :=
  match s with
  | EmptyString => Eps
  | String c EmptyString => Atom (Lit c)
  | String c s' => Cat (Atom (Lit c)) (Word s')
  end.

(** Whether a character of an ASCII subject is one the atom stands for,
    under IGNORECASE. *)
Definition atom_ok (a : atom) (c : ascii) : bool :=
  match a with
  | Lit l => bool_decide (Chars.upper c = Chars.upper l)
  | Digit => Chars.isdigit c
  | Any => negb (bool_decide (c = Chars.LF))
  end.

(** Without MULTILINE, [$] holds at the end of the subject and just before
    a line feed that ends the subject. *)
Definition at_eol (s : string) : bool :=
  match s with
  | EmptyString => true
  | String c EmptyString => bool_decide (c = Chars.LF)
  | _ => false
  end.

(** [star a pos s k]: consume any number of characters matching [a], then
    continue with [k]. *)
Fixpoint star (a : atom) (pos : nat) (s : string)
    (k : nat → string → bool) : bool :=
  k pos s ||
  match s with
  | EmptyString => false
  | String c s' => atom_ok a c && star a (S pos) s' k
  end.

(** Backtracking matcher in continuation-passing style: [run r pos s k]
    holds when [r] matches at offset [pos], where [s] is the rest of the
    subject, and [k] accepts what follows. *)
Fixpoint run (r : t) (pos : nat) (s : string)
    (k : nat → string → bool) : bool :=
  match r with
  | Eps => k pos s
  | Bol => bool_decide (pos = 0) && k pos s
  | Eol => at_eol s && k pos s
  | Atom a =>
      match s with
      | EmptyString => false
      | String c s' => atom_ok a c && k (S pos) s'
      end
  | Star a => star a pos s k
  | Opt r1 => run r1 pos s k || k pos s
  | Cat r1 r2 => run r1 pos s (λ pos' s', run r2 pos' s' k)
  | Alt r1 r2 => run r1 pos s k || run r2 pos s k
  end.

(** [re.match(r, s, re.IGNORECASE)] as a truth value: [r] matches some
    prefix of [s]. *)
Definition matches (r : t) (s : string) : bool :=
  run r 0 s (λ _ _, true).

End Re.

(** * Data model ([models.py]) *)

Record Pin : Type := mkPin {
  designator : string;
  pin_name : string;           (* field [name] *)
  pin_net : string             (* field [net] *)
}.

Record Component : Type := mkComponent {
  refdes : string;
  value : string;
  footprint : string;
  mpn : string;
  page : string;
  description : string;
  pins : list Pin;
  location : Z * Z;             (* (x, y); kept, never read by the core *)
  properties : gmap string string;
  multipart_parent : option string
}.

Record Net : Type := mkNet {
  net_name : string;           (* field [name] *)
  net_pages : gset string;     (* field [pages] *)
  members : list (string * string)
}.

(** The loop at the head of [Component.derived_type]: the leading run of
    alphabetic characters of the reference designator (letters as
    [Chars.isalpha] has them, which is right for a designator in ASCII). *)
Fixpoint alpha_prefix (s : string) : string :=
  match s with
  | EmptyString => EmptyString
  | String c s' => if Chars.isalpha c then String c (alpha_prefix s') else EmptyString
  end.

(** [Component.derived_type] *)
Definition derived_type (self : Component) : string :=
  let prefix := alpha_prefix (refdes self) in
  let prefix_upper := Str.upper prefix in
  if decide (prefix_upper = "R") then "RES"
  else if decide (prefix_upper = "C") then "CAP"
  else if decide (prefix_upper ∈ ["L"; "FB"]) then "IND"
  else if decide (prefix_upper = "F") then "FUSE"
  else if decide (prefix_upper ∈ ["D"; "LED"]) then "DIODE"
  else if decide (prefix_upper = "Q") then "TRANSISTOR"
  else if decide (prefix_upper = "U") then "IC"
  else if decide (prefix_upper ∈ ["J"; "P"; "CN"; "CONN"]) then "CONN"
  else if decide (prefix_upper = "SW") then "SWITCH"
  else if decide (prefix_upper ∈ ["X"; "Y"]) then "OSC"
  else "ACTIVE".

(** [Component.is_complex] *)
Definition is_complex (self : Component) : bool :=
  if decide (4 < length (pins self)) then true
  else
    let simple_names := ["1"; "2"; "3"; "4"; "A"; "K"; ""] in
    existsb (λ pin, Str.truthy (pin_name pin)
                    && negb (bool_decide (pin_name pin ∈ simple_names)))
            (pins self).

(** [Component.is_passive] *)
Definition is_passive (self : Component) : bool :=
  let passive_types := ["RES"; "CAP"; "IND"; "FUSE"] in
  bool_decide (derived_type self ∈ passive_types).

(** The pattern of [Net.is_global], an alternation of three anchored
    patterns, written here with blanks between the tokens:
<<
      ^ ( P? GND | VSS | VCC | VDD | VEE | VBAT ) ( $ | _ .* )
    | ^ ( \+? ( \d+ \.? \d* V \d* | \d* \.? \d* V \d+ ) | \+? ( \d+ V ) )
    | ^ .* _ ( GND | VCC | VDD ) $
>> *)
Definition rail_words : Re.t :=
  Re.Alt (Re.Cat (Re.Opt (Re.Atom (Re.Lit "P"%char))) (Re.Word "GND"))
    (Re.Alt (Re.Word "VSS")
       (Re.Alt (Re.Word "VCC")
          (Re.Alt (Re.Word "VDD")
             (Re.Alt (Re.Word "VEE") (Re.Word "VBAT"))))).

Definition rail_prefix_pattern : Re.t :=
  Re.Cat Re.Bol
    (Re.Cat rail_words
       (Re.Alt Re.Eol (Re.Cat (Re.Atom (Re.Lit "_"%char)) (Re.Star Re.Any)))).

Definition voltage_pattern : Re.t :=
  let lit c := Re.Atom (Re.Lit c) in
  Re.Cat Re.Bol
    (Re.Alt
       (Re.Cat (Re.Opt (lit "+"%char))
          (Re.Alt
             (Re.Cat (Re.Plus Re.Digit)
                (Re.Cat (Re.Opt (lit "."%char))
                   (Re.Cat (Re.Star Re.Digit)
                      (Re.Cat (lit "V"%char) (Re.Star Re.Digit)))))
             (Re.Cat (Re.Star Re.Digit)
                (Re.Cat (Re.Opt (lit "."%char))
                   (Re.Cat (Re.Star Re.Digit)
                      (Re.Cat (lit "V"%char) (Re.Plus Re.Digit)))))))
       (Re.Cat (Re.Opt (lit "+"%char))
          (Re.Cat (Re.Plus Re.Digit) (lit "V"%char)))).

Definition rail_suffix_pattern : Re.t :=
  Re.Cat Re.Bol
    (Re.Cat (Re.Star Re.Any)
       (Re.Cat (Re.Atom (Re.Lit "_"%char))
          (Re.Cat
             (Re.Alt (Re.Word "GND") (Re.Alt (Re.Word "VCC") (Re.Word "VDD")))
             Re.Eol))).

Definition power_pattern : Re.t :=
  Re.Alt rail_prefix_pattern (Re.Alt voltage_pattern rail_suffix_pattern).

(** [Net.is_global] *)
Definition is_global (self : Net) : bool :=
  if Re.matches power_pattern (net_name self) then true
  else if decide (15 < length (members self)) then true
  else if decide (3 < size (net_pages self)) then true
  else false.

(** [Net.is_inter_page] *)
Definition is_inter_page (self : Net) : bool :=
  bool_decide (1 < size (net_pages self)).


(** * DSL emitter ([dsl_emitter.py]) *)

(** ** Natural sort keys *)

(** An element of the tuple returned by [_natural_sort_key]. *)
Inductive key_part : Type :=
| KStr (s : string)
| KInt (n : N).

Global Instance key_part_eq_dec : EqDecision key_part.
Proof. solve_decision. Defined.

(** [re.split(r'(\d+)', text)]: the subject cut at its maximal digit runs,
    the runs themselves kept.  The result alternates between a piece without
    digits (possibly empty) and a digit run, and starts and ends with a piece
    without digits.  [cur] is the piece being read, [in_digits] tells whether
    it is a digit run. *)
Fixpoint split_runs (in_digits : bool) (cur : string) (s : string) : list string :=
  match s with
  | EmptyString => if in_digits then [cur; ""] else [cur]
  | String c s' =>
      if Chars.isdigit c then
        if in_digits then split_runs true (cur +:+ String c "") s'
        else cur :: split_runs true (String c "") s'
      else
        if in_digits then cur :: split_runs false (String c "") s'
        else split_runs false (cur +:+ String c "") s'
  end.

Definition re_split_digits (text : string) : list string :=
  split_runs false "" text.

(** The inner function [atoi] of [_natural_sort_key], where [int] returns
    (see [Checked.atoi] for where it does not). *)
Definition atoi (text : string) : key_part :=
  if Str.isdigit text then KInt (Str.int text) else KStr text.

(** [_natural_sort_key] *)
Definition _natural_sort_key (text : string) : list key_part :=
  map atoi (re_split_digits text).

(** [x < y] on tuple elements; [None] is the [TypeError] Python raises when
    an [int] meets a [str]. *)
Definition part_lt (x y : key_part) : option bool :=
  match x, y with
  | KStr s, KStr t => Some (String.ltb s t)
  | KInt m, KInt n => Some (m <? n)%N
  | _, _ => None
  end.

(** [a < b] on tuples: the first position where the elements differ decides;
    without one the shorter tuple is the smaller. *)
Fixpoint key_lt (a b : list key_part) : option bool :=
  match a, b with
  | [], [] => Some false
  | [], _ :: _ => Some true
  | _ :: _, [] => Some false
  | x :: a', y :: b' => if decide (x = y) then key_lt a' b' else part_lt x y
  end.

(** The order a stable sort by key works with: [x] may stay in front of [y]
    unless [key y < key x].  (That no comparison between keys of
    [_natural_sort_key] raises is [natural_keys_comparable] below.) *)
Definition key_le (a b : list key_part) : bool :=
  negb (default false (key_lt b a)).

(** [sorted(xs, key=lambda x: _natural_sort_key(f(x)))] *)
Definition sorted_natural {A : Type} (f : A → string) (xs : list A) : list A :=
  stable_sort (λ x y, key_le (_natural_sort_key (f x)) (_natural_sort_key (f y))) xs.

(** ** Blocks *)

(** [_format_component_block], as the list [lines] it joins. *)
Definition component_block_lines (component : Component) : list string :=
  let comp_type := derived_type component in
  let lines :=
    [ if Str.truthy (description component)
      then "DEF " +:+ comp_type +:+ " " +:+ description component
      else "DEF " +:+ comp_type ] in
  let lines := lines ++ ["COMP " +:+ refdes component +:+ " (" +:+ value component +:+ ")"] in
  let lines := if Str.truthy (mpn component)
               then lines ++ ["  MPN: " +:+ mpn component] else lines in
  let lines := if Str.truthy (footprint component)
               then lines ++ ["  FP: " +:+ footprint component] else lines in
  match pins component with
  | [] => lines
  | _ :: _ =>
      let sorted_pins := sorted_natural designator (pins component) in
      lines ++ ["  PINS:"] ++
        map (λ pin,
               if Str.truthy (pin_name pin)
               then "    " +:+ designator pin +:+ ": " +:+ pin_name pin
               else "    " +:+ designator pin +:+ ":")
            sorted_pins
  end.

Definition _format_component_block (component : Component) : string :=
  Str.join Str.nl (component_block_lines component).

(** [_format_pin_reference] *)
Definition _format_pin_reference (refdes0 pin_designator : string)
    (components : list Component) : string :=
  match find (λ comp, bool_decide (refdes comp = refdes0)) components with
  | None => refdes0 +:+ "." +:+ pin_designator
  | Some component =>
      match find (λ p, bool_decide (designator p = pin_designator)) (pins component) with
      | None => refdes0 +:+ "." +:+ pin_designator
      | Some pin =>
          if negb (Str.truthy (pin_name pin)) then refdes0 +:+ "." +:+ pin_designator
          else
            let simple_names := ["1"; "2"; "3"; "4"; "A"; "K"] in
            if decide (pin_name pin ∈ simple_names)
            then refdes0 +:+ "." +:+ pin_designator
            else refdes0 +:+ "." +:+ pin_designator +:+ "(" +:+ pin_name pin +:+ ")"
      end
  end.

(** The sorted list [pin_refs] of [_format_net_block]. *)
Definition pin_refs (net : Net) (components : list Component) : list string :=
  sorted_str
    (map (λ m, _format_pin_reference m.1 m.2 components) (members net)).

(** The string [con_str] of [_format_net_block]. *)
Definition con_str (net : Net) (components : list Component) : string :=
  let refs := pin_refs net components in
  if is_global net && bool_decide (10 < length refs) then
    let shown_refs := take 10 refs in
    let others_count := length refs - 10 in
    Str.join ", " shown_refs +:+ " (+ " +:+ pretty others_count +:+ " others)"
  else Str.join ", " refs.

(** [_format_net_block], as the list [lines] it joins. *)
Definition net_block_lines (net : Net) (net_pages0 : gset string)
    (components : list Component) : list string :=
  let lines := ["NET " +:+ net_name net] in
  let is_inter_page := bool_decide (1 < size net_pages0) in
  let lines :=
    if is_global net then lines ++ ["  LINKS: ALL_PAGES"]
    else if is_inter_page then
      let sorted_pages := sorted_str (elements net_pages0) in
      lines ++ ["  LINKS: " +:+ Str.join ", " sorted_pages]
    else lines in
  lines ++ ["  CON: " +:+ con_str net components].

Definition _format_net_block (net : Net) (net_pages0 : gset string)
    (components : list Component) : string :=
  Str.join Str.nl (net_block_lines net net_pages0 components).

(** [_format_neighbor_summary] *)
Definition _format_neighbor_summary (component : Component) : string :=
  if Str.truthy (description component)
  then refdes component +:+ " (" +:+ value component +:+ ") - " +:+ description component
  else refdes component +:+ " (" +:+ value component +:+ ")".

(** ** Pages and context bubbles *)

(** [emit_page_dsl] *)
Definition emit_page_dsl (components : list Component) (nets : list Net)
    (net_page_map : gmap string (gset string)) : string :=
  match components with
  | [] => "# No components on this page" +:+ Str.nl
  | first :: _ =>
      let page_name := page first in
      let sorted_components := sorted_by_str refdes components in
      let sorted_nets := sorted_by_str net_name nets in
      let lines := ["# PAGE: " +:+ page_name; ""] in
      let lines := lines ++ ["# COMPONENTS"] in
      let complex_components := filter (λ c, is_complex c = true) sorted_components in
      let lines :=
        match complex_components with
        | [] => lines ++ ["(All components are simple passives - see NETS section)"]
        | _ => lines ++ map _format_component_block complex_components
        end in
      let lines := lines ++ [""] in
      let lines := lines ++ ["# NETS"] in
      let lines :=
        lines ++
        map (λ net,
               let net_pages0 := default ∅ (net_page_map !! net_name net) in
               _format_net_block net net_pages0 sorted_components)
            sorted_nets in
      Str.join Str.nl lines
  end.

(** [emit_context_dsl] *)
Definition emit_context_dsl (primary_components neighbor_components : list Component)
    (nets : list Net) : string :=
  match primary_components with
  | [] => "# No components in context" +:+ Str.nl
  | _ :: _ =>
      let sorted_primary := sorted_by_str refdes primary_components in
      let sorted_neighbors := sorted_by_str refdes neighbor_components in
      let sorted_nets := sorted_by_str net_name nets in
      let primary_refdes := Str.join ", " (map refdes sorted_primary) in
      let lines := ["# CONTEXT: " +:+ primary_refdes; ""] in
      let lines := lines ++ ["# COMPONENTS"] in
      let lines :=
        lines ++ map _format_component_block
                   (filter (λ c, is_complex c = true) sorted_primary) in
      let lines := lines ++ [""] in
      let lines :=
        match sorted_neighbors with
        | [] => lines
        | _ :: _ =>
            lines ++ ["# CONTEXT_NEIGHBORS"]
                  ++ map _format_neighbor_summary sorted_neighbors ++ [""]
        end in
      let lines := lines ++ ["# NETS"] in
      let all_components := sorted_primary ++ sorted_neighbors in
      let lines :=
        lines ++
        map (λ net, _format_net_block net (net_pages net) all_components) sorted_nets in
      Str.join Str.nl lines
  end.

(** * Provider contract ([interfaces.py]) *)

(** What a call leaves behind: a value, or a raised exception. *)
Inductive outcome (E A : Type) : Type :=
| Return (a : A)
| Raise (e : E).
Global Arguments Return {E A} a.
Global Arguments Raise {E A} e.

(** [SchematicProvider]: an object of hidden state [P] whose three abstract
    methods may change that state and may raise an exception of type [E]. *)
Class SchematicProvider (P E : Type) : Type := {
  fetch_raw_data : P → outcome E () * P;
  get_components : P → outcome E (list Component) * P;
  get_nets : P → outcome E (list Net) * P
}.

(** The provider methods, for the record of calls kept beside the Librarian. *)
Inductive provider_call : Type :=
| CallFetchRawData
| CallGetComponents
| CallGetNets.

Global Instance provider_call_eq_dec : EqDecision provider_call.
Proof. solve_decision. Defined.

(** * Librarian ([librarian.py]) *)

Section Librarian.

Context {P E : Type} `{!SchematicProvider P E}.

(** The attributes of a [Librarian] object. *)
Record Librarian : Type := mkLibrarian {
  provider : P;
  dirty : bool;
  components : list Component;
  nets : list Net;
  net_page_map : gmap string (gset string)      (* The Atlas *)
}.

(** A Librarian together with the history of the calls made on its
    provider (oldest first).  The history is not an attribute of the
    object; it is what a counting provider such as the [MockProvider] of
    the test suite observes. *)
Record World : Type := mkWorld {
  self : Librarian;
  calls : list provider_call
}.

(** [Librarian.__init__] *)
Definition Librarian_init (provider0 : P) : Librarian :=
  mkLibrarian provider0 true [] [] ∅.

(** Methods are state transformers that return or raise; a raised
    exception leaves the state as it was at the point of the raise. *)
Definition M (A : Type) : Type := World → outcome E A * World.

Definition ret {A} (a : A) : M A := λ w, (Return a, w).

Definition bind {A B} (m : M A) (k : A → M B) : M B :=
  λ w, match m w with
       | (Return a, w') => k a w'
       | (Raise e, w') => (Raise e, w')
       end.

Global Instance M_ret : MRet M := @ret.
Global Instance M_bind : MBind M := λ A B k m, bind m k.

(** Attribute reads and writes. *)
Definition read {A} (field : Librarian → A) : M A := λ w, (Return (field (self w)), w).

Definition write (f : Librarian → Librarian) : M () :=
  λ w, (Return (), mkWorld (f (self w)) (calls w)).

Definition set_provider (p : P) (l : Librarian) : Librarian :=
  mkLibrarian p (dirty l) (components l) (nets l) (net_page_map l).
Definition set_dirty (d : bool) (l : Librarian) : Librarian :=
  mkLibrarian (provider l) d (components l) (nets l) (net_page_map l).
Definition set_components (cs : list Component) (l : Librarian) : Librarian :=
  mkLibrarian (provider l) (dirty l) cs (nets l) (net_page_map l).
Definition set_nets (ns : list Net) (l : Librarian) : Librarian :=
  mkLibrarian (provider l) (dirty l) (components l) ns (net_page_map l).
Definition set_net_page_map (m : gmap string (gset string)) (l : Librarian) : Librarian :=
  mkLibrarian (provider l) (dirty l) (components l) (nets l) m.

(** A call [self.provider.method()]: the provider moves to its new state
    and the call is recorded, whether it returns or raises. *)
Definition call {A} (tag : provider_call) (method : P → outcome E A * P) : M A :=
  λ w, let '(r, p') := method (provider (self w)) in
       (r, mkWorld (set_provider p' (self w)) (calls w ++ [tag])).

(** [for x in xs: body(x)] *)
Fixpoint for_each {A} (xs : list A) (body : A → M ()) : M () :=
  match xs with
  | [] => ret ()
  | x :: xs' => body x ;; for_each xs' body
  end.

(** [Librarian.refresh] *)
Definition refresh : M () :=
  d ← read dirty;
  if negb d then ret ()
  else
    call CallFetchRawData fetch_raw_data ;;
    cs ← call CallGetComponents get_components;
    write (set_components cs) ;;
    ns ← call CallGetNets get_nets;
    write (set_nets ns) ;;
    write (set_net_page_map ∅) ;;
    ns' ← read nets;
    for_each ns' (λ net,
      write (λ l, set_net_page_map (<[net_name net := net_pages net]> (net_page_map l)) l)) ;;
    write (set_dirty false).

(** [Librarian.mark_dirty] *)
Definition mark_dirty : M () := write (set_dirty true).

(** The text [get_page] returns for an unknown page. *)
Definition page_not_found (page_name : string) : string :=
  "# PAGE: " +:+ page_name +:+ Str.nl +:+ Str.nl
    +:+ "(Page not found in schematic)" +:+ Str.nl.

(** The second half of [get_page], from "Filter nets" on. *)
Definition page_dsl_of (l : Librarian) (page_components : list Component) : string :=
  let page_component_refdes : gset string := list_to_set (map refdes page_components) in
  let page_nets :=
    filter (λ net,
              existsb (λ m, bool_decide (m.1 ∈ page_component_refdes)) (members net) = true)
           (nets l) in
  emit_page_dsl page_components page_nets (net_page_map l).

(** [Librarian.get_page] *)
Definition get_page (page_name : string) : M string :=
  refresh ;;
  l ← read id;
  let page_components := filter (λ c, page c = page_name) (components l) in
  match page_components with
  | [] =>
      let page_exists :=
        existsb (λ net, bool_decide (page_name ∈ net_pages net)) (nets l) in
      if negb page_exists then ret (page_not_found page_name)
      else
        let page_components := [] in
        ret (page_dsl_of l page_components)
  | _ :: _ => ret (page_dsl_of l page_components)
  end.

(** The stages of [get_context], named after its local variables. *)

(** Step 1 *)
Definition primary_components_of (l : Librarian) (refdes_list : list string)
    : list Component :=
  filter (λ c, refdes c ∈ refdes_list) (components l).

(** Step 2 *)
Definition connected_nets_of (l : Librarian) (primary_refdes_set : gset string)
    : list Net :=
  filter (λ net,
            existsb (λ m, bool_decide (m.1 ∈ primary_refdes_set)) (members net) = true)
         (nets l).

(** Step 3 *)
Definition neighbor_refdes_set_of (connected_nets : list Net)
    (primary_refdes_set : gset string) : gset string :=
  foldl (λ acc net,
           foldl (λ acc m,
                    if decide (m.1 ∉ primary_refdes_set) then acc ∪ {[m.1]} else acc)
                 acc (members net))
        ∅ connected_nets.

(** Step 5: the per-query views of the connected nets. *)
Definition context_nets_of (connected_nets : list Net)
    (context_refdes : gset string) : list Net :=
  map (λ net,
         let filtered_members := filter (λ m, m.1 ∈ context_refdes) (members net) in
         mkNet (net_name net) (net_pages net) filtered_members)
      connected_nets.

(** [Librarian.get_context] *)
Definition get_context (refdes_list : list string) : M string :=
  refresh ;;
  l ← read id;
  match refdes_list with
  | [] => ret ("# CONTEXT: (empty)" +:+ Str.nl +:+ Str.nl
                 +:+ "(No components specified for context)" +:+ Str.nl)
  | _ :: _ =>
      let primary_components := primary_components_of l refdes_list in
      match primary_components with
      | [] =>
          let missing := Str.join ", " refdes_list in
          ret ("# CONTEXT: " +:+ missing +:+ Str.nl +:+ Str.nl
                 +:+ "(Components not found in schematic)" +:+ Str.nl)
      | _ :: _ =>
          let primary_refdes_set : gset string :=
            list_to_set (map refdes primary_components) in
          let connected_nets := connected_nets_of l primary_refdes_set in
          let neighbor_refdes_set :=
            neighbor_refdes_set_of connected_nets primary_refdes_set in
          let all_neighbors :=
            filter (λ c, refdes c ∈ neighbor_refdes_set) (components l) in
          let neighbor_components :=
            filter (λ c, is_passive c = false) all_neighbors in
          let context_refdes := primary_refdes_set ∪ neighbor_refdes_set in
          let context_nets := context_nets_of connected_nets context_refdes in
          ret (emit_context_dsl primary_components neighbor_components context_nets)
      end
  end.

End Librarian.

(** * The specification's tables, in its own words *)

(** The prefix table of the specification, entry by entry: an alphabetic
    prefix, in upper case, and the category it stands for. *)
Definition prefix_table : list (string * string) :=
  [ ("R", "RES"); ("C", "CAP"); ("L", "IND"); ("FB", "IND"); ("F", "FUSE");
    ("D", "DIODE"); ("LED", "DIODE"); ("Q", "TRANSISTOR"); ("U", "IC");
    ("J", "CONN"); ("P", "CONN"); ("CN", "CONN"); ("CONN", "CONN");
    ("SW", "SWITCH"); ("X", "OSC"); ("Y", "OSC") ].

(** Looking a prefix up in the table; any other prefix is [ACTIVE]. *)
Definition table_type (prefix_upper : string) : string :=
  match find (λ entry, bool_decide (entry.1 = prefix_upper)) prefix_table with
  | Some entry => entry.2
  | None => "ACTIVE"
  end.

(** The same character, or the same ASCII letter in its two cases. *)
Definition same_letter (a b : ascii) : Prop :=
  a = b
  ∨ (Chars.isalpha a = true ∧ Chars.isalpha b = true
     ∧ (Chars.code a = Chars.code b + 32 ∨ Chars.code b = Chars.code a + 32)%N).

(** Two texts that differ at most in the case of their letters. *)
Fixpoint caseless_eq (s t : string) : Prop :=
  match s, t with
  | EmptyString, EmptyString => True
  | String a s', String b t' => same_letter a b ∧ caseless_eq s' t'
  | _, _ => False
  end.

(** A component with nothing but a reference designator and pins. *)
Definition bare_component (refdes0 : string) (pins0 : list Pin) : Component :=
  mkComponent refdes0 "" "" "" "" "" pins0 (0, 0)%Z ∅ None.

(** * Notions the properties are stated with *)

(** The pin a net member refers to, as [_format_pin_reference] finds it: the
    first component of the list carrying the reference designator, and on it
    the first pin carrying the designator. *)
Definition lookup_pin (refdes0 pin_designator : string)
    (components : list Component) : option Pin :=
  component ← find (λ comp, bool_decide (refdes comp = refdes0)) components;
  find (λ p, bool_decide (designator p = pin_designator)) (pins component).

(** A pin name worth showing: not empty and not one of the trivial names. *)
Definition semantic_name (name : string) : Prop :=
  name ≠ "" ∧ name ∉ ["1"; "2"; "3"; "4"; "A"; "K"].

(** The two renderings of a pin reference. *)
Definition plain_ref (refdes0 pin_designator : string) : string :=
  refdes0 +:+ "." +:+ pin_designator.

Definition named_ref (refdes0 pin_designator name : string) : string :=
  refdes0 +:+ "." +:+ pin_designator +:+ "(" +:+ name +:+ ")".

(** A piece without any digit. *)
Fixpoint no_digits (s : string) : bool :=
  match s with
  | EmptyString => true
  | String c s' => negb (Chars.isdigit c) && no_digits s'
  end.

(** Pieces that alternate between digit-free pieces and digit runs;
    [in_digits] tells what the first piece must be. *)
Fixpoint runs_alternate (in_digits : bool) (pieces : list string) : Prop :=
  match pieces with
  | [] => True
  | p :: ps =>
      (if in_digits then Str.isdigit p = true else no_digits p = true)
      ∧ runs_alternate (negb in_digits) ps
  end.

(** Keys that alternate between strings and numbers. *)
Fixpoint key_alternates (starts_int : bool) (k : list key_part) : Prop :=
  match k with
  | [] => True
  | KStr _ :: k' => starts_int = false ∧ key_alternates true k'
  | KInt _ :: k' => starts_int = true ∧ key_alternates false k'
  end.

(** The order of two designators under the natural sort: the second is not
    smaller than the first. *)
Definition natural_le (d1 d2 : string) : Prop :=
  key_lt (_natural_sort_key d2) (_natural_sort_key d1) = Some false.

(** ** The sort key with the failure of [int] *)

(** [sys.get_int_max_str_digits()] as Python sets it by default: [int]
    raises [ValueError] for a decimal text with more digits than this. *)
Definition int_max_str_digits : nat := 4300.

(** [tuple(f(x) for x in xs)] and [[f(x) for x in xs]] for an [f] that may
    raise: left to right, the first exception ends it. *)
Fixpoint each {E A B : Type} (f : A → outcome E B) (xs : list A)
    : outcome E (list B) :=
  match xs with
  | [] => Return []
  | x :: xs' =>
      match f x with
      | Raise e => Raise e
      | Return y =>
          match each f xs' with
          | Raise e => Raise e
          | Return ys => Return (y :: ys)
          end
      end
  end.

Module Checked.

(** The [ValueError] of [int]: "Exceeds the limit (4300 digits) for integer
    string conversion: value has [digits] digits". *)
Inductive ValueError : Type :=
| ExceedsLimit (digits : nat).

(** [int(text)] on a run of ASCII decimal digits. *)
Definition int (text : string) : outcome ValueError N :=
  if decide (int_max_str_digits < String.length text)%nat
  then Raise (ExceedsLimit (String.length text))
  else Return (Str.int text).

(** The inner function [atoi] of [_natural_sort_key]. *)
Definition atoi (text : string) : outcome ValueError key_part :=
  if Str.isdigit text then
    match int text with
    | Return n => Return (KInt n)
    | Raise e => Raise e
    end
  else Return (KStr text).

(** [_natural_sort_key] *)
Definition _natural_sort_key (text : string) : outcome ValueError (list key_part) :=
  each atoi (re_split_digits text).

(** [sorted(xs, key=lambda x: _natural_sort_key(f(x)))]: the keys are taken
    first, one per element and in the order of the list, then the elements
    are sorted by them. *)
Definition sorted_natural {A : Type} (f : A → string) (xs : list A)
    : outcome ValueError (list A) :=
  match each (λ x, _natural_sort_key (f x)) xs with
  | Raise e => Raise e
  | Return keys =>
      Return (map fst (stable_sort (λ x y, key_le x.2 y.2) (zip xs keys)))
  end.

End Checked.

(** A designator within the model and within the limit of [int]: ASCII
    text whose digit runs have at most [int_max_str_digits] digits. *)
Definition short_runs (text : string) : Prop :=
  Forall (λ piece, (String.length piece ≤ int_max_str_digits)%nat)
         (filter (λ piece, Str.isdigit piece = true) (re_split_digits text)).

Definition sortable (text : string) : Prop :=
  Str.isascii text = true ∧ short_runs text.





(** The names of the power and ground convention, family by family.

    - A rail word GND, PGND, VSS, VCC, VDD, VEE or VBAT in any case, alone
      or followed by an underscore and anything.
    - A voltage: an optional plus sign, digits with an optional decimal
      point, the letter V in either case and anything after it, with a digit
      in front of the V or right after it ("3V3", "+5V", "1V8", "3.3V").
    - A one-line name that ends with _GND, _VCC or _VDD in any case.

    In the first and the last family a line feed that ends the name does not
    count, as [$] stands in front of it. *)
Inductive power_ground_name : string → Prop :=
| PG_prefix (p tail : string) :
    Str.upper p ∈ ["GND"; "PGND"; "VSS"; "VCC"; "VDD"; "VEE"; "VBAT"] →
    tail = "" ∨ tail = Str.nl ∨ (∃ rest, tail = "_" +:+ rest) →
    power_ground_name (p +:+ tail)
| PG_rail (sign whole dot frac v tail : string) :
    sign ∈ [""; "+"] →
    Str.all_digits whole = true →
    dot ∈ [""; "."] →
    Str.all_digits frac = true →
    v ∈ ["V"; "v"] →
    whole ≠ "" ∨ (∃ d rest, tail = String d rest ∧ Chars.isdigit d = true) →
    power_ground_name (sign +:+ whole +:+ dot +:+ frac +:+ v +:+ tail)
| PG_suffix (body suffix last : string) :
    Str.forallb (λ c, negb (bool_decide (c = Chars.LF))) body = true →
    Str.upper suffix ∈ ["GND"; "VCC"; "VDD"] →
    last ∈ [""; Str.nl] →
    power_ground_name (body +:+ "_" +:+ suffix +:+ last).

(** What a pattern may consume: [denotes r pos u v] holds when, at offset
    [pos] of a subject that goes on with [u +:+ v], the text [u] is one of
    the texts [r] stands for. *)
Fixpoint denotes (r : Re.t) (pos : nat) (u v : string) : Prop :=
  match r with
  | Re.Eps => u = ""
  | Re.Bol => pos = 0 ∧ u = ""
  | Re.Eol => u = "" ∧ Re.at_eol v = true
  | Re.Atom a => ∃ c, u = String c "" ∧ Re.atom_ok a c = true
  | Re.Star a => Str.forallb (Re.atom_ok a) u = true
  | Re.Opt r1 => denotes r1 pos u v ∨ u = ""
  | Re.Cat r1 r2 =>
      ∃ u1 u2, u = u1 +:+ u2
        ∧ denotes r1 pos u1 (u2 +:+ v)
        ∧ denotes r2 (pos + String.length u1) u2 v
  | Re.Alt r1 r2 => denotes r1 pos u v ∨ denotes r2 pos u v
  end.

(** [accepts r pos u v]: at offset [pos] of a subject that goes on with
    [u +:+ v], the pattern [r] can consume exactly [u]. *)
Definition accepts (r : Re.t) (pos : nat) (u v : string) : Prop :=
  ∀ k, k (pos + String.length u) v = true → Re.run r pos (u +:+ v) k = true.

(** The Atlas of a list of nets: each net name with the pages of the last
    net of that name. *)
Definition atlas_of (ns : list Net) : gmap string (gset string) :=
  foldl (λ m net, <[net_name net := net_pages net]> m) ∅ ns.

(** The number of fetches among the recorded provider calls. *)
Definition fetch_count (cs : list provider_call) : nat :=
  length (filter (λ c, c = CallFetchRawData) cs).

Section Queries.

Context {P : Type}.

Implicit Types (l : @Librarian P).

(** The text [get_page] returns once the cache [l] is fresh. *)
Definition page_text l (page_name : string) : string :=
  match filter (λ c, page c = page_name) (components l) with
  | [] =>
      if existsb (λ net, bool_decide (page_name ∈ net_pages net)) (nets l)
      then page_dsl_of l []
      else page_not_found page_name
  | page_components => page_dsl_of l page_components
  end.

(** The locals of [get_context] for a cache [l] and a request. *)
Definition primary_refdes_set_of l (refdes_list : list string) : gset string :=
  list_to_set (map refdes (primary_components_of l refdes_list)).

Definition connected_of l (refdes_list : list string) : list Net :=
  connected_nets_of l (primary_refdes_set_of l refdes_list).

Definition context_refdes_of l (refdes_list : list string) : gset string :=
  primary_refdes_set_of l refdes_list
    ∪ neighbor_refdes_set_of (connected_of l refdes_list)
        (primary_refdes_set_of l refdes_list).

Definition neighbor_components_of l (refdes_list : list string) : list Component :=
  filter (λ c, is_passive c = false)
    (filter (λ c, refdes c ∈ neighbor_refdes_set_of (connected_of l refdes_list)
                               (primary_refdes_set_of l refdes_list))
            (components l)).

(** The per-query net views of [get_context]. *)
Definition context_views l (refdes_list : list string) : list Net :=
  context_nets_of (connected_of l refdes_list) (context_refdes_of l refdes_list).

(** The text [get_context] returns once the cache [l] is fresh. *)
Definition context_text l (refdes_list : list string) : string :=
  match refdes_list with
  | [] => "# CONTEXT: (empty)" +:+ Str.nl +:+ Str.nl
            +:+ "(No components specified for context)" +:+ Str.nl
  | _ :: _ =>
      match primary_components_of l refdes_list with
      | [] => "# CONTEXT: " +:+ Str.join ", " refdes_list +:+ Str.nl +:+ Str.nl
                +:+ "(Components not found in schematic)" +:+ Str.nl
      | primary_components =>
          emit_context_dsl primary_components
            (neighbor_components_of l refdes_list) (context_views l refdes_list)
      end
  end.

(** A view of a cached net: same name, same pages, the members restricted to
    the reference designators of the context. *)
Definition is_view_of (context_refdes : gset string) (view net : Net) : Prop :=
  net_name view = net_name net
  ∧ net_pages view = net_pages net
  ∧ members view = filter (λ m, m.1 ∈ context_refdes) (members net).

End Queries.

Section ErrorClauseAsWritten.

Context {P E : Type} `{!SchematicProvider P E}.

(** The first reading of the error clause: whatever a failed [refresh]
    raised, the cached components, nets and Atlas are the ones from before. *)
Definition keeps_cache_on_raise (w : @World P) : Prop :=
  ∀ (e : E) (w' : @World P),
    refresh w = (Raise e, w') →
    components (self w') = components (self w)
    ∧ nets (self w') = nets (self w)
    ∧ net_page_map (self w') = net_page_map (self w).

End ErrorClauseAsWritten.

(** * Sample data for the examples *)

(** The members (R1, 1), (R2, 1), ..., (Rn, 1). *)
Definition resistor_members (n : nat) : list (string * string) :=
  map (λ i, ("R" +:+ pretty i, "1")) (seq 1 n).

(** A ground net with 27 resistor pins on one page. *)
Definition gnd27 : Net := mkNet "GND" {["Main"]} (resistor_members 27).

(** A provider that replays a prepared sequence of fetches.  Each fetch
    loads the next revision of the source; a revision holds the components
    and, unless building the nets fails for it, the nets.  The getters raise
    before the first fetch, as the adapters do. *)
Record Revision : Type := mkRevision {
  rev_components : list Component;
  rev_nets : option (list Net)
}.

Record ScriptedProvider : Type := mkScripted {
  pending : list Revision;
  loaded : option Revision
}.

Global Instance scripted_provider : SchematicProvider ScriptedProvider string := {
  fetch_raw_data p :=
    match pending p with
    | [] => (Raise "source unreachable", p)
    | r :: rs => (Return (), mkScripted rs (Some r))
    end;
  get_components p :=
    match loaded p with
    | None => (Raise "Must call fetch_raw_data() before get_components()", p)
    | Some r => (Return (rev_components r), p)
    end;
  get_nets p :=
    match loaded p with
    | None => (Raise "Must call fetch_raw_data() before get_nets()", p)
    | Some r =>
        match rev_nets r with
        | Some ns => (Return ns, p)
        | None => (Raise "net extraction failed", p)
        end
    end
}.

(** A small two-page design: an MCU and its pull-up on page Main, a
    connector on page IO, and a net drawn on page Power that no component
    of the design sits on. *)
Definition u1 : Component :=
  mkComponent "U1" "STM32" "LQFP-48" "STM32F103" "Main" "MCU"
    [mkPin "1" "VDD" "3V3"; mkPin "2" "PA9_TX" "UART_TX"; mkPin "3" "VSS" "GND"]
    (0, 0)%Z ∅ None.

Definition r1 : Component :=
  mkComponent "R1" "10k" "0603" "" "Main" ""
    [mkPin "1" "" "3V3"; mkPin "2" "" "UART_TX"] (0, 0)%Z ∅ None.

Definition j1 : Component :=
  mkComponent "J1" "HDR" "PinHeader" "" "IO" "Header"
    [mkPin "1" "TX" "UART_TX"; mkPin "2" "GND" "GND"] (0, 0)%Z ∅ None.

Definition net_uart : Net :=
  mkNet "UART_TX" {["Main"; "IO"]} [("U1", "2"); ("R1", "2"); ("J1", "1")].

Definition net_3v3 : Net :=
  mkNet "3V3" {["Main"; "Power"]} [("U1", "1"); ("R1", "1")].

Definition net_gnd : Net :=
  mkNet "GND" {["Main"; "IO"]} [("U1", "3"); ("J1", "2")].

Definition rev_a : Revision :=
  mkRevision [u1; r1; j1] (Some [net_uart; net_3v3; net_gnd]).

(** A later revision with one more resistor whose nets cannot be built. *)
Definition r2 : Component :=
  mkComponent "R2" "4k7" "0603" "" "Main" ""
    [mkPin "1" "" "3V3"; mkPin "2" "" "GND"] (0, 0)%Z ∅ None.

Definition rev_b : Revision := mkRevision [u1; r1; r2; j1] None.

(** A new Librarian on a source that will serve [rev_a], then [rev_b]. *)
Definition fresh_world : @World ScriptedProvider :=
  mkWorld (Librarian_init (mkScripted [rev_a; rev_b] None)) [].

(** The same after a first query and a [mark_dirty]: the cache holds
    [rev_a] and is stale. *)
Definition stale_world : @World ScriptedProvider :=
  ((refresh ;; mark_dirty) fresh_world).2.

(** * The remaining queries of the Librarian ([librarian.py]) *)

(** [sub in s] on strings. *)
Fixpoint str_contains (sub s : string) : bool :=
  String.prefix sub s ||
  match s with
  | EmptyString => false
  | String _ s' => str_contains sub s'
  end.

(** [counts[key] = counts.get(key, 0) + 1] *)
Definition count_up (key : string) (counts : gmap string nat) : gmap string nat :=
  <[key := default 0 (counts !! key) + 1]> counts.

(** The dictionary [get_stats] returns; its keys are the field names. *)
Record Stats : Type := mkStats {
  total_components : nat;
  total_nets : nat;
  total_pages : nat;
  inter_page_nets : nat;
  global_nets : nat
}.

Section MoreQueries.

Context {P E : Type} `{!SchematicProvider P E}.

Implicit Types (l : @Librarian P).

(** The text [get_index] returns for a schematic without components and
    nets. *)
Definition empty_index : string :=
  "# SCHEMATIC INDEX" +:+ Str.nl +:+ Str.nl
    +:+ "(Empty schematic - no components or nets)" +:+ Str.nl.

(** The two counting loops of [get_index]. *)
Definition page_component_counts_of l : gmap string nat :=
  foldl (λ counts comp, count_up (page comp) counts) ∅ (components l).

Definition page_net_counts_of l : gmap string nat :=
  foldl (λ counts net,
           foldl (λ counts page0, count_up page0 counts) counts
                 (elements (net_pages net)))
        ∅ (nets l).

(** The line of one inter-page net in the index. *)
Definition index_signal_line (net : Net) : string :=
  if is_global net then
    if str_contains "GND" (Str.upper (net_name net))
       || str_contains "VSS" (Str.upper (net_name net))
    then "- " +:+ net_name net +:+ ": ALL_PAGES (Ground)"
    else "- " +:+ net_name net +:+ ": ALL_PAGES (Power Rail)"
  else
    let pages := sorted_str (elements (net_pages net)) in
    let pages_str := Str.join " ↔ " pages in
    "- " +:+ net_name net +:+ ": " +:+ pages_str.

(** The list [lines] of [get_index] for a schematic that is not empty. *)
Definition index_lines l : list string :=
  let lines := ["# SCHEMATIC INDEX"; ""] in
  let page_component_counts := page_component_counts_of l in
  let page_net_counts := page_net_counts_of l in
  let all_pages : gset string := dom page_component_counts ∪ dom page_net_counts in
  let lines := lines ++ ["## Pages"] in
  let lines :=
    if decide (all_pages = ∅) then lines ++ ["(No pages found)"]
    else
      lines ++
      map (λ page0,
             let comp_count := default 0 (page_component_counts !! page0) in
             let net_count := default 0 (page_net_counts !! page0) in
             "- " +:+ page0 +:+ " (" +:+ pretty comp_count +:+ " components, "
               +:+ pretty net_count +:+ " nets)")
          (sorted_str (elements all_pages)) in
  let lines := lines ++ [""] in
  let lines := lines ++ ["## Inter-Page Signals"] in
  let inter_page_nets0 := filter (λ net, is_inter_page net = true) (nets l) in
  match inter_page_nets0 with
  | [] => lines ++ ["(No inter-page signals)"]
  | _ :: _ =>
      let inter_page_nets0 := sorted_by_str net_name inter_page_nets0 in
      lines ++ map index_signal_line inter_page_nets0
  end.

(** [Librarian.get_index] *)
Definition get_index : M (E := E) string :=
  refresh ;;
  l ← read id;
  match components l, nets l with
  | [], [] => mret empty_index
  | _, _ => mret (Str.join Str.nl (index_lines l))
  end.

(** The set [pages] of [get_all_pages]. *)
Definition pages_of l : gset string :=
  let pages := foldl (λ pages comp, pages ∪ {[page comp]}) ∅ (components l) in
  foldl (λ pages net, pages ∪ net_pages net) pages (nets l).

(** [Librarian.get_all_pages] *)
Definition get_all_pages : M (E := E) (list string) :=
  refresh ;;
  l ← read id;
  mret (sorted_str (elements (pages_of l))).

(** [Librarian.get_component] *)
Definition get_component (refdes0 : string) : M (E := E) (option Component) :=
  refresh ;;
  l ← read id;
  mret (find (λ comp, bool_decide (refdes comp = refdes0)) (components l)).

(** [Librarian.get_net] *)
Definition get_net (net_name0 : string) : M (E := E) (option Net) :=
  refresh ;;
  l ← read id;
  mret (find (λ net, bool_decide (net_name net = net_name0)) (nets l)).

(** [Librarian.get_stats] *)
Definition get_stats : M (E := E) Stats :=
  refresh ;;
  l ← read id;
  let total_components0 := length (components l) in
  let total_nets0 := length (nets l) in
  all_pages ← get_all_pages;
  l' ← read id;
  mret (mkStats total_components0 total_nets0 (length all_pages)
          (length (filter (λ net, is_inter_page net = true) (nets l')))
          (length (filter (λ net, is_global net = true) (nets l')))).

End MoreQueries.

Section QueryNotions.

Context {P E : Type} `{!SchematicProvider P E}.

Implicit Types (l : @Librarian P).

(** Counting by hand: the components on a page, the nets that list it. *)
Definition components_on l (page0 : string) : nat :=
  length (filter (λ c, page c = page0) (components l)).

Definition nets_on l (page0 : string) : nat :=
  length (filter (λ net, page0 ∈ net_pages net) (nets l)).

(** The pages that carry a component or are listed by a net. *)
Definition known_page l (page0 : string) : Prop :=
  (∃ c, c ∈ components l ∧ page c = page0)
  ∨ (∃ net, net ∈ nets l ∧ page0 ∈ net_pages net).

(** The line of one page in the index, with the counts taken by hand. *)
Definition index_page_line l (page0 : string) : string :=
  "- " +:+ page0 +:+ " (" +:+ pretty (components_on l page0) +:+ " components, "
    +:+ pretty (nets_on l page0) +:+ " nets)".

(** The index of a schematic that is not empty, section by section. *)
Definition index_sections l : list string :=
  ["# SCHEMATIC INDEX"; ""; "## Pages"]
  ++ (if decide (pages_of l = ∅) then ["(No pages found)"]
      else map (index_page_line l) (sorted_str (elements (pages_of l))))
  ++ [""; "## Inter-Page Signals"]
  ++ (match filter (λ net, is_inter_page net = true) (nets l) with
      | [] => ["(No inter-page signals)"]
      | inter => map index_signal_line (sorted_by_str net_name inter)
      end).

(** The Atlas agrees with the cached nets. *)
Definition atlas_current l : Prop := net_page_map l = atlas_of (nets l).

End QueryNotions.

(** * The emitter's output, line by line *)

(** The line of a pin in a component block. *)
Definition pin_line (pin : Pin) : string :=
  if Str.truthy (pin_name pin)
  then "    " +:+ designator pin +:+ ": " +:+ pin_name pin
  else "    " +:+ designator pin +:+ ":".


(** The lines of a context bubble. *)
Definition context_lines (primary_components neighbor_components : list Component)
    (nets : list Net) : list string :=
  let sorted_primary := sorted_by_str refdes primary_components in
  let sorted_neighbors := sorted_by_str refdes neighbor_components in
  ["# CONTEXT: " +:+ Str.join ", " (map refdes sorted_primary); ""; "# COMPONENTS"]
  ++ concat (map component_block_lines
               (filter (λ c, is_complex c = true) sorted_primary))
  ++ [""]
  ++ match sorted_neighbors with
     | [] => []
     | _ :: _ => ["# CONTEXT_NEIGHBORS"]
                 ++ map _format_neighbor_summary sorted_neighbors ++ [""]
     end
  ++ ["# NETS"]
  ++ concat (map (λ net, net_block_lines net (net_pages net)
                           (sorted_primary ++ sorted_neighbors))
                 (sorted_by_str net_name nets)).

(** The first character of a designator is not a digit. *)
Definition starts_without_digit (s : string) : Prop :=
  match s with
  | EmptyString => False
  | String c _ => Chars.isdigit c = false
  end.

(** * The MCP tools ([tools/schematic_dsl_tools.py]) *)

(** [if arg:] on an optional string: given and not empty. *)
Definition given (arg : option string) : bool :=
  match arg with
  | Some s => Str.truthy s
  | None => false
  end.

Section Tools.

Context {P E : Type} `{!SchematicProvider P E}.

(** The constructor of the adapter class the tools use, seen through the
    provider contract; it stores the path and reads nothing. *)
Variable KiCADSchematicAdapter : string → P.

(** [str(e)] *)
Variable str : E → string.

(** [list(set(...))]: the members of a set in the order of iteration, which
    the language leaves open. *)
Variable list_of_set : gset string → list string.

(** The frame shared by the three tools,

      try:
          adapter = KiCADSchematicAdapter(project_path)
          librarian = Librarian(adapter)
          return body
      except Exception as e:
          return on_error(str(e))

    The result is the text returned, with the Librarian and the record of
    provider calls at the end of the run. *)
Definition try_tool (project_path : string) (body : M (E := E) string)
    (on_error : string → string) : string * @World P :=
  let adapter := KiCADSchematicAdapter project_path in
  let librarian := Librarian_init adapter in
  match body (mkWorld librarian []) with
  | (Return text, w) => (text, w)
  | (Raise e, w) => (on_error (str e), w)
  end.

Definition index_error (msg : string) : string :=
  "Error generating schematic index: " +:+ msg +:+ Str.nl +:+ Str.nl
    +:+ "Please check that the project path contains .kicad_sch files.".

Definition page_error (msg : string) : string :=
  "Error generating schematic page DSL: " +:+ msg +:+ Str.nl +:+ Str.nl
    +:+ "Available pages: Use get_schematic_index to see all pages.".

Definition context_error (msg : string) : string :=
  "Error generating schematic context: " +:+ msg.

Definition net_not_found (net_name0 : string) : string :=
  "Error: Net '" +:+ net_name0 +:+ "' not found in schematic".

Definition no_argument : string :=
  "Error: Please specify either component_ref or net_name".

(** [get_schematic_index] *)
Definition get_schematic_index (project_path : string) : string * @World P :=
  try_tool project_path get_index index_error.

(** [get_schematic_page] *)
Definition get_schematic_page (project_path page_name : string)
    : string * @World P :=
  try_tool project_path (get_page page_name) page_error.

(** [get_schematic_context] *)
Definition get_schematic_context (project_path : string)
    (component_ref net_name0 : option string) : string * @World P :=
  try_tool project_path
    (if given component_ref then
       get_context [default "" component_ref]
     else if given net_name0 then
       let net_name0 := default "" net_name0 in
       refresh ;;
       net ← get_net net_name0;
       match net with
       | None => mret (net_not_found net_name0)
       | Some net =>
           let connected_components :=
             list_of_set (list_to_set (map fst (members net))) in
           get_context connected_components
       end
     else mret no_argument)
    context_error.

End Tools.

Section ToolNotions.

Context {P E : Type} `{!SchematicProvider P E}.

(** What the provider built for a path does when a new Librarian refreshes
    from it. *)
Definition first_refresh (adapter : string → P) (project_path : string)
    : outcome E () * @World P :=
  refresh (mkWorld (Librarian_init (adapter project_path)) []).

(** Every pin the cache holds has a designator whose sort key exists, so
    that the emitter does not raise on a component block. *)
Definition sortable_pins (l : @Librarian P) : Prop :=
  ∀ c pin, c ∈ components l → pin ∈ pins c → sortable (designator pin).

(** The provider raises during that refresh. *)
Definition provider_raises (adapter : string → P) (project_path : string) : Prop :=
  ∃ e w1, first_refresh adapter project_path = (Raise e, w1).

(** The text [get_index] returns for a cache [l]. *)
Definition index_text (l : @Librarian P) : string :=
  match components l, nets l with
  | [], [] => empty_index
  | _, _ => Str.join Str.nl (index_lines l)
  end.

(** The text of the net mode of [get_schematic_context] for a cache [l]:
    the context of the components on the first cached net of that name, asked
    for in the order [order] iterates over their set. *)
Definition net_mode_text (order : gset string → list string) (l : @Librarian P)
    (net_name0 : string) : string :=
  match find (λ net, bool_decide (net_name net = net_name0)) (nets l) with
  | None => net_not_found net_name0
  | Some net => context_text l (order (list_to_set (map fst (members net))))
  end.


(** The three provider methods, in the order [refresh] calls them. *)
Definition full_fetch : list provider_call :=
  [CallFetchRawData; CallGetComponents; CallGetNets].

End ToolNotions.

(** * The Altium adapter ([adapters/altium_json.py]) *)

(** The dictionary [nets_dict] of [get_nets] keeps its entries in the order
    of insertion; an entry holds a name, a set of pages and a list of
    members, as a [Net] does, and is keyed by its name.  One turn of the
    inner loop: make the entry if the name is new, then add the member and
    the page to it. *)
Fixpoint add_member (net_name0 page_name : string) (member : string * string)
    (nets_dict : list Net) : list Net :=
  match nets_dict with
  | [] => [mkNet net_name0 (∅ ∪ {[page_name]}) ([] ++ [member])]
  | entry :: rest =>
      if decide (net_name entry = net_name0)
      then mkNet (net_name entry) (net_pages entry ∪ {[page_name]})
             (members entry ++ [member]) :: rest
      else entry :: add_member net_name0 page_name member rest
  end.

(** [if not net_name: net_name = "NC"] *)
Definition nc_if_empty (net_name0 : string) : string :=
  if Str.truthy net_name0 then net_name0 else "NC".

Module AltiumJSON.

(** The exceptions of the adapter.  [TypeError] stands for what Python
    raises when the decoded data is indexed against its shape, which no
    state the methods produce gets to. *)
Inductive Error : Type :=
| ValueError (msg : string)
| RuntimeError (msg : string)
| TypeError (msg : string).

(** The decoded JSON as far as the adapter reads it.  Every key of an object
    may be absent; the values present are taken to have the types of the
    format the module documents (strings, numbers for the coordinates, an
    object of strings for the parameters, an array of pin objects). *)
Record PinData : Type := mkPinData {
  pd_name : option string;                        (* key [name] *)
  pd_net : option string                          (* key [net] *)
}.

Record ComponentData : Type := mkComponentData {
  cd_designator : option string;
  cd_sheet : option string;
  cd_description : option string;
  cd_footprint : option string;
  cd_schematic_x : option Z;
  cd_schematic_y : option Z;
  cd_parameters : option (gmap string string);
  cd_pins : option (list PinData)
}.

(** The value under the key [components], and the root. *)
Inductive ComponentsValue : Type :=
| ComponentsArray (items : list ComponentData)
| ComponentsOther.

Inductive Root : Type :=
| RootObject (components : option ComponentsValue)
| RootOther.

(** What [json.loads] makes of a text. *)
Inductive Decoded : Type :=
| Json (root : Root)
| JSONDecodeError (msg : string).

(** The attributes of an [AltiumJSONAdapter].  The JSON text is held by its
    decoding. *)
Record Adapter : Type := mkAdapter {
  _raw_json : Decoded;
  _parsed_data : option Root;
  _ready : bool
}.

(** [AltiumJSONAdapter.__init__] *)
Definition init (json_data : Decoded) : Adapter := mkAdapter json_data None false.

(** [AltiumJSONAdapter.fetch_raw_data] *)
Definition fetch_raw_data (self : Adapter) : outcome Error () * Adapter :=
  match _raw_json self with
  | JSONDecodeError e =>
      (Raise (ValueError ("Invalid JSON format: " +:+ e)), self)
  | Json root =>
      let self := mkAdapter (_raw_json self) (Some root) (_ready self) in
      match root with
      | RootOther =>
          (Raise (ValueError "JSON root must be an object/dictionary"), self)
      | RootObject components =>
          let components :=
            match components with
            | None => ComponentsArray []
            | Some v => v
            end in
          let self :=
            mkAdapter (_raw_json self) (Some (RootObject (Some components)))
              (_ready self) in
          match components with
          | ComponentsOther =>
              (Raise (ValueError "'components' must be an array"), self)
          | ComponentsArray _ =>
              (Return (), mkAdapter (_raw_json self) (_parsed_data self) true)
          end
      end
  end.

(** [AltiumJSONAdapter._is_semantic_pin_name] *)
Definition _is_semantic_pin_name (pin_name0 : string) : bool :=
  if negb (Str.truthy pin_name0) then false
  else if Str.isdigit pin_name0 then false
  else if bool_decide (pin_name0 ∈ ["A"; "K"]) then false
  else true.

(** [AltiumJSONAdapter._transform_pins] *)
Definition _transform_pins (pins_data : list PinData) : list Pin :=
  map (λ pin_data,
         let pin_designator := default "" (pd_name pin_data) in
         let net_name0 := default "" (pd_net pin_data) in
         let net_name0 := nc_if_empty net_name0 in
         let pin_name0 :=
           if _is_semantic_pin_name pin_designator then pin_designator else "" in
         mkPin pin_designator pin_name0 net_name0)
      pins_data.

(** [AltiumJSONAdapter._get_component_value] *)
Definition _get_component_value (comp_data : ComponentData) : string :=
  let parameters := default ∅ (cd_parameters comp_data) in
  let comment := default "" (parameters !! "Comment") in
  if Str.truthy comment then comment
  else
    let pn := default "" (parameters !! "PN") in
    if Str.truthy pn then pn else "".

Section Platform.

(** [os.path.basename], which depends on the platform. *)
Variable basename : string → string.

(** [AltiumJSONAdapter._extract_filename] *)
Definition _extract_filename (full_path : string) : string :=
  if negb (Str.truthy full_path) then ""
  else basename full_path.

(** [AltiumJSONAdapter._transform_component].  On a component object of
    the documented shape, which is what a [ComponentData] is, the missing
    designator is its one failure. *)
Definition _transform_component (comp_data : ComponentData)
    : outcome Error Component :=
  let refdes0 := default "" (cd_designator comp_data) in
  if negb (Str.truthy refdes0)
  then Raise (ValueError "Component missing required 'designator' field")
  else
    let parameters := default ∅ (cd_parameters comp_data) in
    let value0 := _get_component_value comp_data in
    let footprint0 := default "" (cd_footprint comp_data) in
    let mpn0 := default "" (parameters !! "PN") in
    let sheet := default "" (cd_sheet comp_data) in
    let page0 := _extract_filename sheet in
    let description0 := default "" (cd_description comp_data) in
    let x := default 0%Z (cd_schematic_x comp_data) in
    let y := default 0%Z (cd_schematic_y comp_data) in
    let location0 := (x, y) in
    let pins0 := _transform_pins (default [] (cd_pins comp_data)) in
    let properties0 : gmap string string :=
      filter (λ kv, kv.1 ∉ ["PN"; "Comment"]) parameters in
    Return (mkComponent refdes0 value0 footprint0 mpn0 page0 description0 pins0
              location0 properties0 None).

(** The loop of [get_components]: a component whose transformation raises
    is reported on the console and left out. *)
Definition transform_all (items : list ComponentData) : list Component :=
  foldl (λ components0 comp_data,
           match _transform_component comp_data with
           | Return component => components0 ++ [component]
           | Raise _ => components0
           end)
        [] items.

(** The loops of [get_nets], on component objects of the documented
    shape. *)
Definition collect_nets (items : list ComponentData) : list Net :=
  foldl (λ nets_dict comp_data,
           let designator0 := default "" (cd_designator comp_data) in
           let sheet := default "" (cd_sheet comp_data) in
           let page_name := _extract_filename sheet in
           let pins0 := default [] (cd_pins comp_data) in
           foldl (λ nets_dict pin_data,
                    let net_name0 := default "" (pd_net pin_data) in
                    let net_name0 := nc_if_empty net_name0 in
                    let pin_designator := default "" (pd_name pin_data) in
                    add_member net_name0 page_name (designator0, pin_designator)
                      nets_dict)
                 nets_dict pins0)
        [] items.

(** The check at the head of both getters, and the array they loop over. *)
Definition with_components {A : Type} (what : string)
    (f : list ComponentData → A) (self : Adapter) : outcome Error A * Adapter :=
  match _ready self, _parsed_data self with
  | false, _ | _, None =>
      (Raise (RuntimeError ("Must call fetch_raw_data() before " +:+ what)), self)
  | true, Some (RootObject (Some (ComponentsArray items))) => (Return (f items), self)
  | true, Some _ => (Raise (TypeError "components"), self)
  end.

(** [AltiumJSONAdapter.get_components] *)
Definition get_components : Adapter → outcome Error (list Component) * Adapter :=
  with_components "get_components()" transform_all.

(** [AltiumJSONAdapter.get_nets] *)
Definition get_nets : Adapter → outcome Error (list Net) * Adapter :=
  with_components "get_nets()" collect_nets.

End Platform.

End AltiumJSON.

(** The adapter is a provider. *)
Definition altium_provider (basename : string → string)
    : SchematicProvider AltiumJSON.Adapter AltiumJSON.Error :=
  {| fetch_raw_data := AltiumJSON.fetch_raw_data;
     get_components := AltiumJSON.get_components basename;
     get_nets := AltiumJSON.get_nets basename |}.

Section AltiumNotions.

Variable basename : string → string.

(** The pins of a design as [get_nets] meets them: the net a pin joins, the
    page of its component, and the member it becomes. *)
Definition connections (items : list AltiumJSON.ComponentData)
    : list (string * string * (string * string)) :=
  flat_map (λ comp_data,
              map (λ pin_data,
                     (nc_if_empty (default "" (AltiumJSON.pd_net pin_data)),
                      AltiumJSON._extract_filename basename
                        (default "" (AltiumJSON.cd_sheet comp_data)),
                      (default "" (AltiumJSON.cd_designator comp_data),
                       default "" (AltiumJSON.pd_name pin_data))))
                  (default [] (AltiumJSON.cd_pins comp_data)))
           items.

End AltiumNotions.

(** The dictionary after the connections [conns], met in this order. *)
Definition nets_after (conns : list (string * string * (string * string)))
    : list Net :=
  foldl (λ nets_dict conn, add_member conn.1.1 conn.1.2 conn.2 nets_dict) [] conns.

(** The array of components a decoded text holds, if it has the shape
    [fetch_raw_data] accepts; a missing key counts as an empty array. *)
Definition design_of (json_data : AltiumJSON.Decoded)
    : option (list AltiumJSON.ComponentData) :=
  match json_data with
  | AltiumJSON.Json (AltiumJSON.RootObject None) => Some []
  | AltiumJSON.Json (AltiumJSON.RootObject (Some (AltiumJSON.ComponentsArray items))) =>
      Some items
  | _ => None
  end.

(** A new Librarian on a new adapter for a decoded text. *)
Definition altium_world (json_data : AltiumJSON.Decoded)
    : @World AltiumJSON.Adapter :=
  mkWorld (Librarian_init (AltiumJSON.init json_data)) [].

(** The connections that join a net, and the net they make. *)
Definition joining (net_name0 : string)
    (conns : list (string * string * (string * string)))
    : list (string * string * (string * string)) :=
  filter (λ conn, conn.1.1 = net_name0) conns.

Definition net_of_connections (net_name0 : string)
    (conns : list (string * string * (string * string))) : Net :=
  mkNet net_name0 (list_to_set (map (λ conn, conn.1.2) (joining net_name0 conns)))
    (map snd (joining net_name0 conns)).

(** * The nets of the KiCad adapter ([adapters/kicad_sch.py]) *)

Module KiCADSch.

Inductive Error : Type :=
| RuntimeError (msg : string).

(** The attributes [get_nets] reads.  [_parsed_sheets] maps the name of a
    sheet to its parsed data, of which [get_nets] reads only the keys of the
    [components] dictionary, the reference designators on the sheet;
    [_pcb_netlist] maps a reference designator to its pads and the net of
    each.  A dictionary is the list of its entries in the order of
    insertion. *)
Record Adapter : Type := mkAdapter {
  _parsed_sheets : list (string * list string);
  _pcb_netlist : list (string * list (string * string));
  _ready : bool
}.

(** The dictionary [comp_to_page] of [get_nets]. *)
Definition comp_to_page_of (parsed_sheets : list (string * list string))
    : gmap string string :=
  foldl (λ comp_to_page sheet,
           foldl (λ comp_to_page comp_ref, <[comp_ref := sheet.1]> comp_to_page)
                 comp_to_page sheet.2)
        ∅ parsed_sheets.

(** The loops of [get_nets] over the PCB netlist. *)
Definition collect_nets (parsed_sheets : list (string * list string))
    (pcb_netlist : list (string * list (string * string))) : list Net :=
  let comp_to_page := comp_to_page_of parsed_sheets in
  foldl (λ nets_dict entry,
           let comp_ref := entry.1 in
           let page0 := default "unknown" (comp_to_page !! comp_ref) in
           foldl (λ nets_dict pad,
                    let pin_num := pad.1 in
                    let net_name0 := nc_if_empty pad.2 in
                    add_member net_name0 page0 (comp_ref, pin_num) nets_dict)
                 nets_dict entry.2)
        [] pcb_netlist.

(** [KiCADSchematicAdapter.get_nets] *)
Definition get_nets (self : Adapter) : outcome Error (list Net) * Adapter :=
  if negb (_ready self)
  then (Raise (RuntimeError "Must call fetch_raw_data() before get_nets()"), self)
  else (Return (collect_nets (_parsed_sheets self) (_pcb_netlist self)), self).

End KiCADSch.

(** The sheet a reference designator is counted on: the last sheet that
    lists it, or "unknown". *)
Definition sheet_of (parsed_sheets : list (string * list string))
    (comp_ref : string) : string :=
  match last (filter (λ sheet, comp_ref ∈ sheet.2) parsed_sheets) with
  | Some sheet => sheet.1
  | None => "unknown"
  end.

(** The pads of the board as [get_nets] meets them. *)
Definition pad_connections (parsed_sheets : list (string * list string))
    (pcb_netlist : list (string * list (string * string)))
    : list (string * string * (string * string)) :=
  flat_map (λ entry,
              map (λ pad, (nc_if_empty pad.2, sheet_of parsed_sheets entry.1,
                           (entry.1, pad.1)))
                  entry.2)
           pcb_netlist.

(** * More sample data *)

(** The sample Librarian after its first refresh. *)
Definition served_world : @World ScriptedProvider := (refresh fresh_world).2.

(** A new Librarian on a source that holds an empty design. *)
Definition empty_world : @World ScriptedProvider :=
  mkWorld (Librarian_init (mkScripted [mkRevision [] (Some [])] None)) [].

(** A project directory that holds the sample design; any other path is
    unreachable. *)
Definition sample_adapter (project_path : string) : ScriptedProvider :=
  if decide (project_path = "demo") then mkScripted [rev_a; rev_b] None
  else mkScripted [] None.

(** [os.path.basename] on a POSIX platform: what follows the last slash. *)
Fixpoint posix_basename_from (current path : string) : string :=
  match path with
  | EmptyString => current
  | String c path' =>
      if Ascii.eqb c "/" then posix_basename_from "" path'
      else posix_basename_from (current +:+ String c "") path'
  end.

Definition posix_basename (path : string) : string := posix_basename_from "" path.

(** A small Altium export: an MCU and a resistor on one sheet, and a
    component that lost its designator. *)
Definition altium_pin (name net : string) : AltiumJSON.PinData :=
  AltiumJSON.mkPinData (Some name) (Some net).

Definition altium_u1 : AltiumJSON.ComponentData :=
  AltiumJSON.mkComponentData (Some "U1") (Some "/proj/Main.SchDoc") (Some "MCU")
    (Some "LQFP-48") (Some 100%Z) (Some 200%Z)
    (Some (<["Comment" := "STM32"]> (<["PN" := "STM32F103"]> (<["MFG" := "ST"]> ∅))))
    (Some [altium_pin "1" "3V3"; altium_pin "PA9_TX" "UART_TX"; altium_pin "3" ""]).

Definition altium_r1 : AltiumJSON.ComponentData :=
  AltiumJSON.mkComponentData (Some "R1") (Some "/proj/Main.SchDoc") None
    (Some "0603") None None (Some (<["Comment" := "10k"]> ∅))
    (Some [altium_pin "1" "3V3"; altium_pin "2" "UART_TX"]).

Definition altium_nameless : AltiumJSON.ComponentData :=
  AltiumJSON.mkComponentData None (Some "/proj/IO.SchDoc") None None None None None
    (Some [altium_pin "1" "UART_TX"]).

Definition altium_items : list AltiumJSON.ComponentData :=
  [altium_u1; altium_r1; altium_nameless].

Definition altium_json : AltiumJSON.Decoded :=
  AltiumJSON.Json (AltiumJSON.RootObject (Some (AltiumJSON.ComponentsArray altium_items))).

(** What the adapter makes of the two components that kept their
    designator. *)
Definition altium_u1_component : Component :=
  mkComponent "U1" "STM32" "LQFP-48" "STM32F103" "Main.SchDoc" "MCU"
    [mkPin "1" "" "3V3"; mkPin "PA9_TX" "PA9_TX" "UART_TX"; mkPin "3" "" "NC"]
    (100, 200)%Z (<["MFG" := "ST"]> ∅) None.

Definition altium_r1_component : Component :=
  mkComponent "R1" "10k" "0603" "" "Main.SchDoc" ""
    [mkPin "1" "" "3V3"; mkPin "2" "" "UART_TX"] (0, 0)%Z ∅ None.

(** * Part II: properties *)

(** * Facts about the stable sort *)

Section StableSortFacts.

Context {A : Type} (le : A → A → bool).

Lemma insert_sorted_perm x l : insert_sorted le x l ≡ₚ x :: l.
Proof.
  induction l as [|y l IH]; simpl; [done|].
  destruct (le x y); [done|].
  rewrite IH. apply perm_swap.
Qed.

Lemma stable_sort_perm l : stable_sort le l ≡ₚ l.
Proof.
  induction l as [|x l IH]; simpl; [done|].
  by rewrite insert_sorted_perm, IH.
Qed.

Lemma stable_sort_length l : length (stable_sort le l) = length l.
Proof. by rewrite stable_sort_perm. Qed.

Lemma stable_sort_elem_of x l : x ∈ stable_sort le l ↔ x ∈ l.
Proof. by rewrite stable_sort_perm. Qed.

(** The sort is stable: elements that the order does not tell apart come
    out in the order they came in. *)
Lemma insert_sorted_filter (p : A → Prop) `{!∀ x, Decision (p x)} x l :
  (∀ y, p x → p y → le x y = true) →
  filter p (insert_sorted le x l) = filter p (x :: l).
Proof.
  intros Hp. induction l as [|y l IH]; simpl; [done|].
  destruct (le x y) eqn:Hxy; [done|].
  rewrite (filter_cons _ y), IH, !filter_cons.
  destruct (decide (p x)) as [Hx|Hx], (decide (p y)) as [Hy|Hy]; try done.
  by rewrite (Hp y Hx Hy) in Hxy.
Qed.

Lemma stable_sort_stable (p : A → Prop) `{!∀ x, Decision (p x)} l :
  (∀ x y, p x → p y → le x y = true) →
  filter p (stable_sort le l) = filter p l.
Proof.
  intros Hp. induction l as [|x l IH]; simpl; [done|].
  rewrite insert_sorted_filter by (intros y; apply Hp).
  by rewrite !filter_cons, IH.
Qed.

(** Whenever [x] may not stay in front of [y], [y] may stay in front of
    [x]: enough for the output to be ordered pairwise along the list. *)
Hypothesis le_total : ∀ x y, le x y = false → le y x = true.

Lemma insert_sorted_Sorted x l :
  Sorted (λ a b, le a b = true) l → Sorted (λ a b, le a b = true) (insert_sorted le x l).
Proof.
  induction 1 as [|y l Hl IH Hhd]; simpl.
  - repeat constructor.
  - destruct (le x y) eqn:Hxy.
    + constructor; [by constructor|]. by constructor.
    + constructor; [done|].
      destruct Hhd as [|z l Hyz]; simpl.
      * constructor. by apply le_total.
      * destruct (le x z); constructor; [by apply le_total|done].
Qed.

Lemma stable_sort_Sorted l : Sorted (λ a b, le a b = true) (stable_sort le l).
Proof.
  induction l as [|x l IH]; simpl; [constructor|].
  by apply insert_sorted_Sorted.
Qed.

(** With a transitive order every element is below all the later ones. *)
Hypothesis le_trans : ∀ x y z, le x y = true → le y z = true → le x z = true.

Lemma stable_sort_StronglySorted l :
  StronglySorted (λ a b, le a b = true) (stable_sort le l).
Proof.
  apply Sorted_StronglySorted; [|apply stable_sort_Sorted].
  intros x y z. apply le_trans.
Qed.

End StableSortFacts.

(** The string order is a total order. *)
Lemma string_leb_total (s t : string) : String.leb s t = false → String.leb t s = true.
Proof.
  intros Hst. destruct (String.leb_total s t) as [H|H]; [congruence|done].
Qed.

Lemma string_leb_trans (s t u : string) :
  String.leb s t = true → String.leb t u = true → String.leb s u = true.
Proof.
  intros H1 H2.
  assert (String.le s u) as H; [|by apply Is_true_true_1 in H].
  transitivity t; by apply Is_true_true_2.
Qed.

Lemma sorted_str_perm l : sorted_str l ≡ₚ l.
Proof. apply stable_sort_perm. Qed.

Lemma sorted_str_StronglySorted l :
  StronglySorted (λ a b, String.leb a b = true) (sorted_str l).
Proof.
  apply stable_sort_StronglySorted; [apply string_leb_total|apply string_leb_trans].
Qed.

(** Membership in a list that is written out. *)
Ltac in_list := solve [ repeat first [ by left | right ] ].

(** * Strings *)

Lemma str_app_cons (c : ascii) (s t : string) :
  String c s +:+ t = String c (s +:+ t).
Proof. reflexivity. Qed.

Lemma str_app_nil_r (s : string) : s +:+ "" = s.
Proof. induction s as [|c s IH]; [done|]. by rewrite str_app_cons, IH. Qed.

Lemma str_app_assoc (s t u : string) : (s +:+ t) +:+ u = s +:+ t +:+ u.
Proof. induction s as [|c s IH]; [done|]. by rewrite !str_app_cons, IH. Qed.

Lemma str_app_length (s t : string) :
  String.length (s +:+ t) = String.length s + String.length t.
Proof. induction s as [|c s IH]; [done|]. rewrite str_app_cons. simpl. by rewrite IH. Qed.

Lemma str_truthy_ne (s : string) : Str.truthy s = true ↔ s ≠ "".
Proof. by destruct s. Qed.

(** * Component classification *)

(** The loop of [derived_type] returns the longest alphabetic prefix. *)
Lemma alpha_prefix_spec (s : string) :
  ∃ rest, s = alpha_prefix s +:+ rest
    ∧ Forall (λ c, Chars.isalpha c = true) (String.list_ascii_of_string (alpha_prefix s))
    ∧ match rest with
      | EmptyString => True
      | String c _ => Chars.isalpha c = false
      end.
Proof.
  induction s as [|c s (rest & Hs & Hall & Hrest)]; simpl.
  - by exists "".
  - destruct (Chars.isalpha c) eqn:Hc.
    + exists rest. simpl. split_and!; [|by constructor|done].
      change (String c s = String c (alpha_prefix s +:+ rest)). congruence.
    + exists (String c s). by split_and!.
Qed.

Lemma derived_type_table (c : Component) :
  derived_type c = table_type (Str.upper (alpha_prefix (refdes c))).
Proof.
  unfold derived_type, table_type. cbv zeta.
  generalize (Str.upper (alpha_prefix (refdes c))). intros s.
  repeat match goal with
  | |- context [decide (s = ?l)] =>
      destruct (decide (s = l)) as [->|?]; [by vm_compute|]
  | |- context [decide (s ∈ ?l)] =>
      destruct (decide (s ∈ l)) as [Hin|?];
      [set_unfold in Hin; destruct_or!; subst; by vm_compute|]
  end.
  unfold prefix_table. simpl find.
  repeat (rewrite bool_decide_eq_false_2 by set_solver).
  done.
Qed.

Lemma alpha_prefix_letters (s : string) :
  Str.forallb Chars.isalpha (alpha_prefix s) = true.
Proof.
  induction s as [|c s IH]; simpl; [done|].
  destruct (Chars.isalpha c) eqn:Hc; [|done]. simpl. by rewrite Hc.
Qed.

Lemma code_ascii_of_N (n : N) : (n < 256)%N → Chars.code (ascii_of_N n) = n.
Proof. intros Hn. unfold Chars.code. by apply N_ascii_embedding. Qed.

Lemma code_lt_256 (c : ascii) : (Chars.code c < 256)%N.
Proof. unfold Chars.code. apply N_ascii_bounded. Qed.

Lemma code_inj (a b : ascii) : Chars.code a = Chars.code b → a = b.
Proof.
  unfold Chars.code. intros Heq.
  by rewrite <- (ascii_N_embedding a), <- (ascii_N_embedding b), Heq.
Qed.

Lemma in_range_spec (lo hi : N) (c : ascii) :
  Chars.in_range lo hi c = true ↔ (lo ≤ Chars.code c ≤ hi)%N.
Proof.
  unfold Chars.in_range. rewrite andb_true_iff, !N.leb_le. done.
Qed.

Lemma in_range_false (lo hi : N) (c : ascii) :
  Chars.in_range lo hi c = false ↔ (Chars.code c < lo ∨ hi < Chars.code c)%N.
Proof.
  unfold Chars.in_range. rewrite andb_false_iff, !N.leb_gt. done.
Qed.

(** Upper-casing a character gives an upper-case letter exactly for that
    letter in either case. *)
Lemma upper_same_letter (a b : ascii) :
  Chars.is_upper b = true →
  Chars.upper a = b ↔ same_letter a b.
Proof.
  intros Hb. pose proof Hb as Hbr%in_range_spec.
  pose proof (code_lt_256 a) as Ha256.
  assert (Chars.isalpha b = true) as Hbalpha.
  { unfold Chars.isalpha. by rewrite Hb. }
  unfold Chars.upper, same_letter.
  destruct (Chars.is_lower a) eqn:Hlower.
  - assert (Chars.isalpha a = true) as Haalpha.
    { unfold Chars.isalpha. by rewrite Hlower, orb_true_r. }
    apply in_range_spec in Hlower. split.
    + intros Heq. right. split; [done|]. split; [done|]. left.
      rewrite <- Heq, code_ascii_of_N by lia. lia.
    + intros [->|(_ & _ & Hcode)]; [lia|].
      apply code_inj. rewrite code_ascii_of_N by lia. lia.
  - split; [by left|].
    intros [->|(Ha & _ & Hcode)]; [done|].
    unfold Chars.isalpha in Ha. rewrite Hlower, orb_false_r in Ha.
    apply in_range_spec in Ha. lia.
Qed.

Lemma upper_caseless (p q : string) :
  Str.forallb Chars.is_upper q = true →
  Str.upper p = q ↔ caseless_eq p q.
Proof.
  revert q. induction p as [|a p IH]; intros [|b q]; simpl; try done.
  intros [Hb Hq]%andb_true_iff. rewrite <- (IH q Hq), <- (upper_same_letter a b Hb).
  split; [by intros [= ? ?]|by intros [-> ->]].
Qed.

Lemma prefix_table_upper :
  Forall (λ entry, Str.forallb Chars.is_upper entry.1 = true) prefix_table.
Proof. repeat constructor. Qed.

Lemma table_type_entry (entry : string * string) :
  entry ∈ prefix_table → table_type entry.1 = entry.2.
Proof.
  unfold prefix_table. intros Hin.
  repeat (apply elem_of_cons in Hin as [->|Hin]; [done|]).
  by apply elem_of_nil in Hin.
Qed.

Lemma table_type_other (p : string) :
  (∀ entry, entry ∈ prefix_table → entry.1 ≠ p) → table_type p = "ACTIVE".
Proof.
  intros Hnone. unfold table_type.
  destruct (find _ prefix_table) as [entry|] eqn:Hfind; [|done].
  apply find_some in Hfind as [Hin Heq]. apply bool_decide_eq_true in Heq.
  apply list_elem_of_In in Hin. by destruct (Hnone entry Hin).
Qed.

(** C8: for a reference designator in ASCII, [derived_type] takes its
    leading run of letters, the longest there is, and answers with the
    category the prefix table has for these letters read in either case,
    ACTIVE when the table has none; [is_passive] holds exactly for the types
    RES, CAP, IND and FUSE; so a component whose prefix is "R" or "r" is a
    RES and is passive. *)
Theorem derived_type_prefix_table (c : Component) :
  Str.isascii (refdes c) = true →
  (∃ rest, refdes c = alpha_prefix (refdes c) +:+ rest
     ∧ Str.forallb Chars.isalpha (alpha_prefix (refdes c)) = true
     ∧ match rest with
       | EmptyString => True
       | String ch _ => Chars.isalpha ch = false
       end)
  ∧ derived_type c = table_type (Str.upper (alpha_prefix (refdes c)))
  ∧ (∀ entry, entry ∈ prefix_table →
       caseless_eq (alpha_prefix (refdes c)) entry.1 → derived_type c = entry.2)
  ∧ ((∀ entry, entry ∈ prefix_table →
        ¬ caseless_eq (alpha_prefix (refdes c)) entry.1) →
     derived_type c = "ACTIVE")
  ∧ (is_passive c = true ↔ derived_type c ∈ ["RES"; "CAP"; "IND"; "FUSE"])
  ∧ (alpha_prefix (refdes c) = "R" ∨ alpha_prefix (refdes c) = "r" →
       derived_type c = "RES" ∧ is_passive c = true).
Proof.
  intros _.
  assert (∀ entry, entry ∈ prefix_table →
            Str.upper (alpha_prefix (refdes c)) = entry.1
            ↔ caseless_eq (alpha_prefix (refdes c)) entry.1) as Hcase.
  { intros entry Hin. apply upper_caseless.
    by apply (proj1 (Forall_forall _ _) prefix_table_upper). }
  split_and!.
  - destruct (alpha_prefix_spec (refdes c)) as (rest & Hs & _ & Hrest).
    exists rest. split_and!; [done|apply alpha_prefix_letters|done].
  - apply derived_type_table.
  - intros entry Hin Heq%Hcase; [|done].
    rewrite derived_type_table, Heq. by apply table_type_entry.
  - intros Hnone. rewrite derived_type_table. apply table_type_other.
    intros entry Hin Heq. apply (Hnone entry Hin). by apply Hcase.
  - unfold is_passive. cbv zeta. apply bool_decide_eq_true.
  - intros Hp. unfold is_passive. rewrite derived_type_table.
    by destruct Hp as [-> | ->].
Qed.

Lemma derived_type_prefix_table_witness :
  Str.isascii "sw1" = true
  ∧ derived_type (bare_component "sw1" []) = "SWITCH"
  ∧ derived_type (bare_component "r12" []) = "RES"
  ∧ is_passive (bare_component "r12" []) = true.
Proof.
  assert (Str.isascii "sw1" = true) as Hsw by reflexivity.
  assert (Str.isascii "r12" = true) as Hr by reflexivity.
  split; [exact Hsw|].
  destruct (derived_type_prefix_table (bare_component "sw1" []) Hsw)
    as (_ & _ & Htable & _).
  destruct (derived_type_prefix_table (bare_component "r12" []) Hr)
    as (_ & _ & _ & _ & _ & Hres).
  split.
  - apply (Htable ("SW", "SWITCH")).
    + unfold prefix_table. do 13 right. left.
    + simpl. unfold same_letter. split; [|split; [|done]].
      * right. split; [reflexivity|]. split; [reflexivity|]. left. reflexivity.
      * right. split; [reflexivity|]. split; [reflexivity|]. left. reflexivity.
  - apply Hres. right. reflexivity.
Defined.

(** * Pin references *)

Lemma named_ref_ne_plain (r p name : string) : named_ref r p name ≠ plain_ref r p.
Proof.
  unfold named_ref, plain_ref. intros Heq.
  apply (f_equal String.length) in Heq.
  rewrite !str_app_length in Heq. simpl in Heq. lia.
Qed.

Lemma format_pin_reference_cases (r p : string) (components : list Component) :
  _format_pin_reference r p components =
    match lookup_pin r p components with
    | Some pin =>
        if decide (semantic_name (pin_name pin))
        then named_ref r p (pin_name pin) else plain_ref r p
    | None => plain_ref r p
    end.
Proof.
  unfold _format_pin_reference, lookup_pin.
  destruct (find _ components) as [component|]; cbn [mbind option_bind]; [|done].
  destruct (find _ (pins component)) as [pin|]; [|done].
  destruct (decide (semantic_name (pin_name pin))) as [[Hne Hnotin]|Hnot].
  - apply str_truthy_ne in Hne. rewrite Hne. cbn [negb]. by rewrite decide_False.
  - destruct (Str.truthy (pin_name pin)) eqn:Htruthy; cbn [negb]; [|done].
    rewrite decide_True; [done|].
    destruct (decide (pin_name pin ∈ ["1"; "2"; "3"; "4"; "A"; "K"])); [done|].
    exfalso. apply Hnot. split; [by apply str_truthy_ne|done].
Qed.

(** When reference designators are unique in the list and pin designators
    are unique on each component, as the data model asks, the lookup finds
    the one pin of the one component the member names. *)
Lemma lookup_pin_unique (r p : string) (components : list Component) (pin : Pin) :
  NoDup (map refdes components) →
  (∀ c, c ∈ components → NoDup (map designator (pins c))) →
  lookup_pin r p components = Some pin ↔
    ∃ c, c ∈ components ∧ refdes c = r ∧ pin ∈ pins c ∧ designator pin = p.
Proof.
  intros Hnd Hpins. unfold lookup_pin.
  assert (∀ {A} (f : A → string) (x : string) (l : list A) (a : A),
            NoDup (map f l) →
            find (λ b, bool_decide (f b = x)) l = Some a ↔ a ∈ l ∧ f a = x) as Hfind.
  { clear. intros A f x l a. induction l as [|b l IH]; simpl; intros Hnd.
    - split; [done|]. intros [H _]. by apply elem_of_nil in H.
    - apply NoDup_cons in Hnd as [Hb Hnd]. case_bool_decide as Hfb.
      + split.
        * intros [= ->]. split; [left|done].
        * intros [[->|Hin]%elem_of_cons Hfa]; [done|].
          exfalso. apply Hb. rewrite Hfb, <- Hfa. by apply list_elem_of_fmap_2.
      + rewrite IH by done. split.
        * intros [??]. split; [by right|done].
        * intros [[->|Hin]%elem_of_cons Hfa]; [done|done]. }
  split.
  - destruct (find _ components) as [c|] eqn:Hc; simpl; [|done].
    intros Hp. apply Hfind in Hc as [Hc1 Hc2]; [|done].
    apply Hfind in Hp as [Hp1 Hp2]; [|by apply Hpins]. by exists c.
  - intros (c & Hc & Hr & Hp & Hd).
    assert (find (λ comp, bool_decide (refdes comp = r)) components = Some c) as ->.
    { by apply Hfind. }
    simpl. apply Hfind; [by apply Hpins|done].
Qed.

(** C9: a net member is rendered REFDES.PIN, and REFDES.PIN(NAME) exactly
    when its pin is found on a component of the list and the pin's name is
    neither empty nor one of "1", "2", "3", "4", "A", "K". *)
Theorem format_pin_reference_named_iff (r p : string) (components : list Component) :
  let found_named :=
    ∃ pin, lookup_pin r p components = Some pin ∧ semantic_name (pin_name pin) in
  (∀ pin, lookup_pin r p components = Some pin → semantic_name (pin_name pin) →
     _format_pin_reference r p components = named_ref r p (pin_name pin))
  ∧ (¬ found_named → _format_pin_reference r p components = plain_ref r p)
  ∧ (_format_pin_reference r p components = plain_ref r p → ¬ found_named).
Proof.
  cbv zeta. rewrite format_pin_reference_cases. split_and!.
  - intros pin -> Hsem. by rewrite decide_True.
  - intros Hnot. destruct (lookup_pin r p components) as [pin|]; [|done].
    rewrite decide_False; [done|]. intros Hsem. apply Hnot. by exists pin.
  - intros Hfmt (pin & Hpin & Hsem). rewrite Hpin, decide_True in Hfmt by done.
    by apply named_ref_ne_plain in Hfmt.
Qed.

Lemma format_pin_reference_named_iff_witness :
  lookup_pin "U1" "2" [r1; u1] = Some (mkPin "2" "PA9_TX" "UART_TX")
  ∧ semantic_name "PA9_TX"
  ∧ _format_pin_reference "U1" "2" [r1; u1] = "U1.2(PA9_TX)".
Proof.
  assert (lookup_pin "U1" "2" [r1; u1] = Some (mkPin "2" "PA9_TX" "UART_TX")) as Hpin.
  { reflexivity. }
  assert (semantic_name "PA9_TX") as Hname.
  { apply (bool_decide_unpack _). vm_compute. exact I. }
  split; [exact Hpin|]. split; [exact Hname|].
  exact (proj1 (format_pin_reference_named_iff "U1" "2" [r1; u1]) _ Hpin Hname).
Defined.

(** * Natural sort *)

(** ** The split at digit runs *)

Lemma no_digits_not_isdigit (s : string) : no_digits s = true → Str.isdigit s = false.
Proof.
  destruct s as [|c s]; [done|]. simpl.
  intros [Hc _]%andb_true_iff. by destruct (Chars.isdigit c).
Qed.

Lemma no_digits_snoc (s : string) (c : ascii) :
  no_digits s = true → Chars.isdigit c = false → no_digits (s +:+ String c "") = true.
Proof.
  intros Hs Hc. induction s as [|d s IH]; simpl.
  - by rewrite Hc.
  - rewrite ?str_app_cons. simpl in *. apply andb_true_iff in Hs as [-> Hs].
    by rewrite IH.
Qed.

Lemma all_digits_snoc (s : string) (c : ascii) :
  Str.all_digits s = true → Chars.isdigit c = true →
  Str.all_digits (s +:+ String c "") = true.
Proof.
  intros Hs Hc. induction s as [|d s IH]; simpl.
  - by rewrite Hc.
  - rewrite ?str_app_cons. simpl in *. apply andb_true_iff in Hs as [-> Hs].
    by rewrite IH.
Qed.

Lemma isdigit_snoc (s : string) (c : ascii) :
  Str.isdigit s = true → Chars.isdigit c = true →
  Str.isdigit (s +:+ String c "") = true.
Proof.
  destruct s as [|d s]; [done|]. intros Hs Hc.
  by apply (all_digits_snoc (String d s)).
Qed.

Lemma split_runs_alternate (in_digits : bool) (cur s : string) :
  (if in_digits then Str.isdigit cur = true else no_digits cur = true) →
  runs_alternate in_digits (split_runs in_digits cur s).
Proof.
  revert in_digits cur. induction s as [|c s IH]; intros in_digits cur Hcur; simpl.
  - by destruct in_digits.
  - destruct (Chars.isdigit c) eqn:Hc, in_digits; simpl.
    + apply IH. by apply isdigit_snoc.
    + split; [done|]. apply IH. simpl. by rewrite Hc.
    + split; [done|]. apply IH. simpl. by rewrite Hc.
    + apply IH. by apply no_digits_snoc.
Qed.


(** ** Keys *)

Lemma atoi_runs (k : bool) (pieces : list string) :
  runs_alternate k pieces → key_alternates k (map atoi pieces).
Proof.
  revert k. induction pieces as [|p ps IH]; intros k; [done|].
  simpl. intros [Hp Hps]. unfold atoi at 1. destruct k.
  - rewrite Hp. split; [done|]. by apply (IH false).
  - rewrite (no_digits_not_isdigit _ Hp). split; [done|]. by apply (IH true).
Qed.

Lemma natural_sort_key_alternates (text : string) :
  key_alternates false (_natural_sort_key text).
Proof. apply atoi_runs. by apply split_runs_alternate. Qed.

(** Two alternating keys never set a number against a string. *)
Lemma key_lt_comparable (k : bool) (a b : list key_part) :
  key_alternates k a → key_alternates k b → is_Some (key_lt a b).
Proof.
  revert k b. induction a as [|x a IH]; intros k [|y b] Ha Hb; simpl; eauto.
  case_decide; [subst y|].
  - destruct x; destruct Ha as [_ Ha], Hb as [_ Hb]; by eapply IH.
  - destruct x, y; simpl in *; destruct Ha as [Hk _], Hb as [Hk' _];
      subst; try done; eauto.
Qed.

(** No comparison made while sorting by [_natural_sort_key] raises. *)
Lemma natural_keys_comparable (d1 d2 : string) :
  is_Some (key_lt (_natural_sort_key d1) (_natural_sort_key d2)).
Proof.
  eapply key_lt_comparable; apply natural_sort_key_alternates.
Qed.

Lemma string_ltb_leb (s t : string) : String.ltb s t = negb (String.leb t s).
Proof.
  unfold String.ltb, String.leb. rewrite (String.compare_antisym s t).
  by destruct (String.compare t s).
Qed.

Lemma part_lt_asym (x y : key_part) : part_lt x y = Some true → part_lt y x = Some false.
Proof.
  destruct x as [s|m], y as [t|n]; simpl; try done; intros [= Hlt]; f_equal.
  - rewrite string_ltb_leb in *. apply negb_true_iff in Hlt.
    apply negb_false_iff. by apply string_leb_total.
  - apply N.ltb_lt in Hlt. apply N.ltb_ge. lia.
Qed.

Lemma key_lt_asym (a b : list key_part) : key_lt a b = Some true → key_lt b a = Some false.
Proof.
  revert b. induction a as [|x a IH]; intros [|y b]; simpl; try done.
  case_decide as Hxy.
  - subst y. rewrite decide_True by done. apply IH.
  - rewrite decide_False by done. apply part_lt_asym.
Qed.

Lemma key_le_total (a b : list key_part) : key_le a b = false → key_le b a = true.
Proof.
  unfold key_le. intros Hab%negb_false_iff.
  destruct (key_lt b a) as [[]|] eqn:Hba; try done.
  by rewrite (key_lt_asym _ _ Hba).
Qed.

Lemma part_le_trans (x y z : key_part) :
  x ≠ y → y ≠ z →
  part_lt y x = Some false → part_lt z y = Some false →
  x ≠ z ∧ part_lt z x = Some false.
Proof.
  destruct x as [s|m], y as [t|n], z as [u|p]; simpl; try done.
  - intros Hst Htu [= H1] [= H2].
    rewrite string_ltb_leb in H1, H2. apply negb_false_iff in H1, H2.
    split.
    + intros [= ->]. apply Hst. f_equal. by apply String.leb_antisym.
    + f_equal. rewrite string_ltb_leb. apply negb_false_iff.
      by apply (string_leb_trans s t u).
  - intros Hmn Hnp [= H1%N.ltb_ge] [= H2%N.ltb_ge].
    assert (m ≠ n) by congruence. assert (n ≠ p) by congruence.
    split; [intros [= ->]; lia|]. f_equal. apply N.ltb_ge. lia.
Qed.

Lemma key_lt_le_trans (k : bool) (a b c : list key_part) :
  key_alternates k a → key_alternates k b → key_alternates k c →
  key_lt b a = Some false → key_lt c b = Some false → key_lt c a = Some false.
Proof.
  revert k b c. induction a as [|x a IH]; intros k [|y b] [|z c] Ha Hb Hc; simpl; try done.
  assert (∃ k', key_alternates k' a ∧ key_alternates k' b ∧ key_alternates k' c)
    as (k' & Ha' & Hb' & Hc').
  { destruct x as [sx|nx], y as [sy|ny], z as [sz|nz]; simpl in Ha, Hb, Hc;
      destruct Ha as [Hk Ha], Hb as [Hk2 Hb], Hc as [Hk3 Hc]; subst; try done;
      eexists; eauto. }
  destruct (decide (y = x)) as [Hyx|Hyx], (decide (z = y)) as [Hzy|Hzy].
  - subst. rewrite decide_True by done. by apply (IH k').
  - subst. rewrite decide_False by done. by intros _ ?.
  - subst. rewrite decide_False by done. by intros ? _.
  - intros H1 H2.
    destruct (part_le_trans x y z) as [Hxz Hlt]; [done..|].
    by rewrite decide_False.
Qed.

Lemma key_le_true (a b : list key_part) :
  is_Some (key_lt b a) → key_le a b = true ↔ key_lt b a = Some false.
Proof.
  unfold key_le. intros [r ->]. simpl. destruct r; naive_solver.
Qed.

Lemma natural_le_key_le (d1 d2 : string) :
  key_le (_natural_sort_key d1) (_natural_sort_key d2) = true ↔ natural_le d1 d2.
Proof. apply key_le_true, natural_keys_comparable. Qed.

Lemma natural_le_trans (d1 d2 d3 : string) :
  natural_le d1 d2 → natural_le d2 d3 → natural_le d1 d3.
Proof.
  unfold natural_le. apply (key_lt_le_trans false); apply natural_sort_key_alternates.
Qed.

Lemma StronglySorted_weaken {A : Type} (R R' : A → A → Prop) (l : list A) :
  (∀ x y, R x y → R' x y) → StronglySorted R l → StronglySorted R' l.
Proof.
  intros HR. induction 1 as [|x l Hl IH Hx]; constructor; [done|].
  eapply Forall_impl; [done|]. intros y. apply HR.
Qed.

Lemma sorted_natural_perm {A : Type} (f : A → string) (xs : list A) :
  sorted_natural f xs ≡ₚ xs.
Proof. apply stable_sort_perm. Qed.

Lemma sorted_natural_StronglySorted {A : Type} (f : A → string) (xs : list A) :
  StronglySorted (λ x y, natural_le (f x) (f y)) (sorted_natural f xs).
Proof.
  eapply StronglySorted_weaken; [|apply stable_sort_StronglySorted].
  - intros x y Hxy. by apply natural_le_key_le.
  - intros x y. apply key_le_total.
  - intros x y z. rewrite !natural_le_key_le. apply natural_le_trans.
Qed.

(** *** The key with the failure of [int] *)

Lemma each_Return {E A B : Type} (f : A → outcome E B) (g : A → B) (xs : list A) :
  Forall (λ x, f x = Return (g x)) xs → each f xs = Return (map g xs).
Proof.
  induction 1 as [|x xs Hx _ IH]; [done|]. simpl. by rewrite Hx, IH.
Qed.


Lemma checked_atoi_Return (piece : string) :
  (Str.isdigit piece = true → (String.length piece ≤ int_max_str_digits)%nat) →
  Checked.atoi piece = Return (atoi piece).
Proof.
  intros Hshort. unfold Checked.atoi, atoi, Checked.int.
  destruct (Str.isdigit piece); [|done].
  rewrite decide_False; [done|]. specialize (Hshort eq_refl). lia.
Qed.


Lemma short_runs_pieces (text : string) :
  short_runs text
  ↔ Forall (λ piece, Str.isdigit piece = true →
                     (String.length piece ≤ int_max_str_digits)%nat)
           (re_split_digits text).
Proof.
  unfold short_runs. rewrite !Forall_forall. split.
  - intros Hshort piece Hin Hdigit. apply Hshort. by apply list_elem_of_filter.
  - intros Hshort piece [Hdigit Hin]%list_elem_of_filter. by apply Hshort.
Qed.

Global Instance short_runs_dec (text : string) : Decision (short_runs text).
Proof. unfold short_runs. apply _. Defined.

Global Instance sortable_dec (text : string) : Decision (sortable text).
Proof. unfold sortable. apply _. Defined.

(** Within the limit the key is the key taken piece by piece. *)
Lemma checked_key_Return (text : string) :
  short_runs text → Checked._natural_sort_key text = Return (_natural_sort_key text).
Proof.
  intros Hshort%short_runs_pieces. unfold Checked._natural_sort_key, _natural_sort_key.
  apply each_Return. eapply Forall_impl; [exact Hshort|].
  intros piece. apply checked_atoi_Return.
Qed.


Lemma stable_sort_map {A B : Type} (leA : A → A → bool) (leB : B → B → bool)
    (g : A → B) (xs : list A) :
  (∀ x y, leB (g x) (g y) = leA x y) →
  stable_sort leB (map g xs) = map g (stable_sort leA xs).
Proof.
  intros Hle. induction xs as [|x xs IH]; [done|]. simpl. rewrite IH.
  generalize (stable_sort leA xs). intros ys.
  induction ys as [|y ys IHys]; [done|]. simpl. rewrite Hle.
  destruct (leA x y); [done|]. simpl. by rewrite IHys.
Qed.

Lemma zip_map_key {A B : Type} (k : A → B) (xs : list A) :
  zip xs (map k xs) = map (λ x, (x, k x)) xs.
Proof. induction xs as [|x xs IH]; [done|]. simpl. by rewrite IH. Qed.

(** When every key exists the sort is the sort by these keys. *)
Lemma checked_sorted_Return {A : Type} (f : A → string) (xs : list A) :
  Forall (λ x, short_runs (f x)) xs →
  Checked.sorted_natural f xs = Return (sorted_natural f xs).
Proof.
  intros Hshort. unfold Checked.sorted_natural.
  rewrite (each_Return _ (λ x, _natural_sort_key (f x))).
  2: { eapply Forall_impl; [exact Hshort|]. intros x. apply checked_key_Return. }
  f_equal. rewrite zip_map_key.
  rewrite (stable_sort_map
             (λ x y, key_le (_natural_sort_key (f x)) (_natural_sort_key (f y)))
             (λ x y, key_le x.2 y.2)) by done.
  rewrite map_map. simpl. by rewrite map_id.
Qed.





(** * Net blocks *)

Lemma pin_refs_length (net : Net) (components : list Component) :
  length (pin_refs net components) = length (members net).
Proof. unfold pin_refs, sorted_str. by rewrite stable_sort_length, length_map. Qed.

(** C1: for a global net with more than 10 members the net block is the
    header, the ALL_PAGES links line and a connections line made of the first
    10 pin references in ascending string order followed by (+ N others),
    where N is the number of members less 10; with 27 members the suffix is
    (+ 17 others). *)
Theorem global_net_truncation (net : Net) (net_pages0 : gset string)
    (components : list Component) :
  is_global net = true →
  10 < length (members net) →
  ∃ shown rest : list string,
    length shown = 10
    ∧ length rest = length (members net) - 10
    ∧ shown ++ rest ≡ₚ map (λ m, _format_pin_reference m.1 m.2 components) (members net)
    ∧ StronglySorted (λ a b, String.leb a b = true) (shown ++ rest)
    ∧ con_str net components =
        Str.join ", " shown +:+ " (+ " +:+ pretty (length (members net) - 10) +:+ " others)"
    ∧ _format_net_block net net_pages0 components =
        Str.join Str.nl
          [ "NET " +:+ net_name net; "  LINKS: ALL_PAGES";
            "  CON: " +:+ con_str net components ]
    ∧ (length (members net) = 27 →
       con_str net components = Str.join ", " shown +:+ " (+ 17 others)").
Proof.
  intros Hglobal Hlen.
  pose proof (pin_refs_length net components) as Hrefs.
  exists (take 10 (pin_refs net components)), (drop 10 (pin_refs net components)).
  assert (con_str net components =
            Str.join ", " (take 10 (pin_refs net components)) +:+ " (+ "
              +:+ pretty (length (members net) - 10) +:+ " others)") as Hcon.
  { unfold con_str. cbv zeta. rewrite Hglobal, Hrefs.
    by rewrite bool_decide_eq_true_2. }
  split_and!.
  - rewrite length_take. lia.
  - rewrite length_drop. lia.
  - rewrite take_drop. apply sorted_str_perm.
  - rewrite take_drop. apply sorted_str_StronglySorted.
  - done.
  - unfold _format_net_block, net_block_lines. cbv zeta. by rewrite Hglobal.
  - intros H27. rewrite Hcon, H27. done.
Qed.

Lemma global_net_truncation_witness :
  is_global gnd27 = true
  ∧ 10 < length (members gnd27)
  ∧ ∃ shown : list string,
      length shown = 10
      ∧ con_str gnd27 [] = Str.join ", " shown +:+ " (+ 17 others)".
Proof.
  assert (is_global gnd27 = true) as Hglobal by reflexivity.
  assert (10 < length (members gnd27)) as Hlen by (vm_compute; lia).
  split; [exact Hglobal|]. split; [exact Hlen|].
  destruct (global_net_truncation gnd27 ∅ [] Hglobal Hlen)
    as (shown & rest & Hshown & _ & _ & _ & _ & _ & H27).
  exists shown. split; [exact Hshown|]. apply H27. reflexivity.
Defined.

(** The block of the 27-pin ground net, as emitted. *)
Example gnd27_block :
  _format_net_block gnd27 {["Main"]} [] =
    Str.join Str.nl
      [ "NET GND"; "  LINKS: ALL_PAGES";
        "  CON: R1.1, R10.1, R11.1, R12.1, R13.1, R14.1, R15.1, R16.1, R17.1, R18.1 (+ 17 others)" ].
Proof. by vm_compute. Qed.

(** * The power and ground pattern *)

(** ** How patterns consume text *)

Section Accepts.

Implicit Types (r : Re.t) (a : Re.atom) (pos : nat) (u v w : string).

Lemma accepts_eps pos v : accepts Re.Eps pos "" v.
Proof. intros k Hk. simpl in *. by rewrite Nat.add_0_r in Hk. Qed.

Lemma accepts_bol v : accepts Re.Bol 0 "" v.
Proof. intros k Hk. simpl in *. change ("" +:+ v) with v. by rewrite Hk. Qed.

Lemma accepts_eol pos v : Re.at_eol v = true → accepts Re.Eol pos "" v.
Proof.
  intros Hv k Hk. change ("" +:+ v) with v.
  simpl in *. rewrite Nat.add_0_r in Hk. by rewrite Hv, Hk.
Qed.

Lemma accepts_atom a c pos v :
  Re.atom_ok a c = true → accepts (Re.Atom a) pos (String c "") v.
Proof.
  intros Hc k Hk. change (String c "" +:+ v) with (String c v).
  simpl in *. rewrite Nat.add_1_r in Hk. by rewrite Hc, Hk.
Qed.

Lemma accepts_star a pos u v :
  Str.forallb (Re.atom_ok a) u = true → accepts (Re.Star a) pos u v.
Proof.
  revert pos. induction u as [|c u IH]; intros pos Hu k Hk.
  - change ("" +:+ v) with v. simpl in *. rewrite Nat.add_0_r in Hk.
    destruct v; simpl; by rewrite Hk.
  - rewrite str_app_cons. simpl in *.
    apply andb_true_iff in Hu as [Hc Hu]. rewrite Hc. simpl.
    pose proof (IH (S pos) Hu k) as Hrec. simpl in Hrec.
    rewrite Hrec; [by rewrite orb_true_r|].
    by rewrite <- Nat.add_succ_comm in Hk.
Qed.

Lemma accepts_opt_skip r pos v : accepts (Re.Opt r) pos "" v.
Proof.
  intros k Hk. change ("" +:+ v) with v.
  simpl in *. rewrite Nat.add_0_r in Hk. by rewrite Hk, orb_true_r.
Qed.

Lemma accepts_opt_take r pos u v : accepts r pos u v → accepts (Re.Opt r) pos u v.
Proof. intros Hr k Hk. simpl. by rewrite (Hr k Hk). Qed.

Lemma accepts_alt_l r1 r2 pos u v : accepts r1 pos u v → accepts (Re.Alt r1 r2) pos u v.
Proof. intros Hr k Hk. simpl. by rewrite (Hr k Hk). Qed.

Lemma accepts_alt_r r1 r2 pos u v : accepts r2 pos u v → accepts (Re.Alt r1 r2) pos u v.
Proof. intros Hr k Hk. simpl. by rewrite (Hr k Hk), orb_true_r. Qed.

Lemma accepts_cat r1 r2 pos u1 u2 v :
  accepts r1 pos u1 (u2 +:+ v) →
  accepts r2 (pos + String.length u1) u2 v →
  accepts (Re.Cat r1 r2) pos (u1 +:+ u2) v.
Proof.
  intros H1 H2 k Hk. simpl. rewrite str_app_assoc. apply H1, H2.
  by rewrite str_app_length, Nat.add_assoc in Hk.
Qed.

(** A word is consumed by any text that agrees with it up to case. *)
Lemma accepts_word w u pos v :
  w ≠ "" → Str.upper u = Str.upper w → accepts (Re.Word w) pos u v.
Proof.
  revert u pos. induction w as [|c w IH]; intros [|d u] pos Hne Hup; try done.
  simpl in Hup. injection Hup as Hd Hu.
  assert (Re.atom_ok (Re.Lit c) d = true) as Hok.
  { simpl. by apply bool_decide_eq_true. }
  destruct w as [|c' w].
  - destruct u; [|done]. by apply accepts_atom.
  - change (Re.Word (String c (String c' w)))
      with (Re.Cat (Re.Atom (Re.Lit c)) (Re.Word (String c' w))).
    apply (accepts_cat _ _ pos (String d "") u).
    + by apply accepts_atom.
    + by apply IH.
Qed.

Lemma accepts_matches r u v : accepts r 0 u v → Re.matches r (u +:+ v) = true.
Proof. intros Hr. by apply Hr. Qed.

End Accepts.

(** ** The three families *)

Lemma accepts_cat_split (r1 r2 : Re.t) (pos : nat) (u u1 u2 v : string) :
  u = u1 +:+ u2 →
  accepts r1 pos u1 (u2 +:+ v) →
  accepts r2 (pos + String.length u1) u2 v →
  accepts (Re.Cat r1 r2) pos u v.
Proof. intros ->. apply accepts_cat. Qed.

Lemma accepts_plus (a : Re.atom) (pos : nat) (c : ascii) (u v : string) :
  Re.atom_ok a c = true → Str.forallb (Re.atom_ok a) u = true →
  accepts (Re.Plus a) pos (String c u) v.
Proof.
  intros Hc Hu. apply (accepts_cat_split _ _ _ _ (String c "") u); [done|..].
  - by apply accepts_atom.
  - by apply accepts_star.
Qed.

Lemma all_digits_forallb (s : string) :
  Str.all_digits s = Str.forallb (Re.atom_ok Re.Digit) s.
Proof. induction s as [|c s IH]; [done|]. simpl. by rewrite IH. Qed.

Lemma upper_eq_cons (s : string) (c : ascii) (w : string) :
  Str.upper s = String c w →
  ∃ d s', s = String d s' ∧ Chars.upper d = c ∧ Str.upper s' = w.
Proof. destruct s as [|d s']; [done|]. intros [= ??]. by exists d, s'. Qed.

Lemma accepts_rail_words (p : string) (pos : nat) (v : string) :
  Str.upper p ∈ ["GND"; "PGND"; "VSS"; "VCC"; "VDD"; "VEE"; "VBAT"] →
  accepts rail_words pos p v.
Proof.
  intros Hp. unfold rail_words. set_unfold in Hp. destruct_or!; try done.
  - apply accepts_alt_l.
    apply (accepts_cat_split _ _ _ _ "" p); [done|apply accepts_opt_skip|].
    by apply accepts_word.
  - apply upper_eq_cons in Hp as (d & p' & -> & Hd & Hp').
    apply accepts_alt_l.
    apply (accepts_cat_split _ _ _ _ (String d "") p'); [done|..].
    + apply accepts_opt_take, accepts_atom. simpl. by apply bool_decide_eq_true.
    + by apply accepts_word.
  - apply accepts_alt_r, accepts_alt_l. by apply accepts_word.
  - do 2 apply accepts_alt_r. apply accepts_alt_l. by apply accepts_word.
  - do 3 apply accepts_alt_r. apply accepts_alt_l. by apply accepts_word.
  - do 4 apply accepts_alt_r. apply accepts_alt_l. by apply accepts_word.
  - do 5 apply accepts_alt_r. by apply accepts_word.
Qed.

Lemma rail_prefix_matches (p tail : string) :
  Str.upper p ∈ ["GND"; "PGND"; "VSS"; "VCC"; "VDD"; "VEE"; "VBAT"] →
  tail = "" ∨ tail = Str.nl ∨ (∃ rest, tail = "_" +:+ rest) →
  Re.matches rail_prefix_pattern (p +:+ tail) = true.
Proof.
  intros Hp Htail. unfold rail_prefix_pattern.
  assert (Re.at_eol tail = true → Re.matches
    (Re.Cat Re.Bol (Re.Cat rail_words
       (Re.Alt Re.Eol (Re.Cat (Re.Atom (Re.Lit "_")) (Re.Star Re.Any)))))
    (p +:+ tail) = true) as Heol.
  { intros Htail'. apply accepts_matches.
    apply (accepts_cat_split _ _ _ _ "" p); [done|apply accepts_bol|].
    apply (accepts_cat_split _ _ _ _ p ""); [by rewrite str_app_nil_r|..].
    + by apply accepts_rail_words.
    + by apply accepts_alt_l, accepts_eol. }
  destruct Htail as [->|[->|[rest ->]]]; [by apply Heol..|].
  - replace (p +:+ "_" +:+ rest) with ((p +:+ "_") +:+ rest)
      by (by rewrite str_app_assoc).
    apply accepts_matches.
    apply (accepts_cat_split _ _ _ _ "" (p +:+ "_")); [done|apply accepts_bol|].
    apply (accepts_cat_split _ _ _ _ p "_"); [done|..].
    + by apply accepts_rail_words.
    + apply accepts_alt_r.
      apply (accepts_cat_split _ _ _ _ "_" ""); [done|..].
      * by apply accepts_atom.
      * by apply accepts_star.
Qed.

Lemma accepts_opt_lit (l : ascii) (s : string) (pos : nat) (v : string) :
  s ∈ [""; String l ""] → accepts (Re.Opt (Re.Atom (Re.Lit l))) pos s v.
Proof.
  intros Hs. set_unfold in Hs. destruct_or!; subst; try done.
  - apply accepts_opt_skip.
  - apply accepts_opt_take, accepts_atom. simpl. by apply bool_decide_eq_true.
Qed.

Lemma voltage_matches (sign whole dot frac v tail : string) :
  sign ∈ [""; "+"] →
  Str.all_digits whole = true →
  dot ∈ [""; "."] →
  Str.all_digits frac = true →
  v ∈ ["V"; "v"] →
  whole ≠ "" ∨ (∃ d rest, tail = String d rest ∧ Chars.isdigit d = true) →
  Re.matches voltage_pattern (sign +:+ whole +:+ dot +:+ frac +:+ v +:+ tail) = true.
Proof.
  intros Hsign Hwhole Hdot Hfrac Hv Hdigit.
  rewrite all_digits_forallb in Hwhole, Hfrac.
  assert (∀ pos w, accepts (Re.Atom (Re.Lit "V")) pos v w) as HV.
  { intros pos w. set_unfold in Hv. destruct_or!; subst; try done;
      by apply accepts_atom. }
  unfold voltage_pattern. cbv zeta.
  destruct Hdigit as [Hne|(d & rest & -> & Hd)].
  - destruct whole as [|c whole]; [done|]. simpl in Hwhole.
    apply andb_true_iff in Hwhole as [Hc Hwhole].
    replace (sign +:+ String c whole +:+ dot +:+ frac +:+ v +:+ tail)
      with ((sign +:+ String c whole +:+ dot +:+ frac +:+ v +:+ "") +:+ tail)
      by (by rewrite !str_app_assoc).
    apply accepts_matches.
    eapply (accepts_cat_split _ _ _ _ ""); [done|apply accepts_bol|].
    apply accepts_alt_l.
    eapply (accepts_cat_split _ _ _ _ sign); [done|by apply accepts_opt_lit|].
    apply accepts_alt_l.
    eapply (accepts_cat_split _ _ _ _ (String c whole)); [done|by apply accepts_plus|].
    eapply (accepts_cat_split _ _ _ _ dot); [done|by apply accepts_opt_lit|].
    eapply (accepts_cat_split _ _ _ _ frac); [done|by apply accepts_star|].
    eapply (accepts_cat_split _ _ _ _ v); [done|apply HV|].
    by apply accepts_star.
  - replace (sign +:+ whole +:+ dot +:+ frac +:+ v +:+ String d rest)
      with ((sign +:+ whole +:+ dot +:+ frac +:+ v +:+ String d "") +:+ rest)
      by (by rewrite !str_app_assoc).
    apply accepts_matches.
    eapply (accepts_cat_split _ _ _ _ ""); [done|apply accepts_bol|].
    apply accepts_alt_l.
    eapply (accepts_cat_split _ _ _ _ sign); [done|by apply accepts_opt_lit|].
    apply accepts_alt_r.
    eapply (accepts_cat_split _ _ _ _ whole); [done|by apply accepts_star|].
    eapply (accepts_cat_split _ _ _ _ dot); [done|by apply accepts_opt_lit|].
    eapply (accepts_cat_split _ _ _ _ frac); [done|by apply accepts_star|].
    eapply (accepts_cat_split _ _ _ _ v); [done|apply HV|].
    by apply accepts_plus.
Qed.

Lemma rail_suffix_matches (body suffix last : string) :
  Str.forallb (λ c, negb (bool_decide (c = Chars.LF))) body = true →
  Str.upper suffix ∈ ["GND"; "VCC"; "VDD"] →
  last ∈ [""; Str.nl] →
  Re.matches rail_suffix_pattern (body +:+ "_" +:+ suffix +:+ last) = true.
Proof.
  intros Hbody Hsuffix Hlast. unfold rail_suffix_pattern.
  assert (Re.at_eol last = true) as Heol.
  { set_unfold in Hlast. by destruct_or!; subst. }
  replace (body +:+ "_" +:+ suffix +:+ last)
    with ((body +:+ "_" +:+ suffix) +:+ last) by (by rewrite !str_app_assoc).
  apply accepts_matches.
  eapply (accepts_cat_split _ _ _ _ ""); [done|apply accepts_bol|].
  eapply (accepts_cat_split _ _ _ _ body); [done|by apply accepts_star|].
  eapply (accepts_cat_split _ _ _ _ "_"); [done|by apply accepts_atom|].
  eapply (accepts_cat_split _ _ _ _ suffix ""); [by rewrite str_app_nil_r|..].
  - set_unfold in Hsuffix. destruct_or!; try done.
    + by apply accepts_alt_l, accepts_word.
    + by apply accepts_alt_r, accepts_alt_l, accepts_word.
    + by apply accepts_alt_r, accepts_alt_r, accepts_word.
  - by apply accepts_eol.
Qed.

Lemma matches_alt (r1 r2 : Re.t) (s : string) :
  Re.matches (Re.Alt r1 r2) s = Re.matches r1 s || Re.matches r2 s.
Proof. reflexivity. Qed.

Lemma power_ground_name_matches (name : string) :
  power_ground_name name → Re.matches power_pattern name = true.
Proof.
  intros Hname. unfold power_pattern. rewrite !matches_alt.
  destruct Hname.
  - by rewrite rail_prefix_matches.
  - by rewrite voltage_matches, orb_true_r.
  - by rewrite rail_suffix_matches, !orb_true_r.
Qed.

(** ** The pattern accepts nothing else *)

Lemma star_sound (a : Re.atom) (pos : nat) (s : string) (k : nat → string → bool) :
  Re.star a pos s k = true →
  ∃ u v, s = u +:+ v ∧ Str.forallb (Re.atom_ok a) u = true
         ∧ k (pos + String.length u) v = true.
Proof.
  revert pos. induction s as [|c s IH]; intros pos; simpl.
  - rewrite orb_false_r. intros Hk. exists "", "".
    by rewrite Nat.add_0_r.
  - intros [Hk|[Hc Hstar]%andb_true_iff]%orb_true_iff.
    + exists "", (String c s). by rewrite Nat.add_0_r.
    + destruct (IH _ Hstar) as (u & v & -> & Hu & Hk).
      exists (String c u), v. simpl. rewrite Hc, Hu.
      by rewrite <- Nat.add_succ_comm.
Qed.

Lemma run_sound (r : Re.t) (pos : nat) (s : string) (k : nat → string → bool) :
  Re.run r pos s k = true →
  ∃ u v, s = u +:+ v ∧ denotes r pos u v ∧ k (pos + String.length u) v = true.
Proof.
  revert pos s k. induction r as [| | |a|a|r IH|r1 IH1 r2 IH2|r1 IH1 r2 IH2];
    intros pos s k; simpl.
  - intros Hk. exists "", s. by rewrite Nat.add_0_r.
  - intros [Hpos%bool_decide_eq_true Hk]%andb_true_iff.
    exists "", s. by rewrite Nat.add_0_r.
  - intros [Heol Hk]%andb_true_iff. exists "", s. by rewrite Nat.add_0_r.
  - destruct s as [|c s]; [done|]. intros [Hc Hk]%andb_true_iff.
    exists (String c ""), s. rewrite Nat.add_1_r. split_and!; [done| |done].
    by exists c.
  - apply star_sound.
  - intros [Hr|Hk]%orb_true_iff.
    + destruct (IH _ _ _ Hr) as (u & v & -> & Hu & Hk). exists u, v. auto.
    + exists "", s. rewrite Nat.add_0_r. auto.
  - intros Hr. destruct (IH1 _ _ _ Hr) as (u1 & v1 & -> & Hu1 & Hr2).
    destruct (IH2 _ _ _ Hr2) as (u2 & v & -> & Hu2 & Hk).
    exists (u1 +:+ u2), v. rewrite str_app_assoc, str_app_length, Nat.add_assoc.
    split_and!; [done| |done]. by exists u1, u2.
  - intros [Hr|Hr]%orb_true_iff.
    + destruct (IH1 _ _ _ Hr) as (u & v & -> & Hu & Hk). exists u, v. auto.
    + destruct (IH2 _ _ _ Hr) as (u & v & -> & Hu & Hk). exists u, v. auto.
Qed.

Lemma matches_denotes (r : Re.t) (s : string) :
  Re.matches r s = true → ∃ u v, s = u +:+ v ∧ denotes r 0 u v.
Proof.
  intros (u & v & -> & Hu & _)%run_sound. by exists u, v.
Qed.

Lemma denotes_cat_inv (r1 r2 : Re.t) (pos : nat) (u v : string) :
  denotes (Re.Cat r1 r2) pos u v →
  ∃ u1 u2, u = u1 +:+ u2 ∧ denotes r1 pos u1 (u2 +:+ v)
           ∧ denotes r2 (pos + String.length u1) u2 v.
Proof. done. Qed.

Lemma denotes_alt_inv (r1 r2 : Re.t) (pos : nat) (u v : string) :
  denotes (Re.Alt r1 r2) pos u v → denotes r1 pos u v ∨ denotes r2 pos u v.
Proof. done. Qed.

Lemma denotes_bol_cat (r : Re.t) (pos : nat) (u v : string) :
  denotes (Re.Cat Re.Bol r) pos u v → denotes r pos u v.
Proof.
  intros (u1 & u2 & -> & [_ ->] & Hr). simpl in Hr.
  by rewrite Nat.add_0_r in Hr.
Qed.

Lemma denotes_lit (l : ascii) (pos : nat) (u v : string) :
  denotes (Re.Atom (Re.Lit l)) pos u v →
  ∃ c, u = String c "" ∧ Chars.upper c = Chars.upper l.
Proof. intros (c & -> & Hc%bool_decide_eq_true). by exists c. Qed.

Lemma denotes_opt_lit (l : ascii) (pos : nat) (u v : string) :
  denotes (Re.Opt (Re.Atom (Re.Lit l))) pos u v →
  u = "" ∨ ∃ c, u = String c "" ∧ Chars.upper c = Chars.upper l.
Proof. intros [Hl%denotes_lit| ->]; auto. Qed.

Lemma denotes_plus (a : Re.atom) (pos : nat) (u v : string) :
  denotes (Re.Plus a) pos u v →
  ∃ c ds, u = String c ds ∧ Re.atom_ok a c = true
          ∧ Str.forallb (Re.atom_ok a) ds = true.
Proof.
  intros (u1 & u2 & -> & (c & -> & Hc) & Hds). by exists c, u2.
Qed.

Lemma denotes_word (w : string) (pos : nat) (u v : string) :
  w ≠ "" → denotes (Re.Word w) pos u v → Str.upper u = Str.upper w.
Proof.
  revert pos u. induction w as [|c w IH]; intros pos u Hne; [done|].
  destruct w as [|c' w].
  - intros (d & -> & Hd)%denotes_lit. simpl. by rewrite Hd.
  - change (Re.Word (String c (String c' w)))
      with (Re.Cat (Re.Atom (Re.Lit c)) (Re.Word (String c' w))).
    intros (u1 & u2 & -> & (d & -> & Hd)%denotes_lit & Hw).
    apply IH in Hw; [|done]. rewrite str_app_cons.
    change (Str.upper (String d ("" +:+ u2)))
      with (String (Chars.upper d) (Str.upper u2)).
    by rewrite Hd, Hw.
Qed.

Lemma upper_app (s t : string) : Str.upper (s +:+ t) = Str.upper s +:+ Str.upper t.
Proof.
  induction s as [|c s IH]; [done|]. rewrite str_app_cons. simpl.
  by rewrite IH.
Qed.

Lemma denotes_rail_words (pos : nat) (u v : string) :
  denotes rail_words pos u v →
  Str.upper u ∈ ["GND"; "PGND"; "VSS"; "VCC"; "VDD"; "VEE"; "VBAT"].
Proof.
  unfold rail_words.
  intros [(u1 & u2 & -> & Hp & Hw)%denotes_cat_inv|Hrest]%denotes_alt_inv.
  - apply denotes_word in Hw; [|done]. rewrite upper_app, Hw.
    apply denotes_opt_lit in Hp as [->|(c & -> & Hc)].
    + in_list.
    + simpl. rewrite Hc. in_list.
  - repeat (apply denotes_alt_inv in Hrest as [Hw|Hrest];
            [apply denotes_word in Hw; [|done]; rewrite Hw; in_list|]).
    apply denotes_word in Hrest; [|done]. rewrite Hrest. in_list.
Qed.

Lemma at_eol_cases (s : string) : Re.at_eol s = true → s = "" ∨ s = Str.nl.
Proof.
  destruct s as [|c [|c' s]]; simpl; [by left| |done].
  intros ->%bool_decide_eq_true. by right.
Qed.

(** The characters the literals of the pattern stand for. *)
Lemma lit_cases (c : ascii) :
  (Chars.upper c = Chars.upper "+" → c = "+"%char)
  ∧ (Chars.upper c = Chars.upper "." → c = "."%char)
  ∧ (Chars.upper c = Chars.upper "_" → c = "_"%char)
  ∧ (Chars.upper c = Chars.upper "V" → c = "V"%char ∨ c = "v"%char).
Proof.
  destruct c as [[] [] [] [] [] [] [] []]; vm_compute;
    split_and!; intros; try discriminate; auto.
Qed.

Lemma rail_prefix_sound (name : string) :
  Re.matches rail_prefix_pattern name = true → power_ground_name name.
Proof.
  intros (u & v & -> & Hu%denotes_bol_cat)%matches_denotes.
  apply denotes_cat_inv in Hu as (p & t & -> & Hp%denotes_rail_words & Ht).
  apply denotes_alt_inv in Ht as [[-> Hv%at_eol_cases]|Ht].
  - rewrite str_app_nil_r. apply PG_prefix; [done|]. tauto.
  - apply denotes_cat_inv in Ht as (t1 & t2 & -> & (c & -> & Hc)%denotes_lit & _).
    apply lit_cases in Hc as ->. rewrite !str_app_assoc.
    apply PG_prefix; [done|]. right; right. by exists (t2 +:+ v).
Qed.

Lemma rail_suffix_sound (name : string) :
  Re.matches rail_suffix_pattern name = true → power_ground_name name.
Proof.
  intros (u & v & -> & Hu%denotes_bol_cat)%matches_denotes.
  apply denotes_cat_inv in Hu as (body & u1 & -> & Hbody & Hu).
  apply denotes_cat_inv in Hu as (u2 & u3 & -> & (c & -> & Hc)%denotes_lit & Hu).
  apply denotes_cat_inv in Hu as (w & e & -> & Hw & [-> Hv%at_eol_cases]).
  apply lit_cases in Hc as ->.
  rewrite str_app_nil_r, !str_app_assoc. apply PG_suffix.
  - exact Hbody.
  - apply denotes_alt_inv in Hw as [Hw|Hw];
      [|apply denotes_alt_inv in Hw as [Hw|Hw]];
      apply denotes_word in Hw; try done; rewrite Hw; in_list.
  - destruct Hv as [->| ->]; in_list.
Qed.

Lemma sign_cases (pos : nat) (u v : string) :
  denotes (Re.Opt (Re.Atom (Re.Lit "+"))) pos u v → u ∈ [""; "+"].
Proof.
  intros [->|(c & -> & ->%lit_cases)]%denotes_opt_lit; in_list.
Qed.

Lemma dot_cases (pos : nat) (u v : string) :
  denotes (Re.Opt (Re.Atom (Re.Lit "."))) pos u v → u ∈ [""; "."].
Proof.
  intros [->|(c & -> & ->%lit_cases)]%denotes_opt_lit; in_list.
Qed.

Lemma volt_cases (pos : nat) (u v : string) :
  denotes (Re.Atom (Re.Lit "V")) pos u v → u ∈ ["V"; "v"].
Proof.
  intros (c & -> & [->| ->]%lit_cases)%denotes_lit; in_list.
Qed.

Lemma voltage_sound (name : string) :
  Re.matches voltage_pattern name = true → power_ground_name name.
Proof.
  intros (u & rest & -> & Hu%denotes_bol_cat)%matches_denotes.
  apply denotes_alt_inv in Hu as [Hu|Hu].
  - apply denotes_cat_inv in Hu as (sign & u1 & -> & Hsign%sign_cases & Hu).
    apply denotes_alt_inv in Hu as [Hu|Hu].
    + apply denotes_cat_inv in Hu
        as (whole & u2 & -> & (c & ds & -> & Hc & Hds)%denotes_plus & Hu).
      apply denotes_cat_inv in Hu as (dot & u3 & -> & Hdot%dot_cases & Hu).
      apply denotes_cat_inv in Hu as (frac & u4 & -> & Hfrac & Hu).
      apply denotes_cat_inv in Hu as (v & t & -> & Hv%volt_cases & _).
      rewrite !str_app_assoc. apply PG_rail; try done.
      * rewrite all_digits_forallb.
        change (Re.atom_ok Re.Digit c && Str.forallb (Re.atom_ok Re.Digit) ds = true).
        by rewrite Hc, Hds.
      * by rewrite all_digits_forallb.
      * by left.
    + apply denotes_cat_inv in Hu as (whole & u2 & -> & Hwhole & Hu).
      apply denotes_cat_inv in Hu as (dot & u3 & -> & Hdot%dot_cases & Hu).
      apply denotes_cat_inv in Hu as (frac & u4 & -> & Hfrac & Hu).
      apply denotes_cat_inv in Hu
        as (v & t & -> & Hv%volt_cases & (d & ds & -> & Hd & _)%denotes_plus).
      rewrite !str_app_assoc. apply PG_rail; try done.
      * by rewrite all_digits_forallb.
      * by rewrite all_digits_forallb.
      * right. by exists d, (ds +:+ rest).
  - apply denotes_cat_inv in Hu as (sign & u1 & -> & Hsign%sign_cases & Hu).
    apply denotes_cat_inv in Hu
      as (whole & v & -> & (c & ds & -> & Hc & Hds)%denotes_plus & Hv%volt_cases).
    rewrite !str_app_assoc.
    apply (PG_rail sign (String c ds) "" "" v rest); try done.
    * rewrite all_digits_forallb.
      change (Re.atom_ok Re.Digit c && Str.forallb (Re.atom_ok Re.Digit) ds = true).
      by rewrite Hc, Hds.
    * by left.
    * by left.
Qed.

(** The pattern and the three families describe the same names. *)
Lemma power_pattern_spec (name : string) :
  Re.matches power_pattern name = true ↔ power_ground_name name.
Proof.
  split; [|apply power_ground_name_matches].
  unfold power_pattern. rewrite !matches_alt.
  intros [?|[?|?]%orb_true_iff]%orb_true_iff.
  - by apply rail_prefix_sound.
  - by apply voltage_sound.
  - by apply rail_suffix_sound.
Qed.


Example power_ground_name_plus5V : power_ground_name "+5V".
Proof.
  apply (PG_rail "+" "5" "" "" "V" ""); try done; try in_list.
Qed.

Example power_ground_name_1V8 : power_ground_name "1V8".
Proof.
  apply (PG_rail "" "1" "" "" "V" "8"); try done; try in_list.
Qed.

Example power_ground_name_VBAT_SW : power_ground_name "VBAT_SW".
Proof.
  apply (PG_prefix "VBAT" "_SW"); [in_list|]. right; right. by exists "SW".
Qed.

Example power_ground_name_NET_GND : power_ground_name "NET_GND".
Proof. apply (PG_suffix "NET" "GND" ""); [done|in_list..]. Qed.

(** Names outside the pattern are global only through their size: a rail
    word followed by something else than an underscore, and a name whose
    rail suffix sits on a second line. *)
Example small_nets_not_global :
  map (λ name, is_global (mkNet name {["Main"]} [("U1", "1")]))
      ["GNDA"; "VCC3"; "SIGNAL"; "+V"; "A" +:+ Str.nl +:+ "B_GND"]
  = [false; false; false; false; false].
Proof. by vm_compute. Qed.

Example more_nets_global :
  map (λ name, is_global (mkNet name {["Main"]} [("U1", "1")]))
      ["GND"; "PGND"; "gnd_a"; "3.3V"; "12V"; "5VOLT"; "V1"; "Signal_vcc";
       "GND" +:+ Str.nl]
  = [true; true; true; true; true; true; true; true; true].
Proof. by vm_compute. Qed.




(** * The Librarian *)

Section LibrarianFacts.

Context {P E : Type} `{!SchematicProvider P E}.

Implicit Types (w : @World P) (l : @Librarian P) (e : E).

(** The loop of [refresh] fills the Atlas net by net. *)
Lemma for_each_atlas (ns : list Net) l cs :
  for_each (E := E) ns
    (λ net, write (λ l', set_net_page_map
                          (<[net_name net := net_pages net]> (net_page_map l')) l'))
    (mkWorld l cs)
  = (Return (),
     mkWorld (set_net_page_map
                (foldl (λ m net, <[net_name net := net_pages net]> m)
                       (net_page_map l) ns) l) cs).
Proof.
  revert l. induction ns as [|net ns IH]; intros l.
  - by destruct l.
  - simpl. unfold mbind, M_bind, bind, write at 1. simpl. by rewrite IH.
Qed.

(** [refresh], outcome by outcome. *)
Lemma refresh_unfold w :
  refresh w =
    if negb (dirty (self w)) then (Return (), w)
    else
      let l := self w in
      match fetch_raw_data (provider l) with
      | (Raise e, p1) =>
          (Raise e, mkWorld (set_provider p1 l) (calls w ++ [CallFetchRawData]))
      | (Return _, p1) =>
          match get_components p1 with
          | (Raise e, p2) =>
              (Raise e,
               mkWorld (set_provider p2 l)
                 (calls w ++ [CallFetchRawData; CallGetComponents]))
          | (Return cs, p2) =>
              match get_nets p2 with
              | (Raise e, p3) =>
                  (Raise e,
                   mkWorld (set_provider p3 (set_components cs l))
                     (calls w ++ [CallFetchRawData; CallGetComponents; CallGetNets]))
              | (Return ns, p3) =>
                  (Return (),
                   mkWorld (mkLibrarian p3 false cs ns (atlas_of ns))
                     (calls w ++ [CallFetchRawData; CallGetComponents; CallGetNets]))
              end
          end
      end.
Proof.
  destruct w as [[p d cs0 ns0 m0] log].
  unfold refresh, mbind, M_bind, bind, read, call. simpl.
  destruct d; simpl; [|done].
  destruct (fetch_raw_data p) as [[[]|e] p1]; simpl; [|done].
  destruct (get_components p1) as [[cs|e] p2]; simpl.
  2: { by rewrite <- app_assoc. }
  destruct (get_nets p2) as [[ns|e] p3]; simpl.
  2: { by rewrite <- !app_assoc. }
  unfold write at 1 2. simpl.
  rewrite for_each_atlas. simpl. unfold write, set_dirty. simpl.
  by rewrite <- !app_assoc.
Qed.

Lemma refresh_clean w : dirty (self w) = false → refresh w = (Return (), w).
Proof. intros Hd. by rewrite refresh_unfold, Hd. Qed.

Lemma fetch_count_app (cs1 cs2 : list provider_call) :
  fetch_count (cs1 ++ cs2) = fetch_count cs1 + fetch_count cs2.
Proof. unfold fetch_count. by rewrite filter_app, length_app. Qed.

(** C2: after a refresh that returned, the stale flag is down and another
    refresh changes nothing at all: no provider method is called and the
    cached components, nets and Atlas stay as they are.  The two calls
    together fetch exactly as often as the first one, which is once when the
    Librarian was stale (as a new Librarian is) and not at all otherwise. *)
Theorem refresh_twice_fetches_once w w1 :
  refresh w = (Return (), w1) →
  dirty (self w1) = false
  ∧ refresh w1 = (Return (), w1)
  ∧ (∀ w2, (refresh ;; refresh) w = (Return (), w2) →
       w2 = w1
       ∧ fetch_count (calls w2) =
           fetch_count (calls w) + (if dirty (self w) then 1 else 0))
  ∧ (dirty (self w) = true →
       calls w1 = calls w ++ [CallFetchRawData; CallGetComponents; CallGetNets]).
Proof.
  intros Hrefresh.
  assert (dirty (self w1) = false
          ∧ calls w1 = calls w ++
              (if dirty (self w)
               then [CallFetchRawData; CallGetComponents; CallGetNets] else []))
    as [Hclean Hcalls].
  { rewrite refresh_unfold in Hrefresh.
    destruct (dirty (self w)) eqn:Hd; simpl in Hrefresh.
    - destruct (fetch_raw_data _) as [[[]|e] p1]; [|done].
      destruct (get_components p1) as [[cs|e] p2]; [|done].
      destruct (get_nets p2) as [[ns|e] p3]; [|done].
      by injection Hrefresh as <-.
    - injection Hrefresh as <-. by rewrite Hd, app_nil_r. }
  split_and!.
  - done.
  - by apply refresh_clean.
  - intros w2. unfold mbind, M_bind, bind. rewrite Hrefresh.
    rewrite (refresh_clean w1 Hclean). intros [= <-]. split; [done|].
    rewrite Hcalls, fetch_count_app. by destruct (dirty (self w)).
  - intros Hd. by rewrite Hcalls, Hd.
Qed.

(** C4, as amended: when [refresh] raises, the exception is one a provider
    method raised, the Librarian stays stale, and the cached nets and Atlas
    are the ones from before; the cached components are the ones from before
    when [fetch_raw_data] or [get_components] raised, and the ones just
    returned by [get_components] when [get_nets] raised. *)
Theorem refresh_raise_cache w w' e :
  refresh w = (Raise e, w') →
  dirty (self w) = true
  ∧ dirty (self w') = true
  ∧ nets (self w') = nets (self w)
  ∧ net_page_map (self w') = net_page_map (self w)
  ∧ ((∃ p1, fetch_raw_data (provider (self w)) = (Raise e, p1)
            ∧ components (self w') = components (self w))
     ∨ (∃ p1 p2, fetch_raw_data (provider (self w)) = (Return (), p1)
            ∧ get_components p1 = (Raise e, p2)
            ∧ components (self w') = components (self w))
     ∨ (∃ p1 p2 p3 cs, fetch_raw_data (provider (self w)) = (Return (), p1)
            ∧ get_components p1 = (Return cs, p2)
            ∧ get_nets p2 = (Raise e, p3)
            ∧ components (self w') = cs)).
Proof.
  rewrite refresh_unfold. destruct (dirty (self w)) eqn:Hd; simpl; [|done].
  destruct (fetch_raw_data _) as [[[]|e1] p1] eqn:Hfetch.
  2: { intros [= <- <-]. simpl. split_and!; try done. left. by exists p1. }
  destruct (get_components p1) as [[cs|e2] p2] eqn:Hcomps.
  2: { intros [= <- <-]. simpl. split_and!; try done.
       right; left. by exists p1, p2. }
  destruct (get_nets p2) as [[ns|e3] p3] eqn:Hnets; [done|].
  intros [= <- <-]. simpl. split_and!; try done.
  right; right. by exists p1, p2, p3, cs.
Qed.

(** ** Pages *)

Lemma get_page_unfold (page_name : string) w :
  get_page page_name w =
    match refresh w with
    | (Return _, w1) => (Return (page_text (self w1) page_name), w1)
    | (Raise e, w1) => (Raise e, w1)
    end.
Proof.
  unfold get_page, mbind, M_bind, bind.
  destruct (refresh w) as [[[]|e] w1]; [|done].
  unfold read, page_text. simpl.
  destruct (filter _ (components (self w1))); [|done].
  by destruct (existsb _ (nets (self w1))).
Qed.

Lemma no_component_on_page (page_name : string) (cs : list Component) :
  filter (λ c, page c = page_name) cs = [] ↔ ∀ c, c ∈ cs → page c ≠ page_name.
Proof.
  induction cs as [|c cs IH].
  - split; [|done]. intros _ c Hc. by apply elem_of_nil in Hc.
  - rewrite filter_cons. case_decide as Hc.
    + split; [done|]. intros Hall. exfalso. by apply (Hall c); [left|].
    + rewrite IH. split.
      * intros Hall c' [->|Hin]%elem_of_cons; [done|by apply Hall].
      * intros Hall c' Hin. apply Hall. by right.
Qed.

Lemma no_net_on_page (page_name : string) (ns : list Net) :
  existsb (λ net, bool_decide (page_name ∈ net_pages net)) ns = false
  ↔ ∀ net, net ∈ ns → page_name ∉ net_pages net.
Proof.
  induction ns as [|net ns IH]; simpl.
  - split; [|done]. intros _ net Hnet. by apply elem_of_nil in Hnet.
  - rewrite orb_false_iff, IH, bool_decide_eq_false. split.
    + intros [Hnet Hall] net' [->|Hin]%elem_of_cons; [done|by apply Hall].
    + intros Hall. split; [apply Hall; by left|].
      intros net' Hin. apply Hall. by right.
Qed.

(** A page with components starts with its header and the COMPONENTS
    marker. *)
Lemma emit_page_dsl_head (c : Component) (cs : list Component) (ns : list Net)
    (m : gmap string (gset string)) :
  ∃ rest, emit_page_dsl (c :: cs) ns m =
            "# PAGE: " +:+ page c +:+ Str.nl +:+ Str.nl +:+ "# COMPONENTS" +:+ rest.
Proof.
  unfold emit_page_dsl. cbv zeta.
  set (blocks := match filter _ _ with
                 | [] => _
                 | _ => _
                 end).
  assert (∃ z Z, blocks = ["# PAGE: " +:+ page c; ""; "# COMPONENTS"] ++ z :: Z)
    as (z & Z & ->).
  { unfold blocks. destruct (filter _ _) as [|x X]; simpl; eauto. }
  rewrite <- !app_assoc.
  exists (Str.nl +:+ Str.join Str.nl ((z :: Z) ++ [""] ++ ["# NETS"] ++
            map (λ net, _format_net_block net (default ∅ (m !! net_name net))
                          (sorted_by_str refdes (c :: cs)))
                (sorted_by_str net_name ns))).
  simpl. by rewrite !str_app_assoc.
Qed.





(** C10: on a refreshed cache, a page that no cached component is on but
    some cached net lists is answered with the single line "# No components
    on this page": the nets handed to the emitter are those with a member
    among the components of the page, so none, and no net is rendered. *)
Theorem get_page_nets_only (page_name : string) w w1 :
  refresh w = (Return (), w1) →
  (∀ c, c ∈ components (self w1) → page c ≠ page_name) →
  (∃ net, net ∈ nets (self w1) ∧ page_name ∈ net_pages net) →
  get_page page_name w = (Return ("# No components on this page" +:+ Str.nl), w1)
  ∧ filter (λ net,
              existsb (λ m, bool_decide (m.1 ∈ (list_to_set (map refdes []) : gset string)))
                      (members net) = true)
           (nets (self w1)) = [].
Proof.
  intros Hrefresh Hnone (net & Hnet & Hpage). split.
  - rewrite get_page_unfold, Hrefresh. unfold page_text.
    apply no_component_on_page in Hnone. rewrite Hnone.
    destruct (existsb _ (nets (self w1))) eqn:Hex; [done|].
    exfalso. rewrite no_net_on_page in Hex. by apply (Hex net).
  - clear. induction (nets (self w1)) as [|net' ns IH]; [done|].
    rewrite filter_cons, decide_False; [exact IH|].
    intros (m & _ & Hm%bool_decide_eq_true)%existsb_exists. set_solver.
Qed.

(** ** Context bubbles *)

Lemma get_context_unfold (refdes_list : list string) w :
  get_context refdes_list w =
    match refresh w with
    | (Return _, w1) => (Return (context_text (self w1) refdes_list), w1)
    | (Raise e, w1) => (Raise e, w1)
    end.
Proof.
  unfold get_context, mbind, M_bind, bind.
  destruct (refresh w) as [[[]|e] w1]; [|done].
  unfold read, context_text, context_views, neighbor_components_of,
    context_refdes_of, connected_of, primary_refdes_set_of.
  cbn beta iota zeta. unfold ret, id.
  destruct refdes_list as [|r rs]; [done|].
  by destruct (primary_components_of (self w1) (r :: rs)).
Qed.

(** A query changes the Librarian only through the refresh it starts with. *)
Lemma get_context_state (refdes_list : list string) w :
  (get_context refdes_list w).2 = (refresh w).2.
Proof.
  rewrite get_context_unfold. by destruct (refresh w) as [[[]|e] w1].
Qed.

Lemma context_views_are_views l (refdes_list : list string) :
  Forall2 (is_view_of (context_refdes_of l refdes_list))
    (context_views l refdes_list) (connected_of l refdes_list).
Proof.
  unfold context_views, context_nets_of.
  induction (connected_of l refdes_list) as [|net ns IH]; simpl; constructor;
    [done|apply IH].
Qed.

(** The neighbours of step 3 are all the members that are not primary, so
    the context holds every member of every connected net. *)
Lemma neighbor_fold_members (prs acc : gset string) (ms : list (string * string)) :
  ∀ r, (r ∈ foldl (λ acc m, if decide (m.1 ∉ prs) then acc ∪ {[m.1]} else acc) acc ms)
       ↔ r ∈ acc ∨ ((r ∉ prs) ∧ ∃ m, m ∈ ms ∧ m.1 = r).
Proof.
  revert acc. induction ms as [|m ms IH]; intros acc r; simpl.
  - split; [by left|]. intros [?|(_ & m & Hm & _)]; [done|].
    by apply elem_of_nil in Hm.
  - rewrite IH. split.
    + intros [Hacc|(Hr & m' & Hm' & <-)].
      * case_decide; [|by left].
        apply elem_of_union in Hacc as [?|Heq%elem_of_singleton]; [by left|].
        subst r. right. split; [done|]. exists m. split; [by left|done].
      * right. split; [done|]. exists m'. split; [by right|done].
    + intros [Hacc|(Hr & m' & [->|Hm']%elem_of_cons & <-)].
      * left. case_decide; [apply elem_of_union; by left|done].
      * left. rewrite decide_True by done.
        apply elem_of_union. right. by apply elem_of_singleton.
      * right. split; [done|]. by exists m'.
Qed.

Lemma neighbor_refdes_set_members (prs : gset string) (connected : list Net) :
  ∀ r, (r ∈ neighbor_refdes_set_of connected prs)
       ↔ (r ∉ prs) ∧ ∃ net m, net ∈ connected ∧ m ∈ members net ∧ m.1 = r.
Proof.
  unfold neighbor_refdes_set_of.
  assert (∀ (acc : gset string) r,
    (r ∈ foldl (λ acc net,
                  foldl (λ acc m, if decide (m.1 ∉ prs) then acc ∪ {[m.1]} else acc)
                        acc (members net)) acc connected)
    ↔ r ∈ acc ∨ ((r ∉ prs) ∧ ∃ net m, net ∈ connected ∧ m ∈ members net ∧ m.1 = r))
    as Hfold.
  { induction connected as [|net ns IH]; intros acc r; simpl.
    - split; [by left|]. intros [?|(_ & net & m & Hnet & _)]; [done|].
      by apply elem_of_nil in Hnet.
    - rewrite IH, neighbor_fold_members. split.
      + intros [[?|(Hr & m & Hm & <-)]|(Hr & net' & m & Hnet' & Hm & <-)].
        * by left.
        * right. split; [done|]. exists net, m. split; [by left|done].
        * right. split; [done|]. exists net', m. split; [by right|done].
      + intros [?|(Hr & net' & m & [->|Hnet']%elem_of_cons & Hm & <-)].
        * by left; left.
        * left; right. split; [done|]. by exists m.
        * right. split; [done|]. by exists net', m. }
  intros r. rewrite Hfold. split; [|by right].
  intros [Hempty|?]; [|done]. by apply not_elem_of_empty in Hempty.
Qed.

Lemma filter_all {A : Type} (Q : A → Prop) `{!∀ x, Decision (Q x)} (xs : list A) :
  (∀ x, x ∈ xs → Q x) → filter Q xs = xs.
Proof.
  induction xs as [|x xs IH]; intros Hall; [done|].
  rewrite filter_cons, decide_True by (apply Hall; by left).
  f_equal. apply IH. intros y Hy. apply Hall. by right.
Qed.

Lemma context_views_keep_members l (refdes_list : list string) :
  map members (context_views l refdes_list)
  = map members (connected_of l refdes_list).
Proof.
  unfold context_views, context_nets_of, context_refdes_of.
  set (prs := primary_refdes_set_of l refdes_list).
  assert (∀ net m, net ∈ connected_of l refdes_list → m ∈ members net →
            m.1 ∈ prs ∪ neighbor_refdes_set_of (connected_of l refdes_list) prs)
    as Hcover.
  { intros net m Hnet Hm. apply elem_of_union.
    destruct (decide (m.1 ∈ prs)); [by left|right].
    apply neighbor_refdes_set_members. split; [done|]. by exists net, m. }
  revert Hcover. generalize (neighbor_refdes_set_of (connected_of l refdes_list) prs).
  intros nbrs. induction (connected_of l refdes_list) as [|net ns IH]; intros Hcover.
  - done.
  - simpl. f_equal.
    + apply filter_all. intros m Hm. apply (Hcover net); [by left|done].
    + apply IH. intros net' m Hnet'. apply Hcover. by right.
Qed.


End LibrarianFacts.

Lemma refresh_twice_fetches_once_witness :
  refresh fresh_world = (Return (), (refresh fresh_world).2)
  ∧ ∀ w2, (refresh ;; refresh) fresh_world = (Return (), w2) →
      w2 = (refresh fresh_world).2
      ∧ fetch_count (calls w2) = 1.
Proof.
  assert (refresh fresh_world = (Return (), (refresh fresh_world).2)) as H.
  { reflexivity. }
  split; [exact H|].
  exact (proj1 (proj2 (proj2 (refresh_twice_fetches_once _ _ H)))).
Defined.

(** The first reading of C4 fails: a stale Librarian whose provider serves a
    new revision and then fails in [get_nets] ends up with the new
    components beside the old nets. *)
Lemma keeps_cache_on_raise_counterexample : ¬ keeps_cache_on_raise stale_world.
Proof.
  intros Hkeeps.
  assert (refresh stale_world
          = (Raise "net extraction failed", (refresh stale_world).2)) as Hraise.
  { reflexivity. }
  destruct (Hkeeps _ _ Hraise) as [Hcomponents _].
  apply (f_equal length) in Hcomponents. vm_compute in Hcomponents. discriminate.
Qed.

Lemma refresh_raise_cache_witness :
  refresh stale_world = (Raise "net extraction failed", (refresh stale_world).2)
  ∧ nets (self (refresh stale_world).2) = nets (self stale_world)
  ∧ components (self (refresh stale_world).2) = [u1; r1; r2; j1].
Proof.
  assert (refresh stale_world
          = (Raise "net extraction failed", (refresh stale_world).2)) as H.
  { reflexivity. }
  split; [exact H|].
  split; [exact (proj1 (proj2 (proj2 (refresh_raise_cache _ _ _ H))))|].
  reflexivity.
Defined.



Lemma get_page_nets_only_witness :
  get_page "Power" fresh_world
  = (Return ("# No components on this page" +:+ Str.nl), (refresh fresh_world).2).
Proof.
  assert (refresh fresh_world = (Return (), (refresh fresh_world).2)) as Hr.
  { reflexivity. }
  refine (proj1 (get_page_nets_only "Power" _ _ Hr _ _)).
  - intros c Hc. vm_compute in Hc.
    repeat (apply elem_of_cons in Hc as [->|Hc]; [discriminate|]).
    by apply elem_of_nil in Hc.
  - exists net_3v3. split.
    + vm_compute. right. left.
    + apply (bool_decide_unpack _). vm_compute. exact I.
Defined.

(** * Part III: further properties of the code *)

(** ** The emitter *)

Lemma elem_of_concat {A : Type} (x : A) (xss : list (list A)) :
  x ∈ concat xss ↔ ∃ xs, x ∈ xs ∧ xs ∈ xss.
Proof.
  induction xss as [|xs xss IH]; simpl.
  - split; [by intros ?%elem_of_nil|]. intros (xs & _ & Hxs). by apply elem_of_nil in Hxs.
  - rewrite elem_of_app, IH. split.
    + intros [?|(ys & ? & ?)].
      * exists xs. split; [done|by left].
      * exists ys. split; [done|by right].
    + intros (ys & Hx & [->|?]%elem_of_cons); [by left|].
      right. by exists ys.
Qed.

(** *** Joining blocks *)

Lemma join_cons (sep x : string) (xs : list string) :
  xs ≠ [] → Str.join sep (x :: xs) = x +:+ sep +:+ Str.join sep xs.
Proof. by destruct xs. Qed.

Lemma join_app (sep : string) (xs ys : list string) :
  xs ≠ [] → ys ≠ [] →
  Str.join sep (xs ++ ys) = Str.join sep xs +:+ sep +:+ Str.join sep ys.
Proof.
  intros Hxs Hys. induction xs as [|x xs IH]; [done|].
  destruct xs as [|x' xs].
  - change ([x] ++ ys) with (x :: ys). by rewrite join_cons.
  - change ((x :: x' :: xs) ++ ys) with (x :: ((x' :: xs) ++ ys)).
    rewrite !join_cons by done. rewrite IH by done.
    by rewrite !str_app_assoc.
Qed.

(** Joining texts that are themselves joined lines is joining all the
    lines. *)
Lemma join_blocks (sep : string) (blocks : list (list string)) :
  Forall (λ b, b ≠ []) blocks →
  Str.join sep (map (Str.join sep) blocks) = Str.join sep (concat blocks).
Proof.
  induction 1 as [|b blocks Hb Hblocks IH]; [done|].
  destruct blocks as [|b' blocks].
  - simpl. by rewrite app_nil_r.
  - change (map (Str.join sep) (b :: b' :: blocks))
      with (Str.join sep b :: map (Str.join sep) (b' :: blocks)).
    rewrite join_cons by done. rewrite IH.
    change (concat (b :: b' :: blocks)) with (b ++ concat (b' :: blocks)).
    rewrite join_app; [done|done|].
    apply Forall_cons in Hblocks as [Hb' _]. simpl. by destruct b'.
Qed.

Lemma component_block_lines_head (c : Component) :
  ∃ rest, component_block_lines c =
            (if Str.truthy (description c)
             then "DEF " +:+ derived_type c +:+ " " +:+ description c
             else "DEF " +:+ derived_type c)
            :: ("COMP " +:+ refdes c +:+ " (" +:+ value c +:+ ")") :: rest.
Proof.
  unfold component_block_lines. cbv zeta.
  destruct (Str.truthy (mpn c)), (Str.truthy (footprint c)), (pins c);
    simpl; by eexists.
Qed.

Lemma net_block_lines_head (net : Net) (np : gset string) (cs : list Component) :
  ∃ rest, net_block_lines net np cs = ("NET " +:+ net_name net) :: rest.
Proof.
  unfold net_block_lines. cbv zeta.
  destruct (is_global net), (bool_decide (1 < size np)); simpl; by eexists.
Qed.


Lemma sorted_by_str_perm {A : Type} (key : A → string) (xs : list A) :
  sorted_by_str key xs ≡ₚ xs.
Proof. apply stable_sort_perm. Qed.



(** *** The order of the input does not matter *)

Lemma sorted_str_perm_eq (xs ys : list string) :
  xs ≡ₚ ys → sorted_str xs = sorted_str ys.
Proof.
  intros Hperm.
  apply (StronglySorted_unique_strong (λ a b, String.leb a b = true)).
  - intros x y _ _. apply String.leb_antisym.
  - apply sorted_str_StronglySorted.
  - apply sorted_str_StronglySorted.
  - by rewrite !sorted_str_perm.
Qed.

Lemma sorted_by_str_StronglySorted {A : Type} (key : A → string) (xs : list A) :
  StronglySorted (λ a b, String.leb (key a) (key b) = true) (sorted_by_str key xs).
Proof.
  apply (stable_sort_StronglySorted (λ a b, String.leb (key a) (key b))).
  - intros x y. apply string_leb_total.
  - intros x y z. apply string_leb_trans.
Qed.

Lemma key_injective {A : Type} (key : A → string) (xs : list A) (x y : A) :
  NoDup (map key xs) → x ∈ xs → y ∈ xs → key x = key y → x = y.
Proof.
  induction xs as [|z xs IH]; intros Hnd Hx Hy Hkey; [by apply elem_of_nil in Hx|].
  simpl in Hnd. apply NoDup_cons in Hnd as [Hz Hnd].
  apply elem_of_cons in Hx as [->|Hx], Hy as [->|Hy]; [done| | |by apply IH].
  - exfalso. apply Hz. rewrite Hkey. by apply list_elem_of_fmap_2.
  - exfalso. apply Hz. rewrite <- Hkey. by apply list_elem_of_fmap_2.
Qed.

Lemma sorted_by_str_perm_eq {A : Type} (key : A → string) (xs ys : list A) :
  xs ≡ₚ ys → NoDup (map key xs) → sorted_by_str key xs = sorted_by_str key ys.
Proof.
  intros Hperm Hnd.
  apply (StronglySorted_unique_strong (λ a b, String.leb (key a) (key b) = true)).
  - intros x y Hx Hy Hxy Hyx.
    apply (key_injective key xs); [done| | |by apply String.leb_antisym].
    + by rewrite sorted_by_str_perm in Hx.
    + by rewrite sorted_by_str_perm, <- Hperm in Hy.
  - apply sorted_by_str_StronglySorted.
  - apply sorted_by_str_StronglySorted.
  - by rewrite !sorted_by_str_perm.
Qed.

Lemma is_global_members_perm (net net' : Net) :
  net_name net = net_name net' → net_pages net = net_pages net' →
  members net ≡ₚ members net' → is_global net = is_global net'.
Proof.
  intros Hname Hpages Hmembers. unfold is_global.
  by rewrite Hname, Hpages, (Permutation_length Hmembers).
Qed.

(** X13: a net block does not depend on the order in which the members of
    the net are listed. *)
Theorem net_block_member_order (net net' : Net) (np : gset string)
    (cs : list Component) :
  net_name net = net_name net' →
  net_pages net = net_pages net' →
  members net ≡ₚ members net' →
  _format_net_block net np cs = _format_net_block net' np cs.
Proof.
  intros Hname Hpages Hmembers.
  pose proof (is_global_members_perm net net' Hname Hpages Hmembers) as Hglobal.
  assert (pin_refs net cs = pin_refs net' cs) as Hrefs.
  { unfold pin_refs. apply sorted_str_perm_eq. by apply Permutation_map. }
  unfold _format_net_block, net_block_lines, con_str. cbv zeta.
  by rewrite Hname, Hglobal, Hrefs.
Qed.

Lemma net_block_member_order_witness :
  _format_net_block net_uart {["Main"; "IO"]} [u1; r1; j1]
  = _format_net_block
      (mkNet "UART_TX" {["Main"; "IO"]} [("J1", "1"); ("U1", "2"); ("R1", "2")])
      {["Main"; "IO"]} [u1; r1; j1].
Proof.
  apply net_block_member_order; [reflexivity|reflexivity|].
  symmetry. exact (Permutation_cons_append [("U1", "2"); ("R1", "2")] ("J1", "1")).
Defined.

(** X14: with reference designators and net names that are unique, the text
    of a page and the text of a context bubble do not depend on the order in
    which components and nets are handed to the emitter (the components of a
    page being all on that page). *)
Theorem emitters_ignore_input_order (cs cs' nbrs nbrs' : list Component)
    (ns ns' : list Net) (m : gmap string (gset string)) :
  cs ≡ₚ cs' → nbrs ≡ₚ nbrs' → ns ≡ₚ ns' →
  NoDup (map refdes cs) → NoDup (map refdes nbrs) → NoDup (map net_name ns) →
  ((∀ c c', c ∈ cs → c' ∈ cs → page c = page c') →
   emit_page_dsl cs ns m = emit_page_dsl cs' ns' m)
  ∧ emit_context_dsl cs nbrs ns = emit_context_dsl cs' nbrs' ns'.
Proof.
  intros Hcs Hnbrs Hns Hndc Hndn Hndnet.
  pose proof (sorted_by_str_perm_eq refdes cs cs' Hcs Hndc) as Hsc.
  pose proof (sorted_by_str_perm_eq refdes nbrs nbrs' Hnbrs Hndn) as Hsn.
  pose proof (sorted_by_str_perm_eq net_name ns ns' Hns Hndnet) as Hsnet.
  split.
  - intros Hpage. unfold emit_page_dsl.
    destruct cs as [|c cs], cs' as [|c' cs'].
    + done.
    + by apply Permutation_nil_l in Hcs.
    + by apply Permutation_nil_r in Hcs.
    + rewrite Hsc, Hsnet. cbv zeta.
      assert (page c = page c') as ->; [|done].
      apply Hpage; [by left|]. rewrite Hcs. by left.
  - unfold emit_context_dsl.
    destruct cs as [|c cs], cs' as [|c' cs'].
    + done.
    + by apply Permutation_nil_l in Hcs.
    + by apply Permutation_nil_r in Hcs.
    + by rewrite Hsc, Hsn, Hsnet.
Qed.

Lemma emitters_ignore_input_order_witness :
  emit_page_dsl [u1; r1] [net_uart; net_3v3] ∅
  = emit_page_dsl [r1; u1] [net_3v3; net_uart] ∅.
Proof.
  refine (proj1 (emitters_ignore_input_order [u1; r1] [r1; u1] [] []
                   [net_uart; net_3v3] [net_3v3; net_uart] ∅ _ _ _ _ _ _) _).
  - apply perm_swap.
  - done.
  - apply perm_swap.
  - apply (bool_decide_unpack _). by vm_compute.
  - constructor.
  - apply (bool_decide_unpack _). by vm_compute.
  - intros c c' Hc Hc'.
    apply elem_of_cons in Hc as [->|Hc]; [|apply elem_of_cons in Hc as [->|Hc]];
      try (by apply elem_of_nil in Hc);
      apply elem_of_cons in Hc' as [->|Hc']; try done;
      apply elem_of_cons in Hc' as [->|Hc']; try done;
      by apply elem_of_nil in Hc'.
Defined.

(** *** Natural order of designators *)

Lemma split_runs_all_digits (cur s : string) :
  Str.all_digits s = true → split_runs true cur s = [cur +:+ s; ""].
Proof.
  revert cur. induction s as [|c s IH]; intros cur; simpl.
  - by rewrite str_app_nil_r.
  - intros [-> Hs]%andb_true_iff. rewrite IH by done.
    by rewrite str_app_assoc.
Qed.

Lemma natural_sort_key_number (d : string) :
  Str.isdigit d = true → _natural_sort_key d = [KStr ""; KInt (Str.int d); KStr ""].
Proof.
  intros Hd. unfold _natural_sort_key, re_split_digits.
  destruct d as [|c s]; [done|]. simpl in Hd.
  pose proof Hd as [Hc Hs]%andb_true_iff.
  simpl. rewrite Hc, split_runs_all_digits by done. simpl.
  unfold atoi at 2. change (String c "" +:+ s) with (String c s).
  change (Str.isdigit (String c s)) with (Chars.isdigit c && Str.all_digits s).
  by rewrite Hd.
Qed.

Lemma split_runs_text_head (cur s : string) :
  ∃ t rest, split_runs false cur s = (cur +:+ t) :: rest.
Proof.
  revert cur. induction s as [|c s IH]; intros cur; simpl.
  - exists "", []. by rewrite str_app_nil_r.
  - destruct (Chars.isdigit c).
    + exists "". eexists. by rewrite str_app_nil_r.
    + destruct (IH (cur +:+ String c "")) as (t & rest & ->).
      exists (String c t), rest. by rewrite str_app_assoc.
Qed.

Lemma natural_sort_key_text (s : string) :
  starts_without_digit s →
  ∃ c t rest, _natural_sort_key s = KStr (String c t) :: rest.
Proof.
  destruct s as [|c s]; [done|]. simpl. intros Hc.
  unfold _natural_sort_key, re_split_digits. simpl. rewrite Hc.
  destruct (split_runs_text_head ("" +:+ String c "") s) as (t & rest & ->).
  exists c, t, (map atoi rest). simpl. f_equal.
  unfold atoi. change (("" +:+ String c "") +:+ t) with (String c t).
  simpl. by rewrite Hc.
Qed.

Lemma natural_le_total (d1 d2 : string) : natural_le d1 d2 ∨ natural_le d2 d1.
Proof.
  unfold natural_le.
  destruct (natural_keys_comparable d2 d1) as [[] Hr]; [|by left].
  right. by apply key_lt_asym.
Qed.

(** X15: designators in ASCII whose digit runs are within the limit of
    [int] have keys, and any two of these keys can be compared; designators
    that are numbers are then ordered by their value, and a number comes before
    every designator that begins with something else than a digit. *)
Theorem natural_order_of_numbers (d1 d2 s : string) :
  sortable d1 → sortable d2 → sortable s →
  Checked._natural_sort_key d1 = Return (_natural_sort_key d1)
  ∧ Checked._natural_sort_key d2 = Return (_natural_sort_key d2)
  ∧ Checked._natural_sort_key s = Return (_natural_sort_key s)
  ∧ (∃ smaller, key_lt (_natural_sort_key d1) (_natural_sort_key d2) = Some smaller)
  ∧ (natural_le d1 d2 ∨ natural_le d2 d1)
  ∧ (Str.isdigit d1 = true → Str.isdigit d2 = true →
     (natural_le d1 d2 ↔ (Str.int d1 ≤ Str.int d2)%N))
  ∧ (Str.isdigit d1 = true → starts_without_digit s →
     natural_le d1 s ∧ ¬ natural_le s d1).
Proof.
  intros [_ Hd1] [_ Hd2] [_ Hs]. split_and!.
  - by apply checked_key_Return.
  - by apply checked_key_Return.
  - by apply checked_key_Return.
  - apply natural_keys_comparable.
  - apply natural_le_total.
  - intros H1 H2. unfold natural_le.
    rewrite !natural_sort_key_number by done. simpl.
    destruct (decide (KInt (Str.int d2) = KInt (Str.int d1))) as [[= Heq]|Hne].
    + split; [lia|done].
    + split.
      * intros [= Hlt%N.ltb_ge]. done.
      * intros Hle. f_equal. apply N.ltb_ge. done.
  - intros H1 (c & t & rest & Hrest)%natural_sort_key_text. unfold natural_le.
    rewrite Hrest, natural_sort_key_number by done. simpl.
    split; [done|]. done.
Qed.

Lemma natural_order_of_numbers_witness :
  sortable "9" ∧ sortable "10" ∧ sortable "A1"
  ∧ Str.isdigit "9" = true ∧ Str.isdigit "10" = true ∧ starts_without_digit "A1"
  ∧ natural_le "9" "10" ∧ natural_le "10" "A1" ∧ ¬ natural_le "A1" "10".
Proof.
  assert (sortable "9") as S9 by (apply (bool_decide_unpack _); by vm_compute).
  assert (sortable "10") as S10 by (apply (bool_decide_unpack _); by vm_compute).
  assert (sortable "A1") as SA by (apply (bool_decide_unpack _); by vm_compute).
  assert (Str.isdigit "9" = true) as H9 by reflexivity.
  assert (Str.isdigit "10" = true) as H10 by reflexivity.
  assert (starts_without_digit "A1") as HA by reflexivity.
  split; [exact S9|]. split; [exact S10|]. split; [exact SA|].
  split; [exact H9|]. split; [exact H10|]. split; [exact HA|].
  destruct (natural_order_of_numbers "9" "10" "A1" S9 S10 SA)
    as (_ & _ & _ & _ & _ & Hvalue & _).
  destruct (natural_order_of_numbers "10" "9" "A1" S10 S9 SA)
    as (_ & _ & _ & _ & _ & _ & Hfirst).
  split.
  - apply (Hvalue H9 H10). vm_compute. discriminate.
  - exact (Hfirst H10 HA).
Defined.

(** *** Component blocks *)

(** X16: for a component whose reference designator is in ASCII and whose
    pin designators are in ASCII and within the limit of [int], so that
    sorting its pins does not raise, the block is
    the DEF line and the COMP line, an MPN line and an FP line exactly when
    these fields are not empty, and, when the component has pins, a PINS line
    followed by one line per pin: every pin once, in the natural order of the
    designators. *)
Theorem component_block_structure (c : Component) :
  Str.isascii (refdes c) = true →
  Forall (λ pin, sortable (designator pin)) (pins c) →
  ∃ sorted_pins,
    Checked.sorted_natural designator (pins c) = Return sorted_pins
    ∧ component_block_lines c =
        [ if Str.truthy (description c)
          then "DEF " +:+ derived_type c +:+ " " +:+ description c
          else "DEF " +:+ derived_type c;
          "COMP " +:+ refdes c +:+ " (" +:+ value c +:+ ")" ]
        ++ (if decide (mpn c = "") then [] else ["  MPN: " +:+ mpn c])
        ++ (if decide (footprint c = "") then [] else ["  FP: " +:+ footprint c])
        ++ (if decide (pins c = []) then []
            else "  PINS:" :: map pin_line sorted_pins)
    ∧ sorted_pins ≡ₚ pins c
    ∧ StronglySorted (λ p q, natural_le (designator p) (designator q)) sorted_pins.
Proof.
  intros _ Hsortable.
  exists (sorted_natural designator (pins c)). split_and!.
  - apply checked_sorted_Return. eapply Forall_impl; [exact Hsortable|].
    by intros pin [_ ?].
  - unfold component_block_lines. cbv zeta.
    destruct (mpn c) as [|? ?], (footprint c) as [|? ?], (pins c) as [|? ?];
      simpl; rewrite ?decide_True by done; rewrite ?decide_False by done;
      by rewrite <- ?app_assoc.
  - apply sorted_natural_perm.
  - apply sorted_natural_StronglySorted.
Qed.

Lemma component_block_structure_witness :
  Str.isascii (refdes u1) = true
  ∧ Forall (λ pin, sortable (designator pin)) (pins u1)
  ∧ Checked.sorted_natural designator (pins u1) = Return (pins u1)
  ∧ component_block_lines u1
    = ["DEF IC MCU"; "COMP U1 (STM32)"; "  MPN: STM32F103"; "  FP: LQFP-48";
       "  PINS:"; "    1: VDD"; "    2: PA9_TX"; "    3: VSS"].
Proof.
  assert (Forall (λ pin, sortable (designator pin)) (pins u1)) as Hsortable.
  { apply (bool_decide_unpack _). by vm_compute. }
  assert (Str.isascii (refdes u1) = true) as Hascii by reflexivity.
  split; [exact Hascii|]. split; [exact Hsortable|].
  destruct (component_block_structure u1 Hascii Hsortable)
    as (sorted & Hsorted & Hlines & _).
  assert (Checked.sorted_natural designator (pins u1) = Return (pins u1)) as Hcompute
    by (by vm_compute).
  split; [exact Hcompute|].
  rewrite Hcompute in Hsorted. injection Hsorted as <-.
  rewrite Hlines. by vm_compute.
Defined.

(** *** Simple components *)

Lemma simple_component_pins (c : Component) (pin : Pin) :
  is_complex c = false → pin ∈ pins c → ¬ semantic_name (pin_name pin).
Proof.
  unfold is_complex. case_decide; [done|]. cbv zeta.
  intros Hexists Hpin [Hne Hnotin].
  assert (existsb (λ pin, Str.truthy (pin_name pin)
                          && negb (bool_decide
                                     (pin_name pin ∈ ["1"; "2"; "3"; "4"; "A"; "K"; ""])))
                  (pins c) = true) as Htrue; [|congruence].
  apply existsb_exists. exists pin. split; [by apply list_elem_of_In|].
  apply andb_true_iff. split; [by apply str_truthy_ne|].
  apply negb_true_iff, bool_decide_eq_false. intros Hin. apply Hnotin.
  repeat (apply elem_of_cons in Hin as [Hin|Hin]; [rewrite Hin; in_list|]).
  apply elem_of_cons in Hin as [Hin|Hin]; [done|by apply elem_of_nil in Hin].
Qed.

Lemma find_elem_of {A : Type} (f : A → bool) (xs : list A) (x : A) :
  find f xs = Some x → x ∈ xs.
Proof.
  induction xs as [|y xs IH]; simpl; [done|].
  destruct (f y); [intros [= ->]; by left|]. intros ?. right. by apply IH.
Qed.

(** X17: a component with more than four pins is complex whatever its pins
    are called; and a net line never shows a pin name for a component that
    is not complex, so leaving such a component out of the COMPONENTS section
    loses no pin name. *)
Theorem simple_components_have_plain_references (c : Component) :
  (4 < length (pins c) → is_complex c = true)
  ∧ (is_complex c = false →
     ∀ (components : list Component) (pin_designator : string),
       find (λ comp, bool_decide (refdes comp = refdes c)) components = Some c →
       _format_pin_reference (refdes c) pin_designator components
       = plain_ref (refdes c) pin_designator).
Proof.
  split.
  - intros Hpins. unfold is_complex. by rewrite decide_True.
  - intros Hsimple components p Hfind.
    rewrite format_pin_reference_cases. unfold lookup_pin. rewrite Hfind. simpl.
    destruct (find _ (pins c)) as [pin|] eqn:Hpin; [|done].
    rewrite decide_False; [done|].
    apply (simple_component_pins c); [done|]. by apply find_elem_of in Hpin.
Qed.

Lemma simple_components_have_plain_references_witness :
  is_complex r1 = false
  ∧ _format_pin_reference "R1" "2" [u1; r1; j1] = "R1.2".
Proof.
  assert (is_complex r1 = false) as Hsimple by reflexivity.
  split; [exact Hsimple|].
  apply (proj2 (simple_components_have_plain_references r1) Hsimple [u1; r1; j1] "2").
  reflexivity.
Defined.

(** *** Global nets *)

(** X18: a net whose name is in ASCII is global exactly when the name
    belongs to one of the three families of power and ground names, or the net
    has more than 15 members, or it is on more than 3 pages. *)
Theorem is_global_iff (net : Net) :
  Str.isascii (net_name net) = true →
  is_global net = true
  ↔ power_ground_name (net_name net)
    ∨ 15 < length (members net)
    ∨ 3 < size (net_pages net).
Proof.
  intros _. rewrite <- power_pattern_spec. unfold is_global.
  destruct (Re.matches power_pattern (net_name net)); [by split; [left|]|].
  repeat case_decide; split; try done; try tauto; intros [|[|]]; done || lia.
Qed.

Lemma is_global_iff_witness :
  Str.isascii (net_name net_uart) = true
  ∧ is_global net_uart = false
  ∧ ¬ power_ground_name "UART_TX".
Proof.
  assert (Str.isascii (net_name net_uart) = true) as Hascii by reflexivity.
  assert (is_global net_uart = false) as Hlocal by (by vm_compute).
  split; [exact Hascii|]. split; [exact Hlocal|].
  intros Hname.
  assert (is_global net_uart = true) as Hglobal.
  { apply (is_global_iff net_uart Hascii). by left. }
  rewrite Hlocal in Hglobal. discriminate.
Defined.

(** *** Context bubbles *)

Lemma emit_context_dsl_lines (c : Component) (cs nbrs : list Component)
    (ns : list Net) :
  emit_context_dsl (c :: cs) nbrs ns
  = Str.join Str.nl (context_lines (c :: cs) nbrs ns).
Proof.
  unfold emit_context_dsl, context_lines. cbv zeta.
  set (sorted := sorted_by_str refdes (c :: cs)).
  set (neighbors := sorted_by_str refdes nbrs).
  set (complex := filter (λ c0, is_complex c0 = true) sorted).
  set (blocks := map (λ net, net_block_lines net (net_pages net) (sorted ++ neighbors))
                     (sorted_by_str net_name ns)).
  assert (map (λ net, _format_net_block net (net_pages net) (sorted ++ neighbors))
              (sorted_by_str net_name ns)
          = map (Str.join Str.nl) blocks) as ->.
  { unfold blocks. by rewrite map_map. }
  assert (Forall (λ b, b ≠ []) blocks) as Hblocks.
  { unfold blocks. apply Forall_map, Forall_forall. intros net _.
    by destruct (net_block_lines_head net (net_pages net) (sorted ++ neighbors))
      as [rest ->]. }
  transitivity (Str.join Str.nl (map (Str.join Str.nl)
    ([["# CONTEXT: " +:+ Str.join ", " (map refdes sorted)]; [""]; ["# COMPONENTS"]]
     ++ map component_block_lines complex
     ++ [[""]]
     ++ match neighbors with
        | [] => []
        | _ :: _ => [["# CONTEXT_NEIGHBORS"]]
                    ++ map (λ n, [_format_neighbor_summary n]) neighbors ++ [[""]]
        end
     ++ [["# NETS"]] ++ blocks))).
  { f_equal. unfold _format_component_block.
    destruct neighbors as [|n neighbors'].
    - rewrite !map_app, !map_map. simpl. by rewrite <- !app_assoc.
    - rewrite !map_app, !map_map. simpl. rewrite <- !app_assoc. simpl.
      by rewrite <- !app_assoc. }
  rewrite join_blocks.
  - f_equal. rewrite !concat_app. simpl.
    destruct neighbors as [|n neighbors']; [done|].
    rewrite ?concat_app. simpl. rewrite ?concat_app. simpl.
    assert (∀ xs : list Component,
      concat (map (λ n0, [_format_neighbor_summary n0]) xs)
      = map _format_neighbor_summary xs) as ->; [|done].
    intros xs. induction xs as [|x xs IH]; [done|]. simpl. by rewrite IH.
  - repeat (apply Forall_app; split); try done.
    + by repeat constructor.
    + apply Forall_map, Forall_forall. intros cx _.
      by destruct (component_block_lines_head cx) as [rest ->].
    + by repeat constructor.
    + destruct neighbors as [|n neighbors']; [done|].
      repeat (apply Forall_app; split); try by repeat constructor.
      apply Forall_map, Forall_forall. by intros.
    + by repeat constructor.
Qed.




(** ** The other queries of the Librarian *)

Section MoreLibrarianFacts.

Context {P E : Type} `{!SchematicProvider P E}.

Implicit Types (w : @World P) (l : @Librarian P) (e : E).

Lemma refresh_return_clean w w1 :
  refresh w = (Return (), w1) → dirty (self w1) = false.
Proof.
  rewrite refresh_unfold. destruct (dirty (self w)) eqn:Hd; simpl.
  - destruct (fetch_raw_data _) as [[[]|e] p1]; [|done].
    destruct (get_components p1) as [[cs|e] p2]; [|done].
    destruct (get_nets p2) as [[ns|e] p3]; [|done].
    by intros [= <-].
  - by intros [= <-].
Qed.

Lemma get_index_unfold w :
  get_index w =
    match refresh w with
    | (Return _, w1) =>
        (Return (match components (self w1), nets (self w1) with
                 | [], [] => empty_index
                 | _, _ => Str.join Str.nl (index_lines (self w1))
                 end), w1)
    | (Raise e, w1) => (Raise e, w1)
    end.
Proof.
  unfold get_index, mbind, M_bind, bind.
  destruct (refresh w) as [[[]|e] w1]; [|done].
  unfold read, id. simpl.
  by destruct (components (self w1)), (nets (self w1)).
Qed.

Lemma get_all_pages_unfold w :
  get_all_pages w =
    match refresh w with
    | (Return _, w1) => (Return (sorted_str (elements (pages_of (self w1)))), w1)
    | (Raise e, w1) => (Raise e, w1)
    end.
Proof.
  unfold get_all_pages, mbind, M_bind, bind.
  by destruct (refresh w) as [[[]|e] w1].
Qed.

Lemma get_component_unfold (r : string) w :
  get_component r w =
    match refresh w with
    | (Return _, w1) =>
        (Return (find (λ comp, bool_decide (refdes comp = r)) (components (self w1))), w1)
    | (Raise e, w1) => (Raise e, w1)
    end.
Proof.
  unfold get_component, mbind, M_bind, bind.
  by destruct (refresh w) as [[[]|e] w1].
Qed.

Lemma get_net_unfold (n : string) w :
  get_net n w =
    match refresh w with
    | (Return _, w1) =>
        (Return (find (λ net, bool_decide (net_name net = n)) (nets (self w1))), w1)
    | (Raise e, w1) => (Raise e, w1)
    end.
Proof.
  unfold get_net, mbind, M_bind, bind.
  by destruct (refresh w) as [[[]|e] w1].
Qed.

Lemma get_stats_unfold w :
  get_stats w =
    match refresh w with
    | (Return _, w1) =>
        (Return (mkStats (length (components (self w1))) (length (nets (self w1)))
                   (length (sorted_str (elements (pages_of (self w1)))))
                   (length (filter (λ net, is_inter_page net = true) (nets (self w1))))
                   (length (filter (λ net, is_global net = true) (nets (self w1))))),
         w1)
    | (Raise e, w1) => (Raise e, w1)
    end.
Proof.
  unfold get_stats, mbind, M_bind, bind.
  destruct (refresh w) as [[[]|e] w1] eqn:Hrefresh; [|done].
  unfold read at 1, id. simpl.
  rewrite get_all_pages_unfold, (refresh_clean w1); [done|].
  by apply (refresh_return_clean w).
Qed.

(** *** Pages *)

Lemma fold_component_pages (acc : gset string) (cs : list Component) (p : string) :
  p ∈ foldl (λ pages comp, pages ∪ {[page comp]}) acc cs
  ↔ p ∈ acc ∨ ∃ c, c ∈ cs ∧ page c = p.
Proof.
  revert acc. induction cs as [|c cs IH]; intros acc; simpl.
  - split; [by left|]. intros [?|(c & Hc & _)]; [done|]. by apply elem_of_nil in Hc.
  - rewrite IH, elem_of_union, elem_of_singleton. split.
    + intros [[?| ->]|(c' & Hc' & <-)].
      * by left.
      * right. exists c. split; [by left|done].
      * right. exists c'. split; [by right|done].
    + intros [?|(c' & [->|Hc']%elem_of_cons & <-)].
      * by left; left.
      * by left; right.
      * right. by exists c'.
Qed.

Lemma fold_net_pages (acc : gset string) (ns : list Net) (p : string) :
  p ∈ foldl (λ pages net, pages ∪ net_pages net) acc ns
  ↔ p ∈ acc ∨ ∃ net, net ∈ ns ∧ p ∈ net_pages net.
Proof.
  revert acc. induction ns as [|net ns IH]; intros acc; simpl.
  - split; [by left|]. intros [?|(net & Hnet & _)]; [done|].
    by apply elem_of_nil in Hnet.
  - rewrite IH, elem_of_union. split.
    + intros [[?|?]|(net' & Hnet' & ?)].
      * by left.
      * right. exists net. split; [by left|done].
      * right. exists net'. split; [by right|done].
    + intros [?|(net' & [->|Hnet']%elem_of_cons & ?)].
      * by left; left.
      * by left; right.
      * right. by exists net'.
Qed.

Lemma pages_of_known l (p : string) : p ∈ pages_of l ↔ known_page l p.
Proof.
  unfold pages_of, known_page. cbv zeta.
  rewrite fold_net_pages, fold_component_pages. split.
  - intros [[Hempty|?]|?]; [by apply not_elem_of_empty in Hempty|by left|by right].
  - intros [?|?]; [left; by right|by right].
Qed.

Lemma sorted_str_NoDup (xs : list string) : NoDup xs → NoDup (sorted_str xs).
Proof. intros Hxs. by rewrite sorted_str_perm. Qed.

(** X2: [get_all_pages] returns, in ascending order and without repeats,
    exactly the pages that carry a cached component or are listed by a cached
    net. *)
Theorem get_all_pages_spec w w1 :
  refresh w = (Return (), w1) →
  ∃ pages,
    get_all_pages w = (Return pages, w1)
    ∧ (∀ p, p ∈ pages ↔ known_page (self w1) p)
    ∧ StronglySorted (λ a b, String.leb a b = true) pages
    ∧ NoDup pages.
Proof.
  intros Hrefresh. exists (sorted_str (elements (pages_of (self w1)))). split_and!.
  - by rewrite get_all_pages_unfold, Hrefresh.
  - intros p. rewrite sorted_str_perm, elem_of_elements. apply pages_of_known.
  - apply sorted_str_StronglySorted.
  - apply sorted_str_NoDup, NoDup_elements.
Qed.

(** *** The index *)

Lemma count_up_lookup (key : string) (m : gmap string nat) (p : string) :
  count_up key m !! p =
    if decide (key = p) then Some (default 0 (m !! p) + 1) else m !! p.
Proof.
  unfold count_up. case_decide as Hkey.
  - subst. by rewrite lookup_insert_eq.
  - by rewrite lookup_insert_ne.
Qed.

Lemma fold_counts_default {A : Type} (key : A → string) (xs : list A)
    (m : gmap string nat) (p : string) :
  default 0 (foldl (λ counts x, count_up (key x) counts) m xs !! p)
  = default 0 (m !! p) + length (filter (λ x, key x = p) xs).
Proof.
  revert m. induction xs as [|x xs IH]; intros m; simpl.
  - by rewrite Nat.add_0_r.
  - rewrite IH, count_up_lookup, filter_cons.
    case_decide; simpl; lia.
Qed.

Lemma fold_counts_dom {A : Type} (key : A → string) (xs : list A)
    (m : gmap string nat) (p : string) :
  p ∈ dom (foldl (λ counts x, count_up (key x) counts) m xs)
  ↔ p ∈ dom m ∨ ∃ x, x ∈ xs ∧ key x = p.
Proof.
  revert m. induction xs as [|x xs IH]; intros m; simpl.
  - split; [by left|]. intros [?|(x & Hx & _)]; [done|]. by apply elem_of_nil in Hx.
  - rewrite IH. unfold count_up. rewrite dom_insert, elem_of_union, elem_of_singleton.
    split.
    + intros [[->|?]|(x' & Hx' & <-)].
      * right. exists x. split; [by left|done].
      * by left.
      * right. exists x'. split; [by right|done].
    + intros [?|(x' & [->|Hx']%elem_of_cons & <-)].
      * by left; right.
      * by left; left.
      * right. by exists x'.
Qed.

Lemma foldl_concat_map {A B C : Type} (f : C → B → C) (g : A → list B)
    (xs : list A) (acc : C) :
  foldl (λ acc x, foldl f acc (g x)) acc xs = foldl f acc (concat (map g xs)).
Proof.
  revert acc. induction xs as [|x xs IH]; intros acc; simpl; [done|].
  by rewrite foldl_app, IH.
Qed.

Lemma count_in_NoDup (p : string) (xs : list string) :
  NoDup xs →
  length (filter (λ x, x = p) xs) = if decide (p ∈ xs) then 1 else 0.
Proof.
  induction 1 as [|x xs Hx Hxs IH]; [done|].
  rewrite filter_cons. destruct (decide (x = p)) as [->|Hne].
  - simpl. rewrite IH, decide_False by done.
    rewrite decide_True; [done|by left].
  - rewrite IH. destruct (decide (p ∈ xs)) as [Hin|Hin].
    + rewrite decide_True; [done|by right].
    + rewrite decide_False; [done|].
      intros [->|?]%elem_of_cons; done.
Qed.

Lemma count_listed_pages (p : string) (ns : list Net) :
  length (filter (λ x, x = p) (concat (map (λ net, elements (net_pages net)) ns)))
  = length (filter (λ net, p ∈ net_pages net) ns).
Proof.
  induction ns as [|net ns IH]; [done|]. simpl.
  rewrite filter_app, length_app, IH, filter_cons.
  rewrite count_in_NoDup by apply NoDup_elements.
  destruct (decide (p ∈ net_pages net)) as [Hin|Hin].
  - rewrite decide_True by (by apply elem_of_elements). done.
  - rewrite decide_False by (by rewrite elem_of_elements). done.
Qed.

Lemma page_component_count l (p : string) :
  default 0 (page_component_counts_of l !! p) = components_on l p.
Proof.
  unfold page_component_counts_of, components_on.
  by rewrite (fold_counts_default page).
Qed.

Lemma page_net_count l (p : string) :
  default 0 (page_net_counts_of l !! p) = nets_on l p.
Proof.
  unfold page_net_counts_of, nets_on.
  rewrite (foldl_concat_map (λ counts page0, count_up page0 counts)
             (λ net, elements (net_pages net))).
  rewrite (fold_counts_default id). simpl. apply count_listed_pages.
Qed.

Lemma index_pages_known l :
  dom (page_component_counts_of l) ∪ dom (page_net_counts_of l) = pages_of l.
Proof.
  apply set_eq. intros p. rewrite elem_of_union, pages_of_known.
  unfold page_component_counts_of, page_net_counts_of, known_page.
  rewrite (fold_counts_dom page).
  rewrite (foldl_concat_map (λ counts page0, count_up page0 counts)
             (λ net, elements (net_pages net))).
  rewrite (fold_counts_dom id). rewrite !dom_empty.
  split.
  - intros [[Hempty|?]|[Hempty|(x & Hx & <-)]];
      try (by apply not_elem_of_empty in Hempty); [by left|].
    right. apply elem_of_concat in Hx as (xs & Hx & Hxs).
    apply list_elem_of_fmap in Hxs as (net & -> & Hnet).
    exists net. split; [done|]. by apply elem_of_elements.
  - intros [?|(net & Hnet & Hp)]; [left; by right|].
    right; right. exists p. split; [|done].
    apply elem_of_concat. exists (elements (net_pages net)).
    split; [by apply elem_of_elements|].
    apply list_elem_of_fmap. by exists net.
Qed.

Lemma index_lines_sections l : index_lines l = index_sections l.
Proof.
  unfold index_lines, index_sections. cbv zeta.
  rewrite index_pages_known.
  assert (map (λ page0,
                 "- " +:+ page0 +:+ " (" +:+
                 pretty (default 0 (page_component_counts_of l !! page0)) +:+
                 " components, " +:+
                 pretty (default 0 (page_net_counts_of l !! page0)) +:+ " nets)")
              (sorted_str (elements (pages_of l)))
          = map (index_page_line l) (sorted_str (elements (pages_of l)))) as ->.
  { apply map_ext. intros p. unfold index_page_line.
    by rewrite page_component_count, page_net_count. }
  destruct (decide (pages_of l = ∅)),
    (filter (λ net, is_inter_page net = true) (nets l)); by rewrite <- ?app_assoc.
Qed.

(** X3: for a schematic that is not empty the index is the header, one line
    per page in the order of [get_all_pages] with the number of cached
    components on the page and the number of cached nets that list it, and
    one line per net on more than one page, in the order of the net names. *)
Theorem get_index_sections w w1 :
  refresh w = (Return (), w1) →
  components (self w1) ≠ [] ∨ nets (self w1) ≠ [] →
  get_index w = (Return (Str.join Str.nl (index_sections (self w1))), w1)
  ∧ get_all_pages w = (Return (sorted_str (elements (pages_of (self w1)))), w1).
Proof.
  intros Hrefresh Hdata.
  rewrite get_index_unfold, get_all_pages_unfold, Hrefresh, index_lines_sections.
  split; [|done].
  destruct (components (self w1)), (nets (self w1)); try done.
  by destruct Hdata.
Qed.

(** X4: [get_index] answers with the "Empty schematic" text exactly when the
    refreshed cache has neither components nor nets. *)
Theorem get_index_empty_iff w w1 :
  refresh w = (Return (), w1) →
  get_index w = (Return empty_index, w1)
  ↔ components (self w1) = [] ∧ nets (self w1) = [].
Proof.
  intros Hrefresh. rewrite get_index_unfold, Hrefresh.
  assert (Str.join Str.nl (index_lines (self w1)) ≠ empty_index) as Hne.
  { rewrite index_lines_sections.
    assert (∃ rest, index_sections (self w1)
                    = "# SCHEMATIC INDEX" :: "" :: "## Pages" :: rest) as [rest ->].
    { unfold index_sections. by eexists. }
    unfold empty_index. intros Heq.
    assert (∃ tail, Str.join Str.nl ("## Pages" :: rest) = "## Pages" +:+ tail)
      as [tail Htail].
    { destruct rest; [exists ""|eexists]; simpl; by rewrite ?str_app_nil_r. }
    change (Str.join Str.nl ("# SCHEMATIC INDEX" :: "" :: "## Pages" :: rest))
      with ("# SCHEMATIC INDEX" +:+ Str.nl +:+ "" +:+ Str.nl
              +:+ Str.join Str.nl ("## Pages" :: rest)) in Heq.
    rewrite Htail in Heq. do 2 apply (inj (String.app _)) in Heq.
    change ("" +:+ ?s) with s in Heq. apply (inj (String.app _)) in Heq.
    rewrite !str_app_cons in Heq. discriminate Heq. }
  split.
  - intros Hget. destruct (components (self w1)), (nets (self w1)); [done|..];
      injection Hget as Heq; by apply Hne in Heq.
  - by intros [-> ->].
Qed.

(** *** Statistics and lookups *)

Lemma filter_length_le {A : Type} (Q : A → Prop) `{!∀ x, Decision (Q x)} (xs : list A) :
  (length (filter Q xs) ≤ length xs)%nat.
Proof.
  induction xs as [|x xs IH]; [done|]. rewrite filter_cons.
  case_decide; simpl; lia.
Qed.

(** X5: the statistics count the cached components and nets, the pages
    [get_all_pages] lists, and the nets that are inter-page and global, which
    are never more than the nets; an empty schematic has all counts zero. *)
Theorem get_stats_spec w w1 :
  refresh w = (Return (), w1) →
  ∃ stats pages,
    get_stats w = (Return stats, w1)
    ∧ get_all_pages w = (Return pages, w1)
    ∧ total_components stats = length (components (self w1))
    ∧ total_nets stats = length (nets (self w1))
    ∧ total_pages stats = length pages
    ∧ total_pages stats = size (pages_of (self w1))
    ∧ (inter_page_nets stats ≤ total_nets stats)%nat
    ∧ (global_nets stats ≤ total_nets stats)%nat
    ∧ (components (self w1) = [] → nets (self w1) = [] →
       stats = mkStats 0 0 0 0 0).
Proof.
  intros Hrefresh. rewrite get_stats_unfold, get_all_pages_unfold, Hrefresh.
  eexists _, _. split_and!; try done; simpl.
  - unfold sorted_str. by rewrite stable_sort_length.
  - apply filter_length_le.
  - apply filter_length_le.
  - intros Hcs Hns. unfold pages_of. by rewrite Hcs, Hns.
Qed.

Lemma find_key_spec {A : Type} (key : A → string) (k : string) (xs : list A) :
  match find (λ x, bool_decide (key x = k)) xs with
  | Some x => ∃ before after,
                xs = before ++ x :: after ∧ key x = k
                ∧ ∀ y, y ∈ before → key y ≠ k
  | None => ∀ y, y ∈ xs → key y ≠ k
  end.
Proof.
  induction xs as [|x xs IH]; simpl.
  - intros y Hy. by apply elem_of_nil in Hy.
  - case_bool_decide as Hx.
    + exists [], xs. split_and!; [done..|]. intros y Hy. by apply elem_of_nil in Hy.
    + destruct (find _ xs) as [x'|].
      * destruct IH as (before & after & -> & Hk & Hbefore).
        exists (x :: before), after. split_and!; [done..|].
        intros y [->|Hy]%elem_of_cons; [done|by apply Hbefore].
      * intros y [->|Hy]%elem_of_cons; [done|by apply IH].
Qed.

(** X6: [get_component] and [get_net] return the first cached component
    with the reference designator, the first cached net with the name, and
    nothing exactly when the cache has none. *)
Theorem lookup_queries_spec (refdes0 net_name0 : string) w w1 :
  refresh w = (Return (), w1) →
  ∃ found_component found_net,
    get_component refdes0 w = (Return found_component, w1)
    ∧ get_net net_name0 w = (Return found_net, w1)
    ∧ match found_component with
      | Some c => ∃ before after,
                    components (self w1) = before ++ c :: after
                    ∧ refdes c = refdes0
                    ∧ ∀ c', c' ∈ before → refdes c' ≠ refdes0
      | None => ∀ c, c ∈ components (self w1) → refdes c ≠ refdes0
      end
    ∧ match found_net with
      | Some net => ∃ before after,
                      nets (self w1) = before ++ net :: after
                      ∧ net_name net = net_name0
                      ∧ ∀ net', net' ∈ before → net_name net' ≠ net_name0
      | None => ∀ net, net ∈ nets (self w1) → net_name net ≠ net_name0
      end.
Proof.
  intros Hrefresh. rewrite get_component_unfold, get_net_unfold, Hrefresh.
  eexists _, _. split_and!; [done..| |].
  - apply (find_key_spec refdes).
  - apply (find_key_spec net_name).
Qed.

(** *** The Atlas *)

Lemma atlas_fold_lookup (ns : list Net) (m : gmap string (gset string)) (n : string) :
  foldl (λ m net, <[net_name net := net_pages net]> m) m ns !! n
  = match last (filter (λ net, net_name net = n) ns) with
    | Some net => Some (net_pages net)
    | None => m !! n
    end.
Proof.
  revert m. induction ns as [|net ns IH]; intros m; simpl; [done|].
  rewrite IH, filter_cons. case_decide as Hname.
  - destruct (filter _ ns) as [|net' ns'] eqn:Hfilter; simpl.
    + subst n. by rewrite lookup_insert_eq.
    + destruct (last (net' :: ns')) eqn:Hlast; [done|].
      by apply last_None in Hlast.
  - destruct (last _); [done|]. by rewrite lookup_insert_ne.
Qed.

Lemma atlas_of_lookup (ns : list Net) (n : string) :
  atlas_of ns !! n = net_pages <$> last (filter (λ net, net_name net = n) ns).
Proof.
  unfold atlas_of. rewrite atlas_fold_lookup.
  by destruct (last _).
Qed.

Lemma last_filter_unique (ns : list Net) (net : Net) :
  NoDup (map net_name ns) → net ∈ ns →
  last (filter (λ net', net_name net' = net_name net) ns) = Some net.
Proof.
  induction ns as [|net' ns IH]; intros Hnd Hin; [by apply elem_of_nil in Hin|].
  simpl in Hnd. apply NoDup_cons in Hnd as [Hnotin Hnd].
  rewrite filter_cons.
  apply elem_of_cons in Hin as [->|Hin].
  - rewrite decide_True by done.
    assert (filter (λ net'0, net_name net'0 = net_name net') ns = []) as ->; [|done].
    clear -Hnotin. induction ns as [|x ns IH]; [done|].
    rewrite filter_cons, decide_False.
    + apply IH. intros Hin. apply Hnotin. simpl. by right.
    + intros Heq. apply Hnotin. simpl. rewrite Heq. by left.
  - rewrite decide_False.
    + by apply IH.
    + intros Heq. apply Hnotin. rewrite Heq. by apply list_elem_of_fmap_2.
Qed.

Lemma atlas_preserved_by_refresh w :
  atlas_current (self w) → atlas_current (self (refresh w).2).
Proof.
  unfold atlas_current. intros Hcur. rewrite refresh_unfold.
  destruct (dirty (self w)); simpl; [|done].
  destruct (fetch_raw_data _) as [[[]|e] p1]; [|done].
  destruct (get_components p1) as [[cs|e] p2]; [|done].
  by destruct (get_nets p2) as [[ns|e] p3].
Qed.

(** X7: the Atlas of a new Librarian agrees with its (empty) cache, and
    [refresh], [mark_dirty] and the queries keep it so, whether they return or
    raise.  The Atlas then maps a name to the pages of the last cached net of
    that name, and to the pages of the net itself when net names are unique. *)
Theorem atlas_invariant :
  (∀ p : P, atlas_current (Librarian_init p))
  ∧ ∀ w,
      atlas_current (self w) →
      atlas_current (self (refresh w).2)
      ∧ atlas_current (self (mark_dirty (E := E) w).2)
      ∧ atlas_current (self (get_index w).2)
      ∧ (∀ page_name, atlas_current (self (get_page page_name w).2))
      ∧ (∀ refdes_list, atlas_current (self (get_context refdes_list w).2))
      ∧ (∀ n, net_page_map (self w) !! n
              = net_pages <$> last (filter (λ net, net_name net = n) (nets (self w))))
      ∧ (NoDup (map net_name (nets (self w))) →
         ∀ net, net ∈ nets (self w) →
           net_page_map (self w) !! net_name net = Some (net_pages net)).
Proof.
  split; [done|].
  intros w Hcur. pose proof (atlas_preserved_by_refresh w Hcur) as Hrefresh.
  split_and!.
  - done.
  - done.
  - rewrite get_index_unfold. by destruct (refresh w) as [[[]|e] w1].
  - intros page_name. rewrite get_page_unfold.
    by destruct (refresh w) as [[[]|e] w1].
  - intros refdes_list. by rewrite get_context_state.
  - intros n. rewrite Hcur. apply atlas_of_lookup.
  - intros Hnd net Hnet. rewrite Hcur, atlas_of_lookup.
    by rewrite last_filter_unique.
Qed.

(** X8: marking the cache dirty and refreshing rebuilds everything from the
    provider: one fetch, then the components and the nets, in this order; when
    all three return, the cache holds exactly what they returned and the Atlas
    of these nets, whatever was cached before. *)
Theorem mark_dirty_refresh_rebuilds w w2 :
  (mark_dirty ;; refresh) w = (Return (), w2) →
  ∃ p1 p2 p3 cs ns,
    fetch_raw_data (provider (self w)) = (Return (), p1)
    ∧ get_components p1 = (Return cs, p2)
    ∧ get_nets p2 = (Return ns, p3)
    ∧ self w2 = mkLibrarian p3 false cs ns (atlas_of ns)
    ∧ calls w2 = calls w ++ [CallFetchRawData; CallGetComponents; CallGetNets].
Proof.
  unfold mbind, M_bind, bind, mark_dirty, write. rewrite refresh_unfold. simpl.
  destruct (fetch_raw_data _) as [[[]|e] p1] eqn:Hfetch; [|done].
  destruct (get_components p1) as [[cs|e] p2] eqn:Hcomps; [|done].
  destruct (get_nets p2) as [[ns|e] p3] eqn:Hnets; [|done].
  intros [= <-]. by exists p1, p2, p3, cs, ns.
Qed.

(** *** Context bubbles *)


Lemma connected_of_spec l (refdes_list : list string) (net : Net) :
  net ∈ connected_of l refdes_list
  ↔ net ∈ nets l
    ∧ ∃ m, m ∈ members net ∧ m.1 ∈ primary_refdes_set_of l refdes_list.
Proof.
  unfold connected_of, connected_nets_of.
  rewrite list_elem_of_filter, existsb_exists. split.
  - intros [(m & Hm%list_elem_of_In & Hp%bool_decide_eq_true) Hnet].
    split; [done|]. by exists m.
  - intros [Hnet (m & Hm & Hp)]. split; [|done].
    exists m. split; [by apply list_elem_of_In|by apply bool_decide_eq_true].
Qed.


(** X10: the member filter of [get_context] removes nothing: every member
    of a connected net is primary or a neighbour, so the nets of a context
    bubble are the connected cached nets with all their members. *)
Theorem context_views_are_connected_nets (refdes_list : list string) l :
  context_views l refdes_list = connected_of l refdes_list
  ∧ ∀ net, net ∈ context_views l refdes_list ↔
      net ∈ nets l
      ∧ ∃ m, m ∈ members net ∧ m.1 ∈ primary_refdes_set_of l refdes_list.
Proof.
  assert (context_views l refdes_list = connected_of l refdes_list) as Heq.
  { pose proof (context_views_keep_members l refdes_list) as Hmembers.
    pose proof (context_views_are_views l refdes_list) as Hviews.
    revert Hmembers Hviews.
    generalize (context_views l refdes_list), (connected_of l refdes_list),
      (context_refdes_of l refdes_list).
    intros views cached ctx Hmembers Hviews.
    induction Hviews as [|view net views cached (Hn & Hp & _) _ IH]; [done|].
    simpl in Hmembers. injection Hmembers as Hm Hrest.
    f_equal; [|by apply IH].
    destruct view, net. simpl in *. by subst. }
  split; [done|]. intros net. rewrite Heq. apply connected_of_spec.
Qed.

(** X11: the answer of [get_context] depends on the request only through
    the set of reference designators in it, as soon as one of them names a
    cached component: order and repetitions do not matter. *)
Theorem get_context_request_as_set (refs refs' : list string) w w1 :
  refresh w = (Return (), w1) →
  (∀ r, r ∈ refs ↔ r ∈ refs') →
  primary_components_of (self w1) refs ≠ [] →
  get_context refs w = get_context refs' w.
Proof.
  intros Hrefresh Hsame Hprimary.
  rewrite !get_context_unfold, Hrefresh. f_equal. f_equal.
  assert (primary_components_of (self w1) refs = primary_components_of (self w1) refs')
    as Hp.
  { unfold primary_components_of. apply list_filter_iff. intros c. apply Hsame. }
  unfold context_text, context_views, neighbor_components_of, context_refdes_of,
    connected_of, primary_refdes_set_of.
  rewrite <- Hp.
  destruct (primary_components_of (self w1) refs) as [|c cs] eqn:Hc; [done|].
  assert (refdes c ∈ refs) as Hin.
  { assert (c ∈ primary_components_of (self w1) refs) as Hcin by (rewrite Hc; by left).
    unfold primary_components_of in Hcin.
    by apply list_elem_of_filter in Hcin as [? _]. }
  destruct refs as [|r rs]; [by apply elem_of_nil in Hin|].
  destruct refs' as [|r' rs']; [|done].
  apply Hsame in Hin. by apply elem_of_nil in Hin.
Qed.


End MoreLibrarianFacts.

Lemma get_all_pages_spec_witness :
  refresh fresh_world = (Return (), (refresh fresh_world).2)
  ∧ get_all_pages fresh_world = (Return ["IO"; "Main"; "Power"], (refresh fresh_world).2).
Proof.
  assert (refresh fresh_world = (Return (), (refresh fresh_world).2)) as Hr.
  { reflexivity. }
  split; [exact Hr|].
  destruct (get_all_pages_spec _ _ Hr) as (pages & Hget & _).
  rewrite Hget. f_equal. f_equal.
  assert (get_all_pages fresh_world
          = (Return ["IO"; "Main"; "Power"], (refresh fresh_world).2)) as Hc.
  { by vm_compute. }
  rewrite Hc in Hget. by injection Hget as <-.
Defined.

Lemma fresh_world_refresh : refresh fresh_world = (Return (), served_world).
Proof. reflexivity. Qed.

Lemma get_index_sections_witness :
  refresh fresh_world = (Return (), served_world)
  ∧ (components (self served_world) ≠ [] ∨ nets (self served_world) ≠ [])
  ∧ get_index fresh_world
    = (Return (Str.join Str.nl (index_sections (self served_world))), served_world).
Proof.
  assert (refresh fresh_world = (Return (), served_world)) as Hr by reflexivity.
  assert (components (self served_world) ≠ [] ∨ nets (self served_world) ≠ []) as Hd.
  { left. vm_compute. discriminate. }
  split; [exact Hr|]. split; [exact Hd|].
  exact (proj1 (get_index_sections _ _ Hr Hd)).
Defined.

Lemma get_index_empty_iff_witness :
  refresh empty_world = (Return (), (refresh empty_world).2)
  ∧ get_index empty_world = (Return empty_index, (refresh empty_world).2).
Proof.
  assert (refresh empty_world = (Return (), (refresh empty_world).2)) as Hr
    by reflexivity.
  split; [exact Hr|].
  apply (proj2 (get_index_empty_iff _ _ Hr)). split; reflexivity.
Defined.

Lemma get_stats_spec_witness :
  refresh fresh_world = (Return (), served_world)
  ∧ ∃ stats, get_stats fresh_world = (Return stats, served_world)
             ∧ total_pages stats = size (pages_of (self served_world)).
Proof.
  assert (refresh fresh_world = (Return (), served_world)) as Hr by reflexivity.
  split; [exact Hr|].
  destruct (get_stats_spec _ _ Hr) as (stats & pages & Hget & _ & _ & _ & _ & Hsize & _).
  exists stats. split; [exact Hget|exact Hsize].
Defined.

Lemma lookup_queries_spec_witness :
  refresh fresh_world = (Return (), served_world)
  ∧ ∃ found_component found_net,
      get_component "R1" fresh_world = (Return found_component, served_world)
      ∧ get_net "VBUS" fresh_world = (Return found_net, served_world).
Proof.
  assert (refresh fresh_world = (Return (), served_world)) as Hr by reflexivity.
  split; [exact Hr|].
  destruct (lookup_queries_spec "R1" "VBUS" _ _ Hr) as (fc & fn & Hc & Hn & _).
  exists fc, fn. split; [exact Hc|exact Hn].
Defined.

Lemma atlas_invariant_witness :
  atlas_current (self fresh_world) ∧ atlas_current (self served_world).
Proof.
  assert (atlas_current (self fresh_world)) as Hinit.
  { exact (proj1 atlas_invariant (provider (self fresh_world))). }
  split; [exact Hinit|].
  exact (proj1 (proj2 atlas_invariant fresh_world Hinit)).
Defined.

Lemma mark_dirty_refresh_rebuilds_witness :
  (mark_dirty ;; refresh) fresh_world = (Return (), served_world)
  ∧ calls served_world = [CallFetchRawData; CallGetComponents; CallGetNets].
Proof.
  assert ((mark_dirty ;; refresh) fresh_world = (Return (), served_world)) as Hr
    by reflexivity.
  split; [exact Hr|].
  destruct (mark_dirty_refresh_rebuilds _ _ Hr) as (? & ? & ? & ? & ? & _ & _ & _ & _ & Hcalls).
  exact Hcalls.
Defined.


Lemma get_context_request_as_set_witness :
  get_context ["R1"; "U1"] fresh_world = get_context ["U1"; "R1"; "R1"] fresh_world.
Proof.
  assert (refresh fresh_world = (Return (), served_world)) as Hr by reflexivity.
  apply (get_context_request_as_set _ _ _ _ Hr).
  - intros r. rewrite !elem_of_cons, !elem_of_nil. tauto.
  - vm_compute. discriminate.
Defined.


(** ** The MCP tools *)

Lemma prefix_app (p s t : string) :
  String.prefix p s = true → String.prefix p (s +:+ t) = true.
Proof.
  revert s. induction p as [|a p IH]; intros s.
  { intros _. by destruct (s +:+ t). }
  destruct s as [|b s]; [done|]. rewrite str_app_cons. simpl.
  destruct (ascii_dec a b); [apply IH|done].
Qed.

Lemma prefix_head (a b : ascii) (p s : string) :
  String.prefix (String a p) (String b s) = true → a = b.
Proof.
  change (String.prefix (String a p) (String b s))
    with (if ascii_dec a b then String.prefix p s else false).
  by destruct (ascii_dec a b).
Qed.

Lemma prefix_join_head (p x : string) (xs : list string) :
  String.prefix p x = true → String.prefix p (Str.join Str.nl (x :: xs)) = true.
Proof.
  intros Hp. destruct xs as [|y ys]; [done|].
  rewrite join_cons by done. by apply prefix_app.
Qed.

Section ToolFacts.

Context {P E : Type} `{!SchematicProvider P E}.

Variable adapter : string → P.
Variable str : E → string.

Implicit Types (w : @World P) (l : @Librarian P) (e : E).

Lemma index_text_document l : String.prefix "# " (index_text l) = true.
Proof.
  unfold index_text.
  assert (String.prefix "# " (Str.join Str.nl (index_lines l)) = true) as Hlines.
  { rewrite index_lines_sections. unfold index_sections.
    by apply prefix_join_head. }
  by destruct (components l), (nets l).
Qed.

Lemma page_text_document l (page_name : string) :
  String.prefix "# " (page_text l page_name) = true.
Proof.
  unfold page_text.
  destruct (filter _ (components l)) as [|c cs].
  - by destruct (existsb _ (nets l)).
  - unfold page_dsl_of. cbv zeta.
    match goal with
    | |- context [emit_page_dsl (c :: cs) ?ns ?m] =>
        destruct (emit_page_dsl_head c cs ns m) as [rest ->]
    end.
    by rewrite !str_app_cons.
Qed.

Lemma context_text_document l (refdes_list : list string) :
  String.prefix "# " (context_text l refdes_list) = true.
Proof.
  unfold context_text.
  destruct refdes_list as [|r rs]; [done|].
  destruct (primary_components_of l (r :: rs)) as [|c cs]; [done|].
  rewrite emit_context_dsl_lines. unfold context_lines. cbv zeta.
  apply prefix_join_head. by rewrite !str_app_cons.
Qed.

Lemma get_index_text w :
  get_index w =
    match refresh w with
    | (Return _, w1) => (Return (index_text (self w1)), w1)
    | (Raise e, w1) => (Raise e, w1)
    end.
Proof. apply get_index_unfold. Qed.

(** The calls of a first refresh. *)
Lemma refresh_calls w r w1 :
  dirty (self w) = true → calls w = [] → refresh w = (r, w1) →
  calls w1 `prefix_of` full_fetch
  ∧ (∀ u, r = Return u → calls w1 = full_fetch ∧ dirty (self w1) = false).
Proof.
  intros Hd Hc. rewrite refresh_unfold, Hd, Hc. simpl.
  destruct (fetch_raw_data _) as [[[]|e] p1].
  2: { intros [= <- <-]. split; [by exists [CallGetComponents; CallGetNets]|done]. }
  destruct (get_components p1) as [[cs|e] p2].
  2: { intros [= <- <-]. split; [by exists [CallGetNets]|done]. }
  destruct (get_nets p2) as [[ns|e] p3].
  2: { intros [= <- <-]. split; [by exists []|done]. }
  intros [= <- <-]. split; [by exists []|done].
Qed.

(** X20: the index tool answers with the Librarian's index for the data
    the provider served, which starts with "# ", or, when the provider raises,
    with its error text, which starts with "Error"; so its answer starts with
    "Error" exactly when the provider raised.  The same holds for the page
    tool when the pins served have designators the emitter can sort; a page
    that does not exist is then answered by the Librarian's not-found
    document, not by the error text of the page tool. *)
Theorem tool_errors_are_marked (project_path page_name : string) :
  let index := (get_schematic_index adapter str project_path).1 in
  let page0 := (get_schematic_page adapter str project_path page_name).1 in
  (match first_refresh adapter project_path with
   | (Raise e, _) => index = index_error (str e)
   | (Return _, w1) => index = index_text (self w1)
   end
   ∧ (String.prefix "Error" index = true ↔ provider_raises adapter project_path)
   ∧ (¬ provider_raises adapter project_path ↔ String.prefix "# " index = true))
  ∧ ((∀ w1, first_refresh adapter project_path = (Return (), w1) →
            sortable_pins (self w1)) →
     match first_refresh adapter project_path with
     | (Raise e, _) => page0 = page_error (str e)
     | (Return _, w1) => page0 = page_text (self w1) page_name
     end
     ∧ (String.prefix "Error" page0 = true ↔ provider_raises adapter project_path)
     ∧ (¬ provider_raises adapter project_path ↔ String.prefix "# " page0 = true)).
Proof.
  cbv zeta.
  unfold get_schematic_index, get_schematic_page, try_tool, provider_raises,
    first_refresh.
  cbv zeta. rewrite get_index_text, get_page_unfold.
  assert (∀ s, String.prefix "# " s = true → String.prefix "Error" s = true → False)
    as Hex.
  { intros [|a s] H1 H2; [done|].
    apply prefix_head in H1, H2. congruence. }
  destruct (refresh _) as [[[]|e] w1]; cbn [fst snd].
  - pose proof (index_text_document (self w1)) as Hi.
    pose proof (page_text_document (self w1) page_name) as Hp.
    split; [|intros _]; split_and!; try done.
    + split; [intros He; destruct (Hex _ Hi He)|by intros (e & w & [=])].
    + split; [done|]. by intros _ (e & w & [=]).
    + split; [intros He; destruct (Hex _ Hp He)|by intros (e & w & [=])].
    + split; [done|]. by intros _ (e & w & [=]).
  - assert (String.prefix "Error" (index_error (str e)) = true) as Hi
      by by apply prefix_app.
    assert (String.prefix "Error" (page_error (str e)) = true) as Hp
      by by apply prefix_app.
    split; [|intros _]; split_and!; try done.
    + split; [by eauto|done].
    + split; [intros Hn; destruct Hn; eauto|]. intros Hd. destruct (Hex _ Hd Hi).
    + split; [by eauto|done].
    + split; [intros Hn; destruct Hn; eauto|]. intros Hd. destruct (Hex _ Hd Hp).
Qed.

Lemma net_mode_unfold (order : gset string → list string) (name : string) w :
  (refresh ;;
   net ← get_net name;
   match net with
   | None => mret (net_not_found name)
   | Some net => get_context (order (list_to_set (map fst (members net))))
   end) w
  = match refresh w with
    | (Return _, w1) => (Return (net_mode_text order (self w1) name), w1)
    | (Raise e, w1) => (Raise e, w1)
    end.
Proof.
  unfold mbind, M_bind, bind at 1.
  destruct (refresh w) as [[[]|e] w1] eqn:Hrefresh; [|done].
  pose proof (refresh_clean _ (refresh_return_clean _ _ Hrefresh)) as Hclean.
  unfold bind. rewrite get_net_unfold, Hclean. unfold net_mode_text.
  destruct (find _ (nets (self w1))) as [net|]; [|done].
  by rewrite get_context_unfold, Hclean.
Qed.


(** X21: a tool run calls the provider's three methods at most once each
    and in the order of [refresh], although the net mode of the context tool
    refreshes three times; a run that answers with a document has made all
    three calls.  The context tool starts with the fetch as soon as one of
    its two arguments is given and not empty, and answers otherwise without
    touching the provider. *)
Theorem tools_fetch_once (order : gset string → list string)
    (project_path page_name : string) (component_ref net_name0 : option string) :
  let context :=
    get_schematic_context adapter str order project_path component_ref net_name0 in
  Forall (λ run : string * World,
            calls run.2 `prefix_of` full_fetch
            ∧ (String.prefix "# " run.1 = true → calls run.2 = full_fetch))
    [get_schematic_index adapter str project_path;
     get_schematic_page adapter str project_path page_name;
     context]
  ∧ if given component_ref || given net_name0
    then head (calls context.2) = Some CallFetchRawData
    else context = (no_argument, mkWorld (Librarian_init (adapter project_path)) []).
Proof.
  cbv zeta.
  set (w0 := mkWorld (Librarian_init (adapter project_path)) []).
  assert (∀ s, String.prefix "Error" s = true → String.prefix "# " s = true → False)
    as Herr.
  { intros [|a s] H1 H2; [done|]. apply prefix_head in H1, H2. congruence. }
  assert (∀ (body : M (E := E) string) (text : World → string) on_error,
    (∀ m, String.prefix "Error" (on_error m) = true) →
    (∀ w, body w = match refresh w with
                   | (Return _, w1) => (Return (text w1), w1)
                   | (Raise e, w1) => (Raise e, w1)
                   end) →
    let run := try_tool adapter str project_path body on_error in
    (calls run.2 `prefix_of` full_fetch
     ∧ (String.prefix "# " run.1 = true → calls run.2 = full_fetch))
    ∧ head (calls run.2) = Some CallFetchRawData) as Hrun.
  { intros body text on_error Hmark Hbody. unfold try_tool. cbv zeta.
    fold w0. rewrite Hbody.
    destruct (refresh w0) as [r w1] eqn:Hrefresh.
    destruct (refresh_calls w0 r w1 eq_refl eq_refl Hrefresh) as [Hpre Hfull].
    assert (head (calls w1) = Some CallFetchRawData) as Hhead.
    { revert Hrefresh. rewrite refresh_unfold. simpl.
      destruct (fetch_raw_data _) as [[[]|e] p1]; [|by intros [= <- <-]].
      destruct (get_components p1) as [[cs|e] p2]; [|by intros [= <- <-]].
      destruct (get_nets p2) as [[ns|e] p3]; by intros [= <- <-]. }
    destruct r as [[]|e]; simpl.
    - split; [|done]. split; [done|]. intros _. by destruct (Hfull () eq_refl).
    - split; [|done]. split; [done|]. intros Hdoc.
      destruct (Herr _ (Hmark (str e)) Hdoc). }
  assert (∀ m, String.prefix "Error" (index_error m) = true) as Hie
    by (intros m; by apply prefix_app).
  assert (∀ m, String.prefix "Error" (page_error m) = true) as Hpe
    by (intros m; by apply prefix_app).
  assert (∀ m, String.prefix "Error" (context_error m) = true) as Hce
    by (intros m; by apply prefix_app).
  split.
  - apply Forall_cons; split;
      [|apply Forall_cons; split; [|apply Forall_cons; split; [|by apply Forall_nil]]].
    + exact (proj1 (Hrun get_index (λ w1, index_text (self w1)) index_error
               Hie get_index_text)).
    + exact (proj1 (Hrun (get_page page_name)
               (λ w1, page_text (self w1) page_name) page_error
               Hpe (get_page_unfold page_name))).
    + unfold get_schematic_context.
      destruct (given component_ref).
      { exact (proj1 (Hrun _ (λ w1, context_text (self w1) _) context_error
                 Hce (get_context_unfold _))). }
      destruct (given net_name0).
      { exact (proj1 (Hrun _ (λ w1, net_mode_text order (self w1) _) context_error
                 Hce (net_mode_unfold order _))). }
      unfold try_tool. simpl. split; [by exists full_fetch|]. intros Hdoc.
      exfalso. revert Hdoc. by vm_compute.
  - unfold get_schematic_context.
    destruct (given component_ref); simpl.
    { exact (proj2 (Hrun _ (λ w1, context_text (self w1) _) context_error
               Hce (get_context_unfold _))). }
    destruct (given net_name0); simpl.
    { exact (proj2 (Hrun _ (λ w1, net_mode_text order (self w1) _) context_error
               Hce (net_mode_unfold order _))). }
    done.
Qed.


End ToolFacts.

Lemma tools_on_sample :
  first_refresh sample_adapter "demo" = (Return (), served_world).
Proof. reflexivity. Qed.


Lemma tools_fetch_once_witness :
  String.prefix "# " (get_schematic_index sample_adapter id "demo").1 = true
  ∧ calls (get_schematic_index sample_adapter id "demo").2 = full_fetch.
Proof.
  destruct (tools_fetch_once sample_adapter id (λ X, elements X) "demo" "Main"
              None None) as [Hruns _].
  apply Forall_cons in Hruns as [[_ Hindex] _].
  assert (String.prefix "# " (get_schematic_index sample_adapter id "demo").1 = true)
    as Hdoc by (by vm_compute).
  split; [exact Hdoc|exact (Hindex Hdoc)].
Defined.

Lemma tool_errors_are_marked_witness :
  (∀ w1, first_refresh sample_adapter "demo" = (Return (), w1) →
         sortable_pins (self w1))
  ∧ (get_schematic_page sample_adapter id "demo" "Nowhere").1
    = page_not_found "Nowhere".
Proof.
  assert (∀ w1, first_refresh sample_adapter "demo" = (Return (), w1) →
                sortable_pins (self w1)) as Hsortable.
  { intros w1. rewrite tools_on_sample. intros [= <-] c pin Hc Hpin.
    assert (Forall (λ c, Forall (λ pin, sortable (designator pin)) (pins c))
              (components (self served_world))) as Hall.
    { apply (bool_decide_unpack _). by vm_compute. }
    by apply (proj1 (Forall_forall _ _)
                (proj1 (Forall_forall _ _) Hall c Hc) pin Hpin). }
  split; [exact Hsortable|].
  destruct (tool_errors_are_marked sample_adapter id "demo" "Nowhere")
    as [_ Hpage].
  destruct (Hpage Hsortable) as (Htext & _).
  rewrite tools_on_sample in Htext. rewrite Htext. by vm_compute.
Defined.


(** ** The Altium adapter *)

(** *** How [nets_dict] grows *)

Lemma add_member_names (n p : string) (m : string * string) (d : list Net) :
  map net_name (add_member n p m d)
  = if decide (n ∈ map net_name d) then map net_name d else map net_name d ++ [n].
Proof.
  induction d as [|e d IH]; simpl.
  - destruct (decide (n ∈ [])) as [Hin|]; [|done]. by apply elem_of_nil in Hin.
  - destruct (decide (net_name e = n)) as [He|He]; simpl.
    + rewrite decide_True; [done|]. rewrite He. by left.
    + rewrite IH. destruct (decide (n ∈ map net_name d)) as [Hin|Hin].
      * rewrite decide_True; [done|]. by right.
      * rewrite decide_False; [done|]. intros [Heq|?]%elem_of_cons; [|done].
        by apply He.
Qed.

Lemma elem_of_add_member (e' : Net) (n p : string) (m : string * string)
    (d : list Net) :
  NoDup (map net_name d) →
  e' ∈ add_member n p m d →
  (e' ∈ d ∧ net_name e' ≠ n)
  ∨ (∃ e, e ∈ d ∧ net_name e = n
          ∧ e' = mkNet n (net_pages e ∪ {[p]}) (members e ++ [m]))
  ∨ ((n ∉ map net_name d) ∧ e' = mkNet n (∅ ∪ {[p]}) [m]).
Proof.
  induction d as [|e d IH]; simpl; intros Hnd Hin.
  - apply list_elem_of_singleton in Hin as ->. right; right.
    split; [apply not_elem_of_nil|done].
  - apply NoDup_cons in Hnd as [Hfresh Hnd].
    destruct (decide (net_name e = n)) as [He|He].
    + apply elem_of_cons in Hin as [->|Hin].
      * right; left. exists e. split; [by left|]. split; [done|]. by rewrite He.
      * left. split; [by right|]. intros Heq. apply Hfresh. rewrite He, <- Heq.
        by apply list_elem_of_fmap_2.
    + apply elem_of_cons in Hin as [->|Hin].
      * left. split; [by left|done].
      * destruct (IH Hnd Hin) as [[? ?]|[(e0 & ? & ? & ?)|[? ?]]].
        -- left. split; [by right|done].
        -- right; left. exists e0. split; [by right|done].
        -- right; right. split; [|done].
           intros [Heq|?]%elem_of_cons; [by apply He|done].
Qed.


Lemma nets_after_snoc (conns : list (string * string * (string * string)))
    (conn : string * string * (string * string)) :
  nets_after (conns ++ [conn])
  = add_member conn.1.1 conn.1.2 conn.2 (nets_after conns).
Proof. unfold nets_after. by rewrite foldl_app. Qed.

Lemma joining_snoc (n : string) (conns : list (string * string * (string * string)))
    (conn : string * string * (string * string)) :
  joining n (conns ++ [conn])
  = joining n conns ++ (if decide (conn.1.1 = n) then [conn] else []).
Proof.
  unfold joining. rewrite filter_app. f_equal.
Qed.

Lemma joining_nil_iff (n : string) (conns : list (string * string * (string * string))) :
  joining n conns = [] ↔ n ∉ map (λ conn, conn.1.1) conns.
Proof.
  unfold joining. induction conns as [|c cs IH]; simpl.
  - split; [intros _; apply not_elem_of_nil|done].
  - rewrite filter_cons. destruct (decide (c.1.1 = n)) as [Hc|Hc].
    + split; [done|]. intros Hn. destruct Hn. rewrite Hc. by left.
    + rewrite IH, not_elem_of_cons. split; [done|]. by intros [_ ?].
Qed.

(** The dictionary holds one entry for every net name met so far, and the
    entry lists the connections that joined that net, in the order met. *)
Lemma nets_after_spec (conns : list (string * string * (string * string))) :
  NoDup (map net_name (nets_after conns))
  ∧ (∀ n, n ∈ map net_name (nets_after conns) ↔ n ∈ map (λ conn, conn.1.1) conns)
  ∧ (∀ e, e ∈ nets_after conns → e = net_of_connections (net_name e) conns).
Proof.
  induction conns as [|conn conns (Hnd & Hnames & Hentries)] using rev_ind.
  { split_and!; [constructor|done|]. intros e He. by apply elem_of_nil in He. }
  rewrite nets_after_snoc.
  destruct conn as [[n p] m]. cbn [fst snd].
  assert (∀ n', n' ∈ map net_name (add_member n p m (nets_after conns))
                ↔ n' ∈ map (λ conn, conn.1.1) (conns ++ [(n, p, m)])) as Hnames'.
  { intros n'. rewrite add_member_names, map_app, elem_of_app. simpl.
    rewrite list_elem_of_singleton, <- Hnames.
    destruct (decide (n ∈ map net_name (nets_after conns))) as [Hin|Hin].
    - split; [by left|]. intros [?| ->]; done.
    - by rewrite elem_of_app, list_elem_of_singleton. }
  split_and!; [|done|].
  - rewrite add_member_names.
    destruct (decide (n ∈ map net_name (nets_after conns))) as [Hin|Hin]; [done|].
    apply NoDup_app. split; [done|]. split; [|apply NoDup_singleton].
    intros x Hx ->%list_elem_of_singleton. done.
  - intros e' He'. unfold net_of_connections. rewrite joining_snoc. cbn [fst snd].
    destruct (elem_of_add_member _ _ _ _ _ Hnd He')
      as [[He Hne]|[(e & He & Hen & ->)|[Hfresh ->]]].
    + rewrite decide_False by done. rewrite app_nil_r. by apply Hentries.
    + cbn [net_name]. rewrite decide_True by done.
      rewrite !map_app, list_to_set_app_L. simpl.
      rewrite (Hentries e He) at 1 2. unfold net_of_connections. rewrite Hen. simpl.
      by rewrite (right_id_L ∅ (∪)).
    + cbn [net_name]. rewrite decide_True by done.
      assert (joining n conns = []) as ->.
      { apply joining_nil_iff. by rewrite <- Hnames. }
      simpl. by rewrite (right_id_L ∅ (∪)), !(left_id_L ∅ (∪)).
Qed.

Lemma nets_after_elem (conns : list (string * string * (string * string))) (net : Net) :
  net ∈ nets_after conns
  ↔ ∃ conn, conn ∈ conns ∧ net = net_of_connections conn.1.1 conns.
Proof.
  destruct (nets_after_spec conns) as (Hnd & Hnames & Hentries). split.
  - intros Hnet.
    assert (net_name net ∈ map (λ conn, conn.1.1) conns) as Hn.
    { apply Hnames. by apply list_elem_of_fmap_2. }
    apply list_elem_of_fmap in Hn as (conn & Hconn & Hin).
    exists conn. split; [done|]. rewrite <- Hconn. by apply Hentries.
  - intros (conn & Hin & ->).
    assert (conn.1.1 ∈ map net_name (nets_after conns)) as Hn.
    { apply Hnames. by apply (list_elem_of_fmap_2 (λ conn, conn.1.1)). }
    apply list_elem_of_fmap in Hn as (e & He & Hein).
    rewrite He. by rewrite <- (Hentries e Hein).
Qed.

Lemma total_members_add (n p : string) (m : string * string) (d : list Net) :
  sum_list (map (λ e, length (members e)) (add_member n p m d))
  = S (sum_list (map (λ e, length (members e)) d)).
Proof.
  induction d as [|e d IH]; simpl; [done|].
  destruct (decide (net_name e = n)); simpl.
  - rewrite length_app. simpl. lia.
  - rewrite IH. lia.
Qed.

Lemma total_members_after (conns : list (string * string * (string * string))) :
  sum_list (map (λ e, length (members e)) (nets_after conns)) = length conns.
Proof.
  induction conns as [|conn conns IH] using rev_ind; [done|].
  rewrite nets_after_snoc, total_members_add, IH, length_app. simpl. lia.
Qed.

Lemma foldl_map {A B C : Type} (f : C → B → C) (g : A → B) (xs : list A) (acc : C) :
  foldl f acc (map g xs) = foldl (λ acc x, f acc (g x)) acc xs.
Proof. revert acc. induction xs as [|x xs IH]; intros acc; simpl; [done|apply IH]. Qed.

Section AltiumFacts.

Variable basename : string → string.

Implicit Types (items : list AltiumJSON.ComponentData).

Lemma collect_nets_after items :
  AltiumJSON.collect_nets basename items = nets_after (connections basename items).
Proof.
  unfold AltiumJSON.collect_nets, nets_after, connections.
  rewrite flat_map_concat_map, <- foldl_concat_map.
  generalize (@nil Net). induction items as [|comp items IH]; intros d; [done|].
  simpl. rewrite <- IH. f_equal. by rewrite foldl_map.
Qed.

Lemma elem_of_connections items (conn : string * string * (string * string)) :
  conn ∈ connections basename items
  ↔ ∃ comp_data pin_data,
      comp_data ∈ items
      ∧ pin_data ∈ default [] (AltiumJSON.cd_pins comp_data)
      ∧ conn = (nc_if_empty (default "" (AltiumJSON.pd_net pin_data)),
                AltiumJSON._extract_filename basename
                  (default "" (AltiumJSON.cd_sheet comp_data)),
                (default "" (AltiumJSON.cd_designator comp_data),
                 default "" (AltiumJSON.pd_name pin_data))).
Proof.
  unfold connections. induction items as [|comp items IH]; simpl.
  - split; [by intros ?%elem_of_nil|]. by intros (? & ? & ?%elem_of_nil & _).
  - rewrite elem_of_app, IH, list_elem_of_fmap. split.
    + intros [(pd & -> & Hpd)|(cd & pd & Hcd & Hpd & ->)].
      * exists comp, pd. split; [by left|done].
      * exists cd, pd. split; [by right|done].
    + intros (cd & pd & [->|Hcd]%elem_of_cons & Hpd & ->).
      * left. by exists pd.
      * right. by exists cd, pd.
Qed.

Lemma transform_all_omap items :
  AltiumJSON.transform_all basename items
  = omap (λ comp_data,
            match AltiumJSON._transform_component basename comp_data with
            | Return component => Some component
            | Raise _ => None
            end) items.
Proof.
  unfold AltiumJSON.transform_all.
  assert (∀ acc : list Component,
    foldl (λ components0 comp_data,
             match AltiumJSON._transform_component basename comp_data with
             | Return component => components0 ++ [component]
             | Raise _ => components0
             end) acc items
    = acc ++ omap (λ comp_data,
                     match AltiumJSON._transform_component basename comp_data with
                     | Return component => Some component
                     | Raise _ => None
                     end) items) as Hfold; [|apply Hfold].
  induction items as [|comp items IH]; intros acc; simpl.
  - by rewrite app_nil_r.
  - rewrite IH.
    destruct (AltiumJSON._transform_component basename comp); [|done].
    by rewrite <- app_assoc.
Qed.

Lemma elem_of_transform_all items (c : Component) :
  c ∈ AltiumJSON.transform_all basename items
  ↔ ∃ comp_data,
      comp_data ∈ items
      ∧ AltiumJSON._transform_component basename comp_data = Return c.
Proof.
  rewrite transform_all_omap, list_elem_of_omap. split.
  - intros (cd & Hcd & Ht). exists cd. split; [done|].
    destruct (AltiumJSON._transform_component basename cd); by simplify_eq.
  - intros (cd & Hcd & Ht). exists cd. split; [done|]. by rewrite Ht.
Qed.

(** X23: [get_nets] groups the pins of the design by net name.  The nets
    it returns carry pairwise different names; there is one for every name a
    pin of the design is on, an empty name read as "NC"; its members are the
    pins on that net as pairs of the component's designator and the pin's
    name, in the order of the design, and its pages the sheets, as file
    names, of the components those pins sit on. *)
Theorem altium_nets_group_pins items :
  let nets0 := AltiumJSON.collect_nets basename items in
  let conns := connections basename items in
  NoDup (map net_name nets0)
  ∧ ∀ net, net ∈ nets0
           ↔ ∃ conn, conn ∈ conns ∧ net = net_of_connections conn.1.1 conns.
Proof.
  cbv zeta. rewrite collect_nets_after. split.
  - apply nets_after_spec.
  - apply nets_after_elem.
Qed.

Lemma nc_if_empty_ne (n : string) : nc_if_empty n ≠ "".
Proof. unfold nc_if_empty. by destruct n. Qed.

Lemma length_connections items :
  length (connections basename items)
  = sum_list (map (λ comp_data, length (default [] (AltiumJSON.cd_pins comp_data)))
                  items).
Proof.
  unfold connections. induction items as [|comp items IH]; simpl; [done|].
  by rewrite length_app, length_map, IH.
Qed.

Lemma joining_elem (conns : list (string * string * (string * string)))
    (conn : string * string * (string * string)) :
  conn ∈ conns → conn ∈ joining conn.1.1 conns.
Proof. intros Hin. unfold joining. by apply list_elem_of_filter. Qed.

(** X24: the nets [get_nets] returns are as the provider interface asks:
    every net has a name that is not empty, at least one member and at least
    one page, and every pin of the design, connected or not, is a member of
    one net, so that the members add up to the pins. *)
Theorem altium_nets_meet_contract items :
  let nets0 := AltiumJSON.collect_nets basename items in
  Forall (λ net, net_name net ≠ "" ∧ members net ≠ [] ∧ net_pages net ≠ ∅) nets0
  ∧ sum_list (map (λ net, length (members net)) nets0)
    = sum_list (map (λ comp_data,
                       length (default [] (AltiumJSON.cd_pins comp_data))) items).
Proof.
  cbv zeta. rewrite collect_nets_after. split.
  - apply Forall_forall. intros net (conn & Hconn & ->)%nets_after_elem.
    pose proof (joining_elem _ _ Hconn) as Hjoin.
    unfold net_of_connections. cbn [net_name members net_pages]. split_and!.
    + apply elem_of_connections in Hconn as (cd & pd & _ & _ & ->).
      apply nc_if_empty_ne.
    + destruct (joining conn.1.1 (connections basename items));
        [by apply elem_of_nil in Hjoin|done].
    + intros Hempty.
      assert (conn.1.2 ∈ (∅ : gset string)) as Hpage; [|by apply not_elem_of_empty in Hpage].
      rewrite <- Hempty. apply elem_of_list_to_set.
      by apply (list_elem_of_fmap_2 (λ conn0, conn0.1.2)).
  - by rewrite total_members_after, length_connections.
Qed.

Lemma transform_component_inv (comp_data : AltiumJSON.ComponentData) (c : Component) :
  AltiumJSON._transform_component basename comp_data = Return c →
  default "" (AltiumJSON.cd_designator comp_data) ≠ ""
  ∧ refdes c = default "" (AltiumJSON.cd_designator comp_data)
  ∧ page c = AltiumJSON._extract_filename basename
               (default "" (AltiumJSON.cd_sheet comp_data))
  ∧ pins c = AltiumJSON._transform_pins (default [] (AltiumJSON.cd_pins comp_data)).
Proof.
  unfold AltiumJSON._transform_component.
  destruct (Str.truthy (default "" (AltiumJSON.cd_designator comp_data))) eqn:Ht;
    simpl; [|done].
  intros [= <-]. by apply str_truthy_ne in Ht.
Qed.

Lemma transform_component_raise (comp_data : AltiumJSON.ComponentData) :
  default "" (AltiumJSON.cd_designator comp_data) ≠ "" →
  ∃ c, AltiumJSON._transform_component basename comp_data = Return c.
Proof.
  intros Hne%str_truthy_ne. unfold AltiumJSON._transform_component.
  rewrite Hne. simpl. by eexists.
Qed.

(** X25: what the components and the nets the adapter returns have in
    common.  A pin of a returned component is a member, under the component's
    designator, of the returned net that carries the name in the pin's net
    field, and that net lists the component's page.  A member of a returned
    net is a pin of a component of the design, on a sheet the net lists; when
    [_transform_component] returns for that component, the member is that pin
    of the returned component.  [get_nets] does not leave out what
    [get_components] leaves out: the pins of a component without designator
    are members under the empty designator, which no returned component
    has. *)
Theorem altium_pins_agree_with_nets items :
  let components0 := AltiumJSON.transform_all basename items in
  let nets0 := AltiumJSON.collect_nets basename items in
  (∀ c pin, c ∈ components0 → pin ∈ pins c →
     ∃ net, net ∈ nets0 ∧ net_name net = pin_net pin
            ∧ (refdes c, designator pin) ∈ members net
            ∧ page c ∈ net_pages net)
  ∧ (∀ net r d, net ∈ nets0 → (r, d) ∈ members net →
       ∃ comp_data pin_data,
         comp_data ∈ items
         ∧ default "" (AltiumJSON.cd_designator comp_data) = r
         ∧ pin_data ∈ default [] (AltiumJSON.cd_pins comp_data)
         ∧ default "" (AltiumJSON.pd_name pin_data) = d
         ∧ nc_if_empty (default "" (AltiumJSON.pd_net pin_data)) = net_name net
         ∧ AltiumJSON._extract_filename basename
             (default "" (AltiumJSON.cd_sheet comp_data)) ∈ net_pages net
         ∧ ∀ c, AltiumJSON._transform_component basename comp_data = Return c →
             c ∈ components0 ∧ refdes c = r ∧ page c ∈ net_pages net
             ∧ ∃ pin, pin ∈ pins c ∧ designator pin = d
                      ∧ pin_net pin = net_name net)
  ∧ (∀ comp_data pin_data,
       comp_data ∈ items →
       default "" (AltiumJSON.cd_designator comp_data) = "" →
       pin_data ∈ default [] (AltiumJSON.cd_pins comp_data) →
       (∀ c, c ∈ components0 → refdes c ≠ "")
       ∧ ∃ net, net ∈ nets0
                ∧ net_name net = nc_if_empty (default "" (AltiumJSON.pd_net pin_data))
                ∧ ("", default "" (AltiumJSON.pd_name pin_data)) ∈ members net).
Proof.
  cbv zeta. rewrite collect_nets_after. split_and!.
  - intros c pin (cd & Hcd & Ht)%elem_of_transform_all Hpin.
    apply transform_component_inv in Ht as (Hne & Hrefdes & Hpage & Hpins).
    rewrite Hpins in Hpin. unfold AltiumJSON._transform_pins in Hpin.
    apply list_elem_of_fmap in Hpin as (pd & -> & Hpd). cbn [pin_net designator].
    set (conn := (nc_if_empty (default "" (AltiumJSON.pd_net pd)),
                  AltiumJSON._extract_filename basename
                    (default "" (AltiumJSON.cd_sheet cd)),
                  (default "" (AltiumJSON.cd_designator cd),
                   default "" (AltiumJSON.pd_name pd)))).
    assert (conn ∈ connections basename items) as Hconn.
    { apply elem_of_connections. by exists cd, pd. }
    pose proof (joining_elem _ _ Hconn) as Hjoin.
    exists (net_of_connections conn.1.1 (connections basename items)).
    split_and!.
    + apply nets_after_elem. by exists conn.
    + done.
    + rewrite Hrefdes. by apply (list_elem_of_fmap_2 snd) in Hjoin.
    + rewrite Hpage. cbn [net_of_connections net_pages]. apply elem_of_list_to_set.
      by apply (list_elem_of_fmap_2 (λ conn0, conn0.1.2)) in Hjoin.
  - intros net r d (conn0 & Hconn0 & ->)%nets_after_elem Hmember.
    cbn [net_of_connections members] in Hmember.
    apply list_elem_of_fmap in Hmember as (conn & Hconn2 & Hjoin).
    unfold joining in Hjoin. apply list_elem_of_filter in Hjoin as [Hnet Hconn].
    pose proof (joining_elem _ _ Hconn) as Hjoin. rewrite Hnet in Hjoin.
    apply elem_of_connections in Hconn as (cd & pd & Hcd & Hpd & ->).
    cbn [fst snd] in *. injection Hconn2 as -> ->.
    assert (AltiumJSON._extract_filename basename (default "" (AltiumJSON.cd_sheet cd))
            ∈ net_pages (net_of_connections conn0.1.1 (connections basename items)))
      as Hsheet.
    { cbn [net_of_connections net_pages]. apply elem_of_list_to_set.
      by apply (list_elem_of_fmap_2 (λ conn1, conn1.1.2)) in Hjoin. }
    exists cd, pd. split_and!; try done.
    intros c Ht.
    pose proof (transform_component_inv _ _ Ht) as (_ & Hrefdes & Hpage & Hpins).
    split_and!.
    + apply elem_of_transform_all. by exists cd.
    + done.
    + by rewrite Hpage.
    + exists (mkPin (default "" (AltiumJSON.pd_name pd))
                (if AltiumJSON._is_semantic_pin_name (default "" (AltiumJSON.pd_name pd))
                 then default "" (AltiumJSON.pd_name pd) else "")
                (nc_if_empty (default "" (AltiumJSON.pd_net pd)))).
      split_and!; try done.
      rewrite Hpins. unfold AltiumJSON._transform_pins.
      apply list_elem_of_fmap. by exists pd.
  - intros cd pd Hcd Hnone Hpd. split.
    + intros c (cd' & _ & Ht)%elem_of_transform_all.
      by apply transform_component_inv in Ht as (Hne' & -> & _).
    + set (conn := (nc_if_empty (default "" (AltiumJSON.pd_net pd)),
                    AltiumJSON._extract_filename basename
                      (default "" (AltiumJSON.cd_sheet cd)),
                    ("", default "" (AltiumJSON.pd_name pd)))).
      assert (conn ∈ connections basename items) as Hconn.
      { apply elem_of_connections. exists cd, pd. split_and!; try done.
        unfold conn. by rewrite Hnone. }
      pose proof (joining_elem _ _ Hconn) as Hjoin.
      exists (net_of_connections conn.1.1 (connections basename items)).
      split_and!.
      * apply nets_after_elem. by exists conn.
      * done.
      * by apply (list_elem_of_fmap_2 snd) in Hjoin.
Qed.

Lemma is_semantic_pin_name_spec (d : string) :
  AltiumJSON._is_semantic_pin_name d = true
  ↔ d ≠ "" ∧ Str.isdigit d = false ∧ d ∉ ["A"; "K"].
Proof.
  unfold AltiumJSON._is_semantic_pin_name.
  destruct (Str.truthy d) eqn:Ht; simpl.
  - apply str_truthy_ne in Ht. destruct (Str.isdigit d); [naive_solver|].
    case_bool_decide; naive_solver.
  - split; [done|]. intros [Hne _]. apply str_truthy_ne in Hne. congruence.
Qed.

Lemma is_semantic_pin_name_semantic (d : string) :
  AltiumJSON._is_semantic_pin_name d = true → semantic_name d.
Proof.
  intros (Hne & Hdigit & Hak)%is_semantic_pin_name_spec. split; [done|].
  intros Hin. apply Hak.
  repeat (apply elem_of_cons in Hin as [->|Hin]; [try discriminate Hdigit|]);
    try in_list.
  by apply elem_of_nil in Hin.
Qed.

Lemma transformed_pin_name c (pin : Pin) items :
  c ∈ AltiumJSON.transform_all basename items → pin ∈ pins c →
  pin_name pin = if AltiumJSON._is_semantic_pin_name (designator pin)
                 then designator pin else "".
Proof.
  intros (cd & Hcd & Ht)%elem_of_transform_all Hpin.
  apply transform_component_inv in Ht as (_ & _ & _ & Hpins).
  rewrite Hpins in Hpin. unfold AltiumJSON._transform_pins in Hpin.
  by apply list_elem_of_fmap in Hpin as (pd & -> & Hpd).
Qed.

(** X26: the adapter has one string per pin, the key [name], and makes it
    the pin's designator and, when it is not empty, not a number and neither
    "A" nor "K", also the pin's name.  So a returned component is complex
    exactly when it has more than four pins or a pin with such a designator,
    and a pin reference of the DSL over returned components is the plain
    [refdes.pin], or [refdes.pin(pin)] with the designator said twice. *)
Theorem altium_pin_names items :
  let components0 := AltiumJSON.transform_all basename items in
  (∀ c pin, c ∈ components0 → pin ∈ pins c →
     pin_name pin = if AltiumJSON._is_semantic_pin_name (designator pin)
                    then designator pin else "")
  ∧ (∀ c, c ∈ components0 →
       is_complex c = true
       ↔ 4 < length (pins c)
         ∨ ∃ pin, pin ∈ pins c
                  ∧ AltiumJSON._is_semantic_pin_name (designator pin) = true)
  ∧ (∀ r d, _format_pin_reference r d components0 ∈ [plain_ref r d; named_ref r d d]).
Proof.
  cbv zeta. split_and!.
  - intros c pin. apply transformed_pin_name.
  - intros c Hc. unfold is_complex.
    destruct (decide (4 < length (pins c))) as [Hmany|Hfew]; [by split; [left|]|].
    cbv zeta. rewrite existsb_exists. split.
    + intros (pin & Hpin%list_elem_of_In & [Ht Hsimple]%andb_true_iff). right.
      exists pin. split; [done|].
      rewrite (transformed_pin_name c pin items Hc Hpin) in Ht.
      by destruct (AltiumJSON._is_semantic_pin_name (designator pin)).
    + intros [?|(pin & Hpin & Hsem)]; [done|].
      exists pin. split; [by apply list_elem_of_In|].
      rewrite (transformed_pin_name c pin items Hc Hpin), Hsem.
      destruct (is_semantic_pin_name_semantic _ Hsem) as [Hne Hnotin].
      apply andb_true_iff. split; [by apply str_truthy_ne|].
      apply negb_true_iff, bool_decide_eq_false.
      intros Hin. apply Hnotin.
      repeat (apply elem_of_cons in Hin as [->|Hin]; [in_list|]).
      apply elem_of_cons in Hin as [Heq|Hin]; [done|by apply elem_of_nil in Hin].
  - intros r d. rewrite format_pin_reference_cases.
    destruct (lookup_pin r d _) as [pin|] eqn:Hlookup; [|by left].
    destruct (decide (semantic_name (pin_name pin))) as [[Hne _]|_]; [|by left].
    unfold lookup_pin in Hlookup.
    destruct (find _ (AltiumJSON.transform_all basename items)) as [c|] eqn:Hc;
      [|done].
    simpl in Hlookup.
    pose proof (find_key_spec designator d (pins c)) as Hpin.
    rewrite Hlookup in Hpin. destruct Hpin as (before & after & Hpins & Hd & _).
    apply find_elem_of in Hc.
    assert (pin ∈ pins c) as Hin.
    { rewrite Hpins. apply elem_of_app. right. by left. }
    pose proof (transformed_pin_name c pin items Hc Hin) as Hname.
    rewrite Hd in Hname.
    destruct (AltiumJSON._is_semantic_pin_name d); [|done].
    rewrite Hname. right. by left.
Qed.

(** X27: a new Librarian on the adapter.  If the text does not decode, or
    not to an object, or to an object whose [components] is not an array, the
    first refresh raises the [ValueError] of [fetch_raw_data], the getters are
    not called and the cache stays empty and stale.  Whatever the text, the
    "Must call fetch_raw_data() before" error of the getters is not what a
    refresh raises.  When the refresh returns, the cache holds the transformed
    components and the collected nets of the design, and a refresh after
    [mark_dirty] leaves the Librarian and the adapter exactly as they were. *)
Theorem altium_librarian_refresh (json_data : AltiumJSON.Decoded) :
  let first := @refresh _ _ (altium_provider basename) (altium_world json_data) in
  (design_of json_data = None →
     ∃ msg, first.1 = Raise (AltiumJSON.ValueError msg)
       ∧ calls first.2 = [CallFetchRawData]
       ∧ components (self first.2) = [] ∧ nets (self first.2) = []
       ∧ dirty (self first.2) = true)
  ∧ (∀ e, first.1 = Raise e → ∀ msg, e ≠ AltiumJSON.RuntimeError msg)
  ∧ (first.1 = Return () →
     ∃ items, design_of json_data = Some items
       ∧ components (self first.2) = AltiumJSON.transform_all basename items
       ∧ nets (self first.2) = AltiumJSON.collect_nets basename items
       ∧ calls first.2 = full_fetch
       ∧ @refresh _ _ (altium_provider basename)
           (mark_dirty (E := AltiumJSON.Error) first.2).2
         = (Return (), mkWorld (self first.2) (calls first.2 ++ full_fetch))).
Proof.
  cbv zeta. rewrite refresh_unfold. unfold altium_world. simpl.
  unfold AltiumJSON.fetch_raw_data, AltiumJSON.init. simpl.
  destruct json_data as [[[[items|]|]|]|msg]; simpl.
  - split_and!; [done|done|]. intros _. exists items. split_and!; try done.
    rewrite refresh_unfold. simpl. by destruct (mkWorld _ _).
  - split_and!; [intros _; eexists; by split_and!|by intros e [= <-]|done].
  - split_and!; [done|done|]. intros _. exists []. split_and!; try done.
  - split_and!; [intros _; eexists; by split_and!|by intros e [= <-]|done].
  - split_and!; [intros _; eexists; by split_and!|by intros e [= <-]|done].
Qed.

End AltiumFacts.

Lemma altium_sample_components :
  AltiumJSON.transform_all posix_basename altium_items
  = [altium_u1_component; altium_r1_component].
Proof. by vm_compute. Qed.

Lemma altium_pins_agree_with_nets_witness :
  (∃ net, net ∈ AltiumJSON.collect_nets posix_basename altium_items
          ∧ net_name net = "UART_TX"
          ∧ ("U1", "PA9_TX") ∈ members net
          ∧ "Main.SchDoc" ∈ net_pages net)
  ∧ (∃ net, net ∈ AltiumJSON.collect_nets posix_basename altium_items
            ∧ net_name net = "UART_TX"
            ∧ ("", "1") ∈ members net)
  ∧ refdes altium_u1_component ≠ "".
Proof.
  destruct (altium_pins_agree_with_nets posix_basename altium_items)
    as (Hpins & _ & Hlost).
  assert (altium_u1_component ∈ AltiumJSON.transform_all posix_basename altium_items)
    as Hc by (rewrite altium_sample_components; by left).
  assert (mkPin "PA9_TX" "PA9_TX" "UART_TX" ∈ pins altium_u1_component) as Hpin
    by (right; by left).
  split; [exact (Hpins _ _ Hc Hpin)|].
  assert (altium_nameless ∈ altium_items) as Hitem by (right; right; by left).
  assert (default "" (AltiumJSON.cd_designator altium_nameless) = "") as Hnone
    by reflexivity.
  assert (altium_pin "1" "UART_TX" ∈ default [] (AltiumJSON.cd_pins altium_nameless))
    as Hpd by (by left).
  destruct (Hlost _ _ Hitem Hnone Hpd) as [Hnoname Hkept].
  split; [exact Hkept|exact (Hnoname _ Hc)].
Defined.

Lemma altium_pin_names_witness :
  is_complex altium_u1_component = true
  ∧ pin_name (mkPin "PA9_TX" "PA9_TX" "UART_TX") = "PA9_TX".
Proof.
  destruct (altium_pin_names posix_basename altium_items) as (Hname & Hcomplex & _).
  assert (altium_u1_component ∈ AltiumJSON.transform_all posix_basename altium_items)
    as Hc by (rewrite altium_sample_components; by left).
  assert (mkPin "PA9_TX" "PA9_TX" "UART_TX" ∈ pins altium_u1_component) as Hpin
    by (right; by left).
  split.
  - apply (Hcomplex _ Hc). right. by exists (mkPin "PA9_TX" "PA9_TX" "UART_TX").
  - by rewrite (Hname _ _ Hc Hpin).
Defined.

(** ** The nets of the KiCad adapter *)

Lemma comp_to_page_lookup (parsed_sheets : list (string * list string))
    (comp_ref : string) :
  default "unknown" (KiCADSch.comp_to_page_of parsed_sheets !! comp_ref)
  = sheet_of parsed_sheets comp_ref.
Proof.
  unfold KiCADSch.comp_to_page_of, sheet_of.
  assert (∀ (refs : list string) (name : string) (m : gmap string string),
    foldl (λ m r, <[r := name]> m) m refs !! comp_ref
    = if decide (comp_ref ∈ refs) then Some name else m !! comp_ref) as Hinner.
  { induction refs as [|r refs IH]; intros name m; simpl.
    - destruct (decide (comp_ref ∈ [])) as [Hin|]; [|done].
      by apply elem_of_nil in Hin.
    - rewrite IH. destruct (decide (comp_ref ∈ refs)) as [Hin|Hin].
      + rewrite decide_True; [done|by right].
      + destruct (decide (comp_ref = r)) as [->|Hne].
        * rewrite lookup_insert_eq. rewrite decide_True; [done|by left].
        * rewrite lookup_insert_ne by done. rewrite decide_False; [done|].
          by intros [?|?]%elem_of_cons. }
  induction parsed_sheets as [|sheet sheets IH] using rev_ind; [done|].
  rewrite foldl_app, filter_app. simpl. rewrite Hinner.
  rewrite filter_cons, filter_nil.
  destruct (decide (comp_ref ∈ sheet.2)) as [Hin|Hin].
  - by rewrite last_snoc.
  - by rewrite app_nil_r.
Qed.

Lemma kicad_collect_nets_after (parsed_sheets : list (string * list string))
    (pcb_netlist : list (string * list (string * string))) :
  KiCADSch.collect_nets parsed_sheets pcb_netlist
  = nets_after (pad_connections parsed_sheets pcb_netlist).
Proof.
  unfold KiCADSch.collect_nets, nets_after, pad_connections. cbv zeta.
  rewrite flat_map_concat_map, <- foldl_concat_map.
  generalize (@nil Net). induction pcb_netlist as [|entry pcb IH]; intros d; [done|].
  simpl. rewrite <- IH. f_equal. rewrite foldl_map.
  by rewrite comp_to_page_lookup.
Qed.

(** X28: the KiCad adapter builds its nets from the pads of the board.  A
    ready adapter returns nets with pairwise different names, one for every
    net name a pad is on, an empty name read as "NC", and none with an empty
    name or without members; a net holds the pads on it as pairs of
    reference designator and pad, in the order of the board, and as pages the
    sheets of their components, where a component counts on the last sheet
    that lists it and on the page "unknown" when no sheet does.  An adapter
    that is not ready raises. *)
Theorem kicad_nets_group_pads (self : KiCADSch.Adapter) :
  let conns := pad_connections (KiCADSch._parsed_sheets self)
                 (KiCADSch._pcb_netlist self) in
  if KiCADSch._ready self then
    ∃ nets0, KiCADSch.get_nets self = (Return nets0, self)
      ∧ NoDup (map net_name nets0)
      ∧ (∀ net, net ∈ nets0
                ↔ ∃ conn, conn ∈ conns ∧ net = net_of_connections conn.1.1 conns)
      ∧ Forall (λ net, net_name net ≠ "" ∧ members net ≠ []) nets0
  else ∃ msg, KiCADSch.get_nets self = (Raise (KiCADSch.RuntimeError msg), self).
Proof.
  cbv zeta. unfold KiCADSch.get_nets.
  destruct (KiCADSch._ready self); simpl; [|by eexists].
  eexists. split; [done|]. rewrite kicad_collect_nets_after.
  split; [apply nets_after_spec|]. split; [apply nets_after_elem|].
  apply Forall_forall. intros net (conn & Hconn & ->)%nets_after_elem.
  pose proof Hconn as Hjoin. unfold net_of_connections. cbn [net_name members].
  split.
  - unfold pad_connections in Hconn. apply list_elem_of_In, in_flat_map in Hconn
      as (entry & _ & Hpad). apply in_map_iff in Hpad as (pad & <- & _).
    apply nc_if_empty_ne.
  - assert (conn ∈ joining conn.1.1 (pad_connections (KiCADSch._parsed_sheets self)
                                        (KiCADSch._pcb_netlist self))) as Hin.
    { unfold joining. by apply list_elem_of_filter. }
    destruct (joining _ _); [by apply elem_of_nil in Hin|done].
Qed.

Lemma altium_librarian_refresh_witness :
  design_of (AltiumJSON.JSONDecodeError "Expecting value") = None
  ∧ (∃ msg,
       (@refresh _ _ (altium_provider posix_basename)
          (altium_world (AltiumJSON.JSONDecodeError "Expecting value"))).1
       = Raise (AltiumJSON.ValueError msg))
  ∧ (@refresh _ _ (altium_provider posix_basename) (altium_world altium_json)).1
    = Return ()
  ∧ components (self (@refresh _ _ (altium_provider posix_basename)
                        (altium_world altium_json)).2)
    = [altium_u1_component; altium_r1_component].
Proof.
  assert (design_of (AltiumJSON.JSONDecodeError "Expecting value") = None) as Hbad
    by reflexivity.
  assert ((@refresh _ _ (altium_provider posix_basename)
             (altium_world altium_json)).1 = Return ()) as Hgood by reflexivity.
  split; [exact Hbad|]. split.
  - destruct (altium_librarian_refresh posix_basename
                (AltiumJSON.JSONDecodeError "Expecting value")) as (Hraise & _).
    destruct (Hraise Hbad) as (msg & Hmsg & _). by exists msg.
  - split; [exact Hgood|].
    destruct (altium_librarian_refresh posix_basename altium_json) as (_ & _ & Hreturn).
    destruct (Hreturn Hgood) as (items & Hitems & Hcomponents & _).
    rewrite Hcomponents. injection Hitems as <-. apply altium_sample_components.
Defined.
